(** * Car market insights: listing reconciliation and price-delta pipeline

    A shallow embedding of the seeding script (catalog and listing
    ingestion, [extractMakeModel], the maker/model lookup) and of the
    [GET /api/insights/price-delta] route of the analytics backend,
    together with the properties of the written specification that
    concern them.

    Conventions of the embedding.
    - JavaScript strings are [string]s of 8-bit characters.  Character
      classes ([\s], [\d], [[A-Z]], upper and lower case) are the ASCII
      ones; characters above 127 are letters of no class.
    - SQL tables are lists of rows in scan order.  A query without
      [ORDER BY] returns rows in scan order, [ORDER BY] is a stable sort
      of the scan order, an [UPDATE] rewrites the row in place and an
      [INSERT] appends.  PostgreSQL leaves the order of rows with equal
      sort keys open; the embedding fixes it as described, so "the first
      row", where keys tie, means the first in scan order.
    - [NUMERIC] values are rationals ([Q]) and arithmetic on them is
      exact (PostgreSQL carries at least 16 significant digits through a
      division; [NaN] is left out), except that dividing by zero raises
      an error as PostgreSQL does.  [INTEGER] values are [Z], without
      the 32-bit range check.  [NULL] is [None], and operators are
      strict (a [NULL] operand gives [NULL]).
    - CSV cells and query-string parameters that the code converts with
      [Number], [parseFloat] or [parseIntOrNull] appear already converted
      ([None] for the [null] these conversions yield). *)

From Stdlib Require Import ZArith QArith Qround Qabs Lqa List String Ascii Bool Lia Sorted.
From stdpp Require Import gmap strings.
Import ListNotations.

Local Open Scope string_scope.
Local Open Scope list_scope.

(** ** Characters and text *)

Module Text.

Definition text := list ascii.

Definition code (c : ascii) : N := N_of_ascii c.

(** [\s] of JavaScript regular expressions and of [trim], ASCII part:
    TAB, LF, VT, FF, CR and SPACE. *)
Definition is_space (c : ascii) : bool :=
  ((9 <=? code c) && (code c <=? 13) || (code c =? 32))%N.

(** [\d]. *)
Definition is_digit (c : ascii) : bool :=
  ((48 <=? code c) && (code c <=? 57))%N.

Definition is_upper (c : ascii) : bool :=
  ((65 <=? code c) && (code c <=? 90))%N.

Definition is_lower (c : ascii) : bool :=
  ((97 <=? code c) && (code c <=? 122))%N.

(** [[A-Z]] under the [i] flag. *)
Definition is_alpha (c : ascii) : bool := is_upper c || is_lower c.

(** Line terminators, which [.] does not match. *)
Definition is_line_terminator (c : ascii) : bool :=
  ((code c =? 10) || (code c =? 13))%N.

Definition to_upper (c : ascii) : ascii :=
  if is_lower c then ascii_of_N (code c - 32) else c.

Definition to_lower (c : ascii) : ascii :=
  if is_upper c then ascii_of_N (code c + 32) else c.

Definition upper (s : text) : text := map to_upper s.
Definition lower (s : text) : text := map to_lower s.

Fixpoint drop_space (s : text) : text :=
  match s with
  | c :: r => if is_space c then drop_space r else s
  | [] => []
  end.

(** [String.prototype.trim]. *)
Definition trim (s : text) : text :=
  rev (drop_space (rev (drop_space s))).

(** [s.split(/\s+/)]: the pieces between maximal runs of white space.
    The result is never empty; it is [[""]] for the empty string, and a
    string that starts (ends) with white space gives an empty first
    (last) piece. *)
Fixpoint split_space (s : text) : list text :=
  match s with
  | [] => [[]]
  | c :: r =>
      let ts := split_space r in
      if is_space c then
        match r with
        | c' :: _ => if is_space c' then ts else [] :: ts
        | [] => [] :: ts
        end
      else
        match ts with
        | t :: ts' => (c :: t) :: ts'
        | [] => [[c]]
        end
  end.

(** [parts.join(' ')]. *)
Fixpoint join_space (parts : list text) : text :=
  match parts with
  | [] => []
  | [p] => p
  | p :: ps => p ++ " "%char :: join_space ps
  end.

(** [s.split(' ')[0]]: the part of [s] before its first SPACE. *)
Fixpoint first_field (s : text) : text :=
  match s with
  | [] => []
  | c :: r => if Ascii.eqb c " " then [] else c :: first_field r
  end.

Fixpoint span (f : ascii -> bool) (s : text) : text * text :=
  match s with
  | c :: r => if f c then let (a, b) := span f r in (c :: a, b) else ([], s)
  | [] => ([], [])
  end.

(** Does a match of [/\s+\d+\.\d+\s*[A-Z]+.*$/i] start at the head of
    [s]?  The classes [\s], [\d], [.] and letters that follow one
    another in the expression are disjoint where it matters, so each
    repetition takes its maximal run. *)
Definition engine_code_at (s : text) : bool :=
  match span is_space s with
  | ([], _) => false
  | (_ :: _, s1) =>
      match span is_digit s1 with
      | (_ :: _, "."%char :: s2) =>
          match span is_digit s2 with
          | (_ :: _, s3) =>
              match drop_space s3 with
              | c :: s4 =>
                  is_alpha c && forallb (fun x => negb (is_line_terminator x)) s4
              | [] => false
              end
          | ([], _) => false
          end
      | _ => false
      end
  end.

(** [s.replace(/\s+\d+\.\d+\s*[A-Z]+.*$/i, '')]: the expression is
    anchored at the end of the input, so replacing its first (leftmost)
    match cuts [s] where that match starts. *)
Fixpoint strip_engine_code (s : text) : text :=
  match s with
  | [] => []
  | c :: r => if engine_code_at s then [] else c :: strip_engine_code r
  end.

(** [LIKE] of PostgreSQL: [%] stands for any run of characters, [_] for
    any one character, and a backslash takes the next character
    literally.  PostgreSQL raises an error when the matcher reaches a
    backslash that ends the pattern; such a pattern matches no text,
    and the only caller that can pass one catches the error and takes
    it for "no row", so the error is rendered as [false]. *)
Fixpoint like (p s : text) : bool :=
  match p with
  | [] => match s with [] => true | _ :: _ => false end
  | c :: p' =>
      if Ascii.eqb c "%" then
        (fix any (s : text) : bool :=
           like p' s || match s with [] => false | _ :: s' => any s' end) s
      else if Ascii.eqb c "_" then
        match s with [] => false | _ :: s' => like p' s' end
      else if Ascii.eqb c "\" then
        match p' with
        | [] => false
        | e :: p'' =>
            match s with [] => false | d :: s' => Ascii.eqb e d && like p'' s' end
        end
      else
        match s with [] => false | d :: s' => Ascii.eqb c d && like p' s' end
  end.

(** [ILIKE]: [LIKE] on the lower-cased pattern and text. *)
Definition ilike (p s : text) : bool := like (lower p) (lower s).

End Text.

Definition txt (s : string) : Text.text := list_ascii_of_string s.
Definition str (s : Text.text) : string := string_of_list_ascii s.

(** ** Free-text extractor: [extractMakeModel] of the seeding script *)

Record MakeModel := { make : option string; model : option string }.

(** [title.trim().split(/\s+/)]. *)
Definition title_parts (title : string) : list string :=
  map str (Text.split_space (Text.trim (txt title))).

(** [parts.join(' ').replace(/\s+\d+\.\d+\s*[A-Z]+.*$/i, '').trim()]. *)
Definition model_of_parts (parts : list string) : string :=
  str (Text.trim (Text.strip_engine_code (Text.join_space (map txt parts)))).

Definition extractMakeModel (title : option string) : MakeModel :=
  match title with
  | None => {| make := None; model := None |}
  | Some "" => {| make := None; model := None |}
  | Some t =>
      match title_parts t with
      | [] => {| make := None; model := None |}
      | [p0] => {| make := if String.eqb p0 "" then None else Some p0; model := None |}
      | p0 :: p1 :: rest =>
          if String.eqb p1 "Benz"
          then {| make := Some (p0 ++ "-" ++ p1)%string; model := Some (model_of_parts rest) |}
          else {| make := Some p0; model := Some (model_of_parts (p1 :: rest)) |}
      end
  end.

(** ** SQL values and statements that can fail *)

Inductive error :=
| DivisionByZero   (* PostgreSQL: division by zero *)
| SyntaxError      (* the statement text does not parse *)
| NegativeLimit.   (* LIMIT / OFFSET must not be negative *)

Inductive result (A : Type) :=
| Ok (a : A)
| Err (e : error).
Arguments Ok {A} a.
Arguments Err {A} e.

#[global] Instance result_bind : MBind result :=
  fun A B (f : A -> result B) (r : result A) =>
    match r with Ok a => f a | Err e => Err e end.

#[global] Instance result_ret : MRet result := fun A a => Ok a.

Fixpoint mapM {A B} (f : A -> result B) (l : list A) : result (list B) :=
  match l with
  | [] => Ok []
  | a :: r => b ← f a; bs ← mapM f r; Ok (b :: bs)
  end.

Module Sql.

Definition sub (a b : option Q) : option Q :=
  match a, b with Some x, Some y => Some (x - y)%Q | _, _ => None end.

Definition mul (a b : option Q) : option Q :=
  match a, b with Some x, Some y => Some (x * y)%Q | _, _ => None end.

Definition div (a b : option Q) : result (option Q) :=
  match a, b with
  | Some x, Some y => if Qeq_bool y 0 then Err DivisionByZero else Ok (Some (x / y)%Q)
  | _, _ => Ok None
  end.

(** [ROUND(x, 2)] on [NUMERIC]: to the nearest hundredth, ties away
    from zero. *)
Definition round2 (x : Q) : Q :=
  let n := (x * 100)%Q in
  if Qle_bool 0 n
  then Qred (Qmake (Qfloor (n + (1 # 2))) 100)
  else Qred (Qmake (- Qfloor (- n + (1 # 2))) 100).

Definition round (a : option Q) : option Q := option_map round2 a.

Definition ge (a b : option Q) : option bool :=
  match a, b with Some x, Some y => Some (Qle_bool y x) | _, _ => None end.

Definition le (a b : option Q) : option bool :=
  match a, b with Some x, Some y => Some (Qle_bool x y) | _, _ => None end.

Definition ilike (s : option string) (pattern : string) : option bool :=
  option_map (fun v => Text.ilike (txt pattern) (txt v)) s.

(** Three-valued [OR]. *)
Definition or (a b : option bool) : option bool :=
  match a, b with
  | Some true, _ | _, Some true => Some true
  | Some false, Some false => Some false
  | _, _ => None
  end.

Definition is_not_null {A} (a : option A) : option bool := Some (bool_decide (is_Some a)).

(** A [WHERE] clause [c1 AND c2 AND ...]: the conditions are evaluated
    in the order written, and a row is dropped at the first one that
    is not true. *)
Fixpoint where_all {A} (conds : list (A -> result (option bool))) (row : A) : result bool :=
  match conds with
  | [] => Ok true
  | c :: cs =>
      v ← c row;
      match v with
      | Some true => where_all cs row
      | _ => Ok false
      end
  end.

Fixpoint filterM {A} (f : A -> result bool) (l : list A) : result (list A) :=
  match l with
  | [] => Ok []
  | a :: r =>
      keep ← f a;
      rest ← filterM f r;
      Ok (if keep : bool then a :: rest else rest)
  end.

Definition left_join {A B} (on : A -> B -> bool) (l : list A) (r : list B)
  : list (A * option B) :=
  flat_map (fun a =>
              match List.filter (on a) r with
              | [] => [(a, None)]
              | bs => map (fun b => (a, Some b)) bs
              end) l.

(** [ORDER BY]: stable insertion sort. *)
Fixpoint insert_by {A} (leb : A -> A -> bool) (x : A) (l : list A) : list A :=
  match l with
  | [] => [x]
  | y :: r => if leb x y then x :: l else y :: insert_by leb x r
  end.

Fixpoint order_by {A} (leb : A -> A -> bool) (l : list A) : list A :=
  match l with
  | [] => []
  | x :: r => insert_by leb x (order_by leb r)
  end.

(** [SELECT DISTINCT ON (key)]: the first row of each key. *)
Fixpoint distinct_on {A} (key : A -> Z) (l : list A) : list A :=
  match l with
  | [] => []
  | x :: r => x :: List.filter (fun y => negb (key y =? key x)%Z) (distinct_on key r)
  end.

(** [LIMIT n OFFSET k]. *)
Definition limit_offset {A} (n k : Z) (l : list A) : result (list A) :=
  if ((n <? 0) || (k <? 0))%Z then Err NegativeLimit
  else Ok (firstn (Z.to_nat n) (skipn (Z.to_nat k) l)).

(** Sort keys under [NULLS LAST]. *)
Definition key_leb {A} (leb : A -> A -> bool) (desc : bool) (a b : option A) : bool :=
  match a, b with
  | _, None => true
  | None, Some _ => false
  | Some x, Some y => if desc then leb y x else leb x y
  end.

End Sql.

(** ** Tables of [initSchema] *)

Module Maker.
Record t := { id : Z; name : string }.
End Maker.

Module Model.
Record t := { id : Z; maker_id : Z; name : string; genmodel_id : string }.
End Model.

Module Sale.
Record t := { model_id : Z; year : Z; units : Z }.
End Sale.

Module Price.
Record t := { model_id : Z; year : Z; entry_price : option Q; entry_price_eur : option Q }.
End Price.

Module Listing.
Record t := {
  id : Z;
  url : option string;
  title : option string;
  price_eur : option Q;
  currency : option string;
  mileage_km : option Q;
  year : option Z;
  location : option string;
  description : option string;
  images : option string;
  specs : option string;
  model_id : option Z;
  extracted_make : option string;
  extracted_model : option string
}.
End Listing.

(** The database: the five tables the pipeline uses and the sequences
    behind the three [SERIAL] keys (the next value [nextval] hands out). *)
Record DB := {
  makers : list Maker.t;
  models : list Model.t;
  sales : list Sale.t;
  prices : list Price.t;
  listings : list Listing.t;
  makers_id_seq : Z;
  models_id_seq : Z;
  listings_id_seq : Z
}.

(** The database right after [initSchema] on an empty server. *)
Definition empty_db : DB :=
  {| makers := []; models := []; sales := []; prices := []; listings := [];
     makers_id_seq := 1; models_id_seq := 1; listings_id_seq := 1 |}.

Definition with_makers (d : DB) (ms : list Maker.t) (seq : Z) : DB :=
  {| makers := ms; models := models d; sales := sales d; prices := prices d;
     listings := listings d; makers_id_seq := seq;
     models_id_seq := models_id_seq d; listings_id_seq := listings_id_seq d |}.

Definition with_models (d : DB) (ms : list Model.t) (seq : Z) : DB :=
  {| makers := makers d; models := ms; sales := sales d; prices := prices d;
     listings := listings d; makers_id_seq := makers_id_seq d;
     models_id_seq := seq; listings_id_seq := listings_id_seq d |}.

Definition with_sales (d : DB) (ss : list Sale.t) : DB :=
  {| makers := makers d; models := models d; sales := ss; prices := prices d;
     listings := listings d; makers_id_seq := makers_id_seq d;
     models_id_seq := models_id_seq d; listings_id_seq := listings_id_seq d |}.

Definition with_prices (d : DB) (ps : list Price.t) : DB :=
  {| makers := makers d; models := models d; sales := sales d; prices := ps;
     listings := listings d; makers_id_seq := makers_id_seq d;
     models_id_seq := models_id_seq d; listings_id_seq := listings_id_seq d |}.

Definition with_listings (d : DB) (ls : list Listing.t) (seq : Z) : DB :=
  {| makers := makers d; models := models d; sales := sales d; prices := prices d;
     listings := ls; makers_id_seq := makers_id_seq d;
     models_id_seq := models_id_seq d; listings_id_seq := seq |}.

(** [INSERT ... ON CONFLICT (key) DO UPDATE SET ...]: the row that has
    the key of the new row is rewritten where it stands; without such a
    row the new one is appended. *)
Definition upsert {A} (conflict : A -> bool) (update : A -> A) (new : A) (l : list A)
  : list A :=
  if existsb conflict l
  then map (fun a => if conflict a then update a else a) l
  else l ++ [new].

(** ** Catalog ingestion: [getMakerId], [getModelId], [seedSales], [seedPrices] *)

Definition trim (s : string) : string := str (Text.trim (txt s)).
Definition toUpperCase (s : string) : string := str (Text.upper (txt s)).

Arguments trim : simpl never.
Arguments toUpperCase : simpl never.

(** The state of a seeding process: the database and the two
    process-wide caches.  The key of [modelCache] is the string
    [`${makerId}::${genmodelId}`]; a number prints without a colon, so
    the string determines the pair, and the pair is the key here. *)
Record Seeder := {
  db : DB;
  makerCache : gmap string Z;
  modelCache : gmap (Z * string) Z
}.

(** A process that has just started on the database [d]. *)
Definition start (d : DB) : Seeder :=
  {| db := d; makerCache := ∅; modelCache := ∅ |}.

(** [INSERT INTO makers (name) VALUES ($1) ON CONFLICT (name) DO UPDATE
    SET name = EXCLUDED.name RETURNING id].  The default of [id] draws
    from the sequence before the conflict is seen. *)
Definition insert_maker (name : string) (d : DB) : Z * DB :=
  let fresh := makers_id_seq d in
  let conflict (m : Maker.t) := String.eqb (Maker.name m) name in
  let rows :=
    upsert conflict
           (fun m => {| Maker.id := Maker.id m; Maker.name := name |})
           {| Maker.id := fresh; Maker.name := name |}
           (makers d) in
  (match find conflict (makers d) with
   | Some m => Maker.id m
   | None => fresh
   end,
   with_makers d rows (fresh + 1)).

Definition getMakerId (makerName : string) (s : Seeder) : Z * Seeder :=
  let key := toUpperCase (trim makerName) in
  match makerCache s !! key with
  | Some id => (id, s)
  | None =>
      let (id, d) := insert_maker (trim makerName) (db s) in
      (id, {| db := d; makerCache := <[key := id]> (makerCache s);
              modelCache := modelCache s |})
  end.

(** [INSERT INTO models (maker_id, name, genmodel_id) VALUES ($1, $2, $3)
    ON CONFLICT (maker_id, genmodel_id) DO UPDATE SET name = EXCLUDED.name
    RETURNING id]. *)
Definition insert_model (makerId : Z) (name genmodelId : string) (d : DB) : Z * DB :=
  let fresh := models_id_seq d in
  let conflict (m : Model.t) :=
    (Model.maker_id m =? makerId)%Z && String.eqb (Model.genmodel_id m) genmodelId in
  let rows :=
    upsert conflict
           (fun m => {| Model.id := Model.id m; Model.maker_id := Model.maker_id m;
                        Model.name := name; Model.genmodel_id := Model.genmodel_id m |})
           {| Model.id := fresh; Model.maker_id := makerId;
              Model.name := name; Model.genmodel_id := genmodelId |}
           (models d) in
  (match find conflict (models d) with
   | Some m => Model.id m
   | None => fresh
   end,
   with_models d rows (fresh + 1)).

Definition getModelId (makerId : Z) (modelName genmodelId : string) (s : Seeder)
  : Z * Seeder :=
  let cacheKey := (makerId, genmodelId) in
  match modelCache s !! cacheKey with
  | Some id => (id, s)
  | None =>
      let (id, d) := insert_model makerId (trim modelName) (trim genmodelId) (db s) in
      (id, {| db := d; makerCache := makerCache s;
              modelCache := <[cacheKey := id]> (modelCache s) |})
  end.

Definition on_db (f : DB -> DB) (s : Seeder) : Seeder :=
  {| db := f (db s); makerCache := makerCache s; modelCache := modelCache s |}.

(** [INSERT INTO sales ... ON CONFLICT (model_id, year) DO UPDATE SET
    units = EXCLUDED.units]. *)
Definition insert_sale (modelId year units : Z) (d : DB) : DB :=
  let conflict (r : Sale.t) := (Sale.model_id r =? modelId)%Z && (Sale.year r =? year)%Z in
  with_sales d
    (upsert conflict
            (fun r => {| Sale.model_id := Sale.model_id r; Sale.year := Sale.year r;
                         Sale.units := units |})
            {| Sale.model_id := modelId; Sale.year := year; Sale.units := units |}
            (sales d)).

(** [INSERT INTO prices ... ON CONFLICT (model_id, year) DO UPDATE SET
    entry_price = EXCLUDED.entry_price, entry_price_eur =
    EXCLUDED.entry_price_eur]. *)
Definition insert_price (modelId year : Z) (entryPrice entryPriceEur : option Q) (d : DB)
  : DB :=
  let conflict (r : Price.t) := (Price.model_id r =? modelId)%Z && (Price.year r =? year)%Z in
  with_prices d
    (upsert conflict
            (fun r => {| Price.model_id := Price.model_id r; Price.year := Price.year r;
                         Price.entry_price := entryPrice;
                         Price.entry_price_eur := entryPriceEur |})
            {| Price.model_id := modelId; Price.year := year;
               Price.entry_price := entryPrice; Price.entry_price_eur := entryPriceEur |}
            (prices d)).

(** A record of [Sales_table.csv].  [units y] is
    [parseIntOrNull(record[String(y)])]. *)
Module SalesRecord.
Record t := { Maker : string; Genmodel : string; Genmodel_ID : string;
              units : Z -> option Z }.
End SalesRecord.

(** The years of the loop [for (year = 2001; year <= 2020; year += 1)]. *)
Definition sales_years : list Z := map Z.of_nat (seq 2001 20).

Definition seedSalesRecord (record : SalesRecord.t) (s : Seeder) : Seeder :=
  let (makerId, s1) := getMakerId (SalesRecord.Maker record) s in
  let (modelId, s2) :=
    getModelId makerId (SalesRecord.Genmodel record) (SalesRecord.Genmodel_ID record) s1 in
  fold_left
    (fun s year =>
       let value := default 0%Z (SalesRecord.units record year) in
       on_db (insert_sale modelId year value) s)
    sales_years s2.

Definition seedSales (records : list SalesRecord.t) (s : Seeder) : Seeder :=
  fold_left (fun s record => seedSalesRecord record s) records s.

(** A record of [Price_table_enriched.csv]; a column the file lacks is
    [None].  [Year] is [parseIntOrNull(record.Year)], and the two prices
    are [record.X ? Number(record.X) : null]. *)
Module PriceRecord.
Record t := {
  maker_canonical : option string;
  Maker : option string;
  Genmodel : option string;
  model_norm : option string;
  Model : option string;
  Genmodel_ID : option string;
  genmodel_id : option string;
  key : option string;
  Year : option Z;
  Entry_price : option Q;
  Entry_price_eur : option Q
}.
End PriceRecord.

(** [a || b] on strings that may be [undefined]: the empty string is
    falsy. *)
Definition truthy (a : option string) : bool :=
  match a with Some s => negb (String.eqb s "") | None => false end.

Definition js_or (a b : option string) : option string :=
  if truthy a then a else b.

(** The three names a price record is seeded under, unless one of them
    is missing or empty ([if (!makerName || !modelName || !genmodelId)
    continue]). *)
Definition price_record_names (record : PriceRecord.t) : option (string * string * string) :=
  let makerName := js_or (PriceRecord.maker_canonical record) (PriceRecord.Maker record) in
  let modelName :=
    js_or (js_or (PriceRecord.Genmodel record) (PriceRecord.model_norm record))
          (PriceRecord.Model record) in
  let genmodelId :=
    js_or (js_or (js_or (PriceRecord.Genmodel_ID record) (PriceRecord.genmodel_id record))
                 (PriceRecord.key record))
          (PriceRecord.Genmodel_ID record) in
  match makerName, modelName, genmodelId with
  | Some makerName', Some modelName', Some genmodelId' =>
      if truthy makerName && truthy modelName && truthy genmodelId
      then Some (makerName', modelName', genmodelId')
      else None
  | _, _, _ => None
  end.

Definition seedPricesRecord (record : PriceRecord.t) (s : Seeder) : Seeder :=
  match price_record_names record with
  | Some (makerName, modelName, genmodelId) =>
      let (makerId, s1) := getMakerId makerName s in
      let (modelId, s2) := getModelId makerId modelName genmodelId s1 in
      match PriceRecord.Year record with
      | Some year =>
          if (year =? 0)%Z then s2
          else on_db (insert_price modelId year (PriceRecord.Entry_price record)
                                   (PriceRecord.Entry_price_eur record)) s2
      | None => s2
      end
  | None => s
  end.

Definition seedPrices (records : list PriceRecord.t) (s : Seeder) : Seeder :=
  fold_left (fun s record => seedPricesRecord record s) records s.

(** Catalog ingestion as [seedAll] runs it: the sales file, then the
    price file, in one process. *)
Definition seedCatalog (sales_file : list SalesRecord.t) (price_file : list PriceRecord.t)
  (s : Seeder) : Seeder :=
  seedPrices price_file (seedSales sales_file s).

(** ** Reconciliation and listing ingestion: [seedListings] *)

(** [SELECT id FROM makers WHERE name ILIKE $1 LIMIT 1] with [$1 = make]. *)
Definition find_maker (d : DB) (make : string) : option Z :=
  option_map Maker.id
    (find (fun mk => Text.ilike (txt make) (txt (Maker.name mk))) (makers d)).

(** [SELECT id FROM models WHERE maker_id = $1 AND name ILIKE $2 LIMIT 1]
    with [$2 = `%${model.split(' ')[0]}%`]. *)
Definition model_pattern (model : string) : Text.text :=
  "%"%char :: Text.first_field (txt model) ++ ["%"%char].

Definition find_model (d : DB) (makerId : Z) (model : string) : option Z :=
  option_map Model.id
    (find (fun m => (Model.maker_id m =? makerId)%Z
                    && Text.ilike (model_pattern model) (txt (Model.name m)))
          (models d)).

(** The body of [if (make && model) { try { ... } catch { } }]. *)
Definition match_model (d : DB) (mm : MakeModel) : option Z :=
  match make mm, model mm with
  | Some mk, Some mo =>
      if truthy (Some mk) && truthy (Some mo) then
        match find_maker d mk with
        | Some makerId => find_model d makerId mo
        | None => None
        end
      else None
  | _, _ => None
  end.

(** A record of the listings file.  The text cells are as parsed (a
    missing column is [None]); [price_eur] and [mileage_km] are
    [record.X ? parseFloat(record.X) : null], [year] is
    [parseIntOrNull(record.year)] and [specs] is the re-serialised JSON
    of the cell, or [None] when the cell is empty or not JSON. *)
Module ListingRecord.
Record t := {
  url : option string;
  title : option string;
  price_eur : option Q;
  currency : option string;
  mileage_km : option Q;
  year : option Z;
  location : option string;
  description : option string;
  images : option string;
  specs : option string
}.
End ListingRecord.

(** [cell || null]. *)
Definition or_null (a : option string) : option string :=
  if truthy a then a else None.

Definition same_url (u : option string) (l : Listing.t) : bool :=
  match u, Listing.url l with
  | Some a, Some b => String.eqb a b
  | _, _ => false
  end.

(** The row that [INSERT INTO listings (...) VALUES ($1, ..., $13)]
    proposes. *)
Definition new_listing (d : DB) (record : ListingRecord.t) : Listing.t :=
  let mm := extractMakeModel (ListingRecord.title record) in
  {| Listing.id := listings_id_seq d;
     Listing.url := or_null (ListingRecord.url record);
     Listing.title := or_null (ListingRecord.title record);
     Listing.price_eur := ListingRecord.price_eur record;
     Listing.currency := or_null (ListingRecord.currency record);
     Listing.mileage_km := ListingRecord.mileage_km record;
     Listing.year := ListingRecord.year record;
     Listing.location := or_null (ListingRecord.location record);
     Listing.description := or_null (ListingRecord.description record);
     Listing.images := or_null (ListingRecord.images record);
     Listing.specs := ListingRecord.specs record;
     Listing.model_id := match_model d mm;
     Listing.extracted_make := make mm;
     Listing.extracted_model := model mm |}.

(** [ON CONFLICT (url) DO UPDATE SET title = EXCLUDED.title, price_eur =
    EXCLUDED.price_eur, mileage_km = EXCLUDED.mileage_km, year =
    EXCLUDED.year, model_id = EXCLUDED.model_id]. *)
Definition on_conflict_url (excluded old : Listing.t) : Listing.t :=
  {| Listing.id := Listing.id old;
     Listing.url := Listing.url old;
     Listing.title := Listing.title excluded;
     Listing.price_eur := Listing.price_eur excluded;
     Listing.currency := Listing.currency old;
     Listing.mileage_km := Listing.mileage_km excluded;
     Listing.year := Listing.year excluded;
     Listing.location := Listing.location old;
     Listing.description := Listing.description old;
     Listing.images := Listing.images old;
     Listing.specs := Listing.specs old;
     Listing.model_id := Listing.model_id excluded;
     Listing.extracted_make := Listing.extracted_make old;
     Listing.extracted_model := Listing.extracted_model old |}.

Definition seedListingsRecord (record : ListingRecord.t) (d : DB) : DB :=
  let excluded := new_listing d record in
  with_listings d
    (upsert (same_url (Listing.url excluded)) (on_conflict_url excluded) excluded
            (listings d))
    (listings_id_seq d + 1).

Definition seedListings (records : list ListingRecord.t) (d : DB) : DB :=
  fold_left (fun d record => seedListingsRecord record d) records d.

(** ** The price-delta route: [GET /api/insights/price-delta] *)

(** The parameters of a request, after [req.query] is destructured with
    its defaults ([limit = 50], [offset = 0], [sortBy =
    'price_delta_percent']).  The four numeric filters are the values
    [Number(...)] yields; [minPrice] and [maxPrice] are [None] when the
    parameter is missing or empty, [minDiscount] and [maxDiscount] when
    it is missing. *)
Module Request.
Record t := {
  maker : option string;
  model : option string;
  minPrice : option Q;
  maxPrice : option Q;
  minDiscount : option Q;
  maxDiscount : option Q;
  limit : Z;
  offset : Z;
  sortBy : string
}.
End Request.

(** A row of [FROM listings l LEFT JOIN models m ... LEFT JOIN makers mk
    ... LEFT JOIN LATERAL (...) p]. *)
Module Joined.
Record t := {
  l : Listing.t;
  m : option Model.t;
  mk : option Maker.t;
  p : option Price.t
}.
End Joined.

(** [ABS(p2.year - COALESCE(l.year, 0))]. *)
Definition year_distance (listing_year : option Z) (p2 : Price.t) : Z :=
  (Z.abs (Price.year p2 - default 0 listing_year))%Z.

(** [SELECT entry_price_eur, year FROM prices p2 ORDER BY ABS(p2.year -
    COALESCE(l.year, 0)) ASC LIMIT 1], over the price rows of one model. *)
Definition closest_price (listing_year : option Z) (referencePrices : list Price.t)
  : option Price.t :=
  head (Sql.order_by
          (fun a b => (year_distance listing_year a <=? year_distance listing_year b)%Z)
          referencePrices).

(** The price rows with [p2.model_id = m.id AND m.id IS NOT NULL]. *)
Definition prices_of (d : DB) (m : option Model.t) : list Price.t :=
  match m with
  | Some m => List.filter (fun p2 => (Price.model_id p2 =? Model.id m)%Z) (prices d)
  | None => []
  end.

(** The [FROM] clause.  The lateral subquery yields at most one row. *)
Definition from_clause (d : DB) : list Joined.t :=
  let lm :=
    Sql.left_join
      (fun (l : Listing.t) (m : Model.t) =>
         match Listing.model_id l with
         | Some i => (Model.id m =? i)%Z
         | None => false
         end)
      (listings d) (models d) in
  let lmk :=
    Sql.left_join
      (fun (x : Listing.t * option Model.t) (mk : Maker.t) =>
         match snd x with
         | Some m => (Maker.id mk =? Model.maker_id m)%Z
         | None => false
         end)
      lm (makers d) in
  map (fun x : (Listing.t * option Model.t) * option Maker.t =>
         {| Joined.l := fst (fst x); Joined.m := snd (fst x); Joined.mk := snd x;
            Joined.p := closest_price (Listing.year (fst (fst x))) (prices_of d (snd (fst x))) |})
      lmk.

(** The selected reference price [p.entry_price_eur] of a joined row. *)
Definition reference_price (j : Joined.t) : option Q :=
  Joined.p j ≫= Price.entry_price_eur.

(** [(p.entry_price_eur - l.price_eur) / p.entry_price_eur * 100]. *)
Definition discount_percent (listing_price reference : option Q) : result (option Q) :=
  q ← Sql.div (Sql.sub reference listing_price) reference;
  Ok (Sql.mul q (Some 100%Q)).

(** The conditions pushed on [filters], in the order of the pushes. *)
Definition filters (r : Request.t) : list (Joined.t -> result (option bool)) :=
  (if truthy (Request.maker r)
   then [fun j => Ok (Sql.or (Sql.ilike (Listing.extracted_make (Joined.l j))
                                        ("%" ++ default "" (Request.maker r) ++ "%")%string)
                             (Sql.ilike (option_map Maker.name (Joined.mk j))
                                        ("%" ++ default "" (Request.maker r) ++ "%")%string))]
   else [])
  ++ (if truthy (Request.model r)
      then [fun j => Ok (Sql.or (Sql.ilike (Listing.extracted_model (Joined.l j))
                                           ("%" ++ default "" (Request.model r) ++ "%")%string)
                                (Sql.ilike (option_map Model.name (Joined.m j))
                                           ("%" ++ default "" (Request.model r) ++ "%")%string))]
      else [])
  ++ match Request.minPrice r with
     | Some v => [fun j => Ok (Sql.ge (Listing.price_eur (Joined.l j)) (Some v))]
     | None => []
     end
  ++ match Request.maxPrice r with
     | Some v => [fun j => Ok (Sql.le (Listing.price_eur (Joined.l j)) (Some v))]
     | None => []
     end
  ++ match Request.minDiscount r with
     | Some v => [fun j => pc ← discount_percent (Listing.price_eur (Joined.l j)) (reference_price j);
                           Ok (Sql.ge pc (Some v))]
     | None => []
     end
  ++ match Request.maxDiscount r with
     | Some v => [fun j => pc ← discount_percent (Listing.price_eur (Joined.l j)) (reference_price j);
                           Ok (Sql.le pc (Some v))]
     | None => []
     end
  ++ [fun j => Ok (Sql.is_not_null (reference_price j));
      fun j => Ok (Sql.is_not_null (Listing.price_eur (Joined.l j)))].

(** A row of the common table expression [price_matches] of the main
    query. *)
Module PriceMatch.
Record t := {
  id : Z;
  url : option string;
  title : option string;
  listing_price : option Q;
  listing_year : option Z;
  mileage_km : option Q;
  original_price : option Q;
  original_year : option Z;
  make : option string;
  model : option string;
  matched_maker : option string;
  matched_model : option string;
  price_delta : option Q;
  price_delta_percent : option Q
}.
End PriceMatch.

(** The [SELECT] list of [price_matches]. *)
Definition select_row (j : Joined.t) : result PriceMatch.t :=
  pc ← discount_percent (Listing.price_eur (Joined.l j)) (reference_price j);
  Ok {| PriceMatch.id := Listing.id (Joined.l j);
        PriceMatch.url := Listing.url (Joined.l j);
        PriceMatch.title := Listing.title (Joined.l j);
        PriceMatch.listing_price := Listing.price_eur (Joined.l j);
        PriceMatch.listing_year := Listing.year (Joined.l j);
        PriceMatch.mileage_km := Listing.mileage_km (Joined.l j);
        PriceMatch.original_price := reference_price j;
        PriceMatch.original_year := option_map Price.year (Joined.p j);
        PriceMatch.make := Listing.extracted_make (Joined.l j);
        PriceMatch.model := Listing.extracted_model (Joined.l j);
        PriceMatch.matched_maker := option_map Maker.name (Joined.mk j);
        PriceMatch.matched_model := option_map Model.name (Joined.m j);
        PriceMatch.price_delta := Sql.sub (reference_price j) (Listing.price_eur (Joined.l j));
        PriceMatch.price_delta_percent := Sql.round pc |}.

(** [WITH price_matches AS (SELECT DISTINCT ON (l.id) ... FROM ...
    WHERE ...)] of the main query. *)
Definition price_matches (d : DB) (r : Request.t) : result (list PriceMatch.t) :=
  kept ← Sql.filterM (Sql.where_all (filters r)) (from_clause d);
  rows ← mapM select_row kept;
  Ok (Sql.distinct_on PriceMatch.id rows).

(** The columns a result can be ordered by. *)
Module Column.
Inductive t :=
| price_delta_percent | price_delta | listing_price | original_price
| listing_year | mileage_km | title.
End Column.

(** What [validSortColumns[sortColumn]] evaluates to.  The table is an
    object literal, so besides its own nine keys the lookup finds the
    properties it inherits from [Object.prototype]; those are functions
    or objects, hence truthy, and are not column names. *)
Inductive property :=
| Own (c : Column.t)
| Inherited
| Undefined.

Definition Object_prototype : list string :=
  ["constructor"; "__defineGetter__"; "__defineSetter__"; "hasOwnProperty";
   "__lookupGetter__"; "__lookupSetter__"; "isPrototypeOf"; "propertyIsEnumerable";
   "toString"; "valueOf"; "__proto__"; "toLocaleString"].

Definition own_columns : list (string * Column.t) :=
  [("price_delta_percent", Column.price_delta_percent);
   ("price_delta", Column.price_delta);
   ("price_eur", Column.listing_price);
   ("entry_price_eur", Column.original_price);
   ("listing_price", Column.listing_price);
   ("original_price", Column.original_price);
   ("listing_year", Column.listing_year);
   ("mileage_km", Column.mileage_km);
   ("title", Column.title)].

Definition validSortColumns (sortColumn : string) : property :=
  match find (fun kv => String.eqb (fst kv) sortColumn) own_columns with
  | Some kv => Own (snd kv)
  | None =>
      if existsb (String.eqb sortColumn) Object_prototype then Inherited else Undefined
  end.

(** [sortBy.startsWith('-') ? 'DESC' : 'ASC'], as "descending?". *)
Definition sortOrder (sortBy : string) : bool :=
  match sortBy with
  | String "-" _ => true
  | _ => false
  end.

(** [sortBy.replace(/^-/, '')]. *)
Definition sortColumn (sortBy : string) : string :=
  match sortBy with
  | String "-" rest => rest
  | _ => sortBy
  end.

(** [validSortColumns[sortColumn] || 'price_delta_percent']; an inherited
    property is spliced into the statement as it prints, and the
    statement does not parse. *)
Definition orderBy (sortBy : string) : result Column.t :=
  match validSortColumns (sortColumn sortBy) with
  | Own c => Ok c
  | Undefined => Ok Column.price_delta_percent
  | Inherited => Err SyntaxError
  end.

Definition Qleb (a b : Q) : bool := Qle_bool a b.

(** [ORDER BY <column> <ASC|DESC> NULLS LAST] as a comparison of rows;
    text compares character by character. *)
Definition row_leb (c : Column.t) (desc : bool) (a b : PriceMatch.t) : bool :=
  match c with
  | Column.price_delta_percent =>
      Sql.key_leb Qleb desc (PriceMatch.price_delta_percent a) (PriceMatch.price_delta_percent b)
  | Column.price_delta => Sql.key_leb Qleb desc (PriceMatch.price_delta a) (PriceMatch.price_delta b)
  | Column.listing_price => Sql.key_leb Qleb desc (PriceMatch.listing_price a) (PriceMatch.listing_price b)
  | Column.original_price =>
      Sql.key_leb Qleb desc (PriceMatch.original_price a) (PriceMatch.original_price b)
  | Column.listing_year => Sql.key_leb Z.leb desc (PriceMatch.listing_year a) (PriceMatch.listing_year b)
  | Column.mileage_km => Sql.key_leb Qleb desc (PriceMatch.mileage_km a) (PriceMatch.mileage_km b)
  | Column.title => Sql.key_leb String.leb desc (PriceMatch.title a) (PriceMatch.title b)
  end.

(** The main statement without its last line: [SELECT * FROM
    price_matches WHERE price_delta_percent IS NOT NULL ORDER BY ...]. *)
Definition ordered_matches (d : DB) (r : Request.t) : result (list PriceMatch.t) :=
  c ← orderBy (Request.sortBy r);
  rows ← price_matches d r;
  Ok (Sql.order_by (row_leb c (sortOrder (Request.sortBy r)))
        (List.filter (fun x => bool_decide (is_Some (PriceMatch.price_delta_percent x))) rows)).

(** The main statement. *)
Definition query (d : DB) (r : Request.t) : result (list PriceMatch.t) :=
  rows ← ordered_matches d r;
  Sql.limit_offset (Request.limit r) (Request.offset r) rows.

(** [countQuery]: its [price_matches] keeps [l.id], [p.entry_price_eur]
    and [l.price_eur], and the rows with both prices are counted.  It is
    run with the parameters of the filters only. *)
Definition countQuery (d : DB) (r : Request.t) : result Z :=
  kept ← Sql.filterM (Sql.where_all (filters r)) (from_clause d);
  let rows :=
    Sql.distinct_on (fun x : Z * option Q * option Q => fst (fst x))
      (map (fun j => (Listing.id (Joined.l j), reference_price j, Listing.price_eur (Joined.l j))) kept) in
  Ok (Z.of_nat
        (length (List.filter (fun x : Z * option Q * option Q =>
                           bool_decide (is_Some (snd (fst x)))
                           && bool_decide (is_Some (snd x)))
                        rows))).

(** The body the route answers with: the rows of the main statement, in
    its order (the route copies them field by field into objects), and
    the count.  An error of either statement is answered with status
    500. *)
Record Response := {
  data : list PriceMatch.t;
  total : Z;
  response_limit : Z;
  response_offset : Z
}.

Definition price_delta_route (d : DB) (r : Request.t) : result Response :=
  rows ← query d r;
  n ← countQuery d r;
  Ok {| data := rows; total := n; response_limit := Request.limit r; response_offset := Request.offset r |}.

(** ** The price-delta calculator on one listing

    [computeDelta] is the route's computation for a single listing:
    the listing's price and year, and the price rows of its reconciled
    model.  It runs the lateral subquery, the two [IS NOT NULL]
    conditions that end every [WHERE] clause of the route, the [SELECT]
    list, and the [price_delta_percent IS NOT NULL] of the outer
    statement.  [None] is "no row". *)
Record Delta := {
  referencePrice : Q;
  referenceYear : Z;
  delta : Q;
  deltaPercent : Q
}.

Definition computeDelta (listingPrice : option Q) (listingYear : option Z)
  (referencePrices : list Price.t) : result (option Delta) :=
  let p := closest_price listingYear referencePrices in
  let reference := p ≫= Price.entry_price_eur in
  if bool_decide (is_Some reference) && bool_decide (is_Some listingPrice) then
    pc ← discount_percent listingPrice reference;
    match p, reference, Sql.sub reference listingPrice, Sql.round pc with
    | Some p, Some ref, Some d, Some pct =>
        Ok (Some {| referencePrice := ref; referenceYear := Price.year p;
                    delta := d; deltaPercent := pct |})
    | _, _, _, _ => Ok None
    end
  else Ok None.

(** ** Views of the catalog and of a seeding process *)

(** The maker names the two files pass to [getMakerId], in the order
    of the calls. *)
Definition ingested_maker_names (sales_file : list SalesRecord.t)
  (price_file : list PriceRecord.t) : list string :=
  map SalesRecord.Maker sales_file
  ++ flat_map (fun record =>
                 match price_record_names record with
                 | Some (makerName, _, _) => [makerName]
                 | None => []
                 end) price_file.

(** The key under which [getMakerId] caches a name. *)
Definition maker_key (makerName : string) : string := toUpperCase (trim makerName).

(** A model row without its name: the id and the natural key. *)
Definition model_rows (d : DB) : list (Z * Z * string) :=
  map (fun m => (Model.id m, Model.maker_id m, Model.genmodel_id m)) (models d).

(** The [UNIQUE] constraints of [makers] and [models]. *)
Definition unique_keys (d : DB) : Prop :=
  List.NoDup (map Maker.name (makers d))
  /\ List.NoDup (map (fun m => (Model.maker_id m, Model.genmodel_id m)) (models d)).

(** "Maker names are unique up to letter case". *)
Definition case_insensitive_unique (d : DB) : Prop :=
  List.NoDup (map (fun m => toUpperCase (Maker.name m)) (makers d)).

(** The invariant of a seeding process that started on an empty [makers]
    table, after it has passed the names [done] to [getMakerId]: every
    maker row is cached under the upper-cased name, no two rows agree up
    to case, every row holds the trimmed first name of [done] with its
    key, and every name of [done] is cached. *)
Record maker_inv (s : Seeder) (done : list string) : Prop := {
  inv_cached : forall m, In m (makers (db s)) ->
                         makerCache s !! toUpperCase (Maker.name m) = Some (Maker.id m);
  inv_unique : case_insensitive_unique (db s);
  inv_first : forall m, In m (makers (db s)) ->
                exists before n after,
                  done = before ++ n :: after
                  /\ Maker.name m = trim n
                  /\ forall n', In n' before -> maker_key n' <> maker_key n;
  inv_done : forall n, In n done -> is_Some (makerCache s !! maker_key n)
}.

(** What a step that does not touch [makers] leaves alone. *)
Definition same_makers (s s' : Seeder) : Prop :=
  makers (db s') = makers (db s)
  /\ makers_id_seq (db s') = makers_id_seq (db s)
  /\ makerCache s' = makerCache s.

(** The catalog of [D] contains that of [d]: every maker row, and every
    model row up to its name. *)
Definition extends (d D : DB) : Prop :=
  incl (makers d) (makers D) /\ incl (model_rows d) (model_rows D).

(** [D'] has the maker rows of [D] and its model rows up to names. *)
Definition same_catalog (D D' : DB) : Prop :=
  makers D' = makers D /\ model_rows D' = model_rows D.

Definition same_caches (s S : Seeder) : Prop :=
  makerCache S = makerCache s /\ modelCache S = modelCache s.

(** A step of the seeding process can be replayed: it only adds to the
    catalog, it respects the [UNIQUE] constraints, and when it is run
    again, from the same caches, on a database that already contains
    what its first run produced, it returns the same value, fills the
    caches the same way and leaves the catalog as it is. *)
Record replays {A} (f : Seeder -> A * Seeder) : Prop := {
  replay_extends : forall s, extends (db s) (db (snd (f s)));
  replay_unique : forall s, unique_keys (db s) -> unique_keys (db (snd (f s)));
  replay_same : forall s S,
      same_caches s S -> unique_keys (db S) -> extends (db (snd (f s))) (db S) ->
      fst (f S) = fst (f s)
      /\ same_catalog (db S) (db (snd (f S)))
      /\ same_caches (snd (f s)) (snd (f S))
}.

(** The caches of [S] hold every entry of the caches of [s]. *)
Definition caches_included (s S : Seeder) : Prop :=
  makerCache s ⊆ makerCache S /\ modelCache s ⊆ modelCache S.

(** [S'] has the [makers] and [models] tables and the caches of [S]. *)
Definition same_tables (S S' : Seeder) : Prop :=
  makers (db S') = makers (db S) /\ models (db S') = models (db S)
  /\ makerCache S' = makerCache S /\ modelCache S' = modelCache S.

(** A step is absorbed by the caches: it only adds cache entries, and in
    a process whose caches hold what its first run left there it returns
    the same value and touches neither catalog table nor the caches. *)
Record absorbed {A} (f : Seeder -> A * Seeder) : Prop := {
  absorb_grows : forall s, caches_included s (snd (f s));
  absorb_same : forall s S,
      caches_included (snd (f s)) S ->
      fst (f S) = fst (f s) /\ same_tables S (snd (f S))
}.

(** ** Requests and pages *)

(** The same request for another page. *)
Definition with_page (r : Request.t) (limit offset : Z) : Request.t :=
  {| Request.maker := Request.maker r; Request.model := Request.model r;
     Request.minPrice := Request.minPrice r; Request.maxPrice := Request.maxPrice r;
     Request.minDiscount := Request.minDiscount r;
     Request.maxDiscount := Request.maxDiscount r;
     Request.limit := limit; Request.offset := offset;
     Request.sortBy := Request.sortBy r |}.

(** Page [k] (from 0) of a result read in pages of [size] rows. *)
Definition page (d : DB) (r : Request.t) (size : Z) (k : nat) : result (list PriceMatch.t) :=
  query d (with_page r size (Z.of_nat k * size)).

(** A request without filters. *)
Definition plain_request (sortBy : string) (limit offset : Z) : Request.t :=
  {| Request.maker := None; Request.model := None;
     Request.minPrice := None; Request.maxPrice := None;
     Request.minDiscount := None; Request.maxDiscount := None;
     Request.limit := limit; Request.offset := offset; Request.sortBy := sortBy |}.

(** "Ordered by delta percent, descending". *)
Definition descending_by_percent (rows : list PriceMatch.t) : Prop :=
  StronglySorted
    (fun a b => row_leb Column.price_delta_percent true a b = true) rows.

(** ** Patterns and words *)

(** The characters [LIKE] gives a meaning to. *)
Definition is_wildcard (c : ascii) : bool :=
  Ascii.eqb c "%" || Ascii.eqb c "_" || Ascii.eqb c "\".

Definition wildcard_free (s : Text.text) : Prop :=
  forallb (fun c => negb (is_wildcard c)) s = true.

(** A word: a non-empty text without white space. *)
Definition word (t : Text.text) : Prop :=
  t <> [] /\ forallb (fun c => negb (Text.is_space c)) t = true.

(** What [join_space] puts after the first part. *)
Definition rest_joined (parts : list Text.text) : Text.text :=
  match parts with
  | [] => []
  | _ :: _ => " "%char :: Text.join_space parts
  end.

Fixpoint no_trailing_space (s : Text.text) : bool :=
  match s with
  | [] => true
  | [c] => negb (Text.is_space c)
  | _ :: r => no_trailing_space r
  end.

(** The suffix expression read on words.  [decimal_rest t] is what
    follows a leading [\d+\.\d+] in [t]. *)
Definition decimal_rest (t : Text.text) : option Text.text :=
  match Text.span Text.is_digit t with
  | (_ :: _, "."%char :: r) =>
      match Text.span Text.is_digit r with
      | (_ :: _, r') => Some r'
      | ([], _) => None
      end
  | _ => None
  end.

Definition starts_alpha (t : Text.text) : bool :=
  match t with c :: _ => Text.is_alpha c | [] => false end.

Definition starts_upper (t : Text.text) : bool :=
  match t with c :: _ => Text.is_upper c | [] => false end.

(** The word [t] opens an engine code: it starts with a decimal number
    that is followed by a letter, in [t] itself or, when [t] is just the
    number, at the start of the next word. *)
Definition code_follows (t : Text.text) (next : list Text.text) : bool :=
  match decimal_rest t with
  | Some [] => match next with n :: _ => starts_alpha n | [] => false end
  | Some r => starts_alpha r
  | None => false
  end.

(** The words in front of the first one that opens an engine code. *)
Fixpoint keep_tokens (ts : list Text.text) : list Text.text :=
  match ts with
  | [] => []
  | t :: r => if code_follows t r then [] else t :: keep_tokens r
  end.

Definition keep_words (ws : list string) : list string :=
  map str (keep_tokens (map txt ws)).

Definition unwords (ws : list string) : string :=
  str (Text.join_space (map txt ws)).

(** ** The wording of the specification, for comparison with the code *)

(** The inputs the specification calls degenerate for [computeDelta]:
    no reference prices, a listing price that is null or not positive,
    or a selected reference price that is null or zero. *)
Definition degenerate (listingPrice : option Q) (listingYear : option Z)
  (referencePrices : list Price.t) : Prop :=
  referencePrices = []
  \/ listingPrice = None
  \/ (exists x, listingPrice = Some x /\ (x <= 0)%Q)
  \/ closest_price listingYear referencePrices ≫= Price.entry_price_eur = None
  \/ (exists z, closest_price listingYear referencePrices ≫= Price.entry_price_eur = Some z
                /\ (z == 0)%Q).

(** The selection rule of the specification: minimum distance to the
    listing year, and the earliest year among points at that distance. *)
Definition earliest_closest (listingYear : option Z) (referencePrices : list Price.t)
  (p : Price.t) : Prop :=
  In p referencePrices
  /\ (forall q, In q referencePrices ->
                (year_distance listingYear p <= year_distance listingYear q)%Z)
  /\ (forall q, In q referencePrices ->
                year_distance listingYear q = year_distance listingYear p ->
                (Price.year p <= Price.year q)%Z).

(** "Case-insensitive exact-or-contains match": the name, lower-cased,
    contains the lower-cased make. *)
Fixpoint starts_with (t s : Text.text) : bool :=
  match t, s with
  | [], _ => true
  | c :: t', d :: s' => Ascii.eqb c d && starts_with t' s'
  | _ :: _, [] => false
  end.

Fixpoint contains (t s : Text.text) : bool :=
  starts_with t s || match s with [] => false | _ :: s' => contains t s' end.

Definition spec_find_maker (d : DB) (make : string) : option Z :=
  option_map Maker.id
    (find (fun mk => contains (Text.lower (txt make)) (Text.lower (txt (Maker.name mk))))
          (makers d)).

(** The rule as the specification words it: a word that is a decimal
    number, immediately followed by a word that starts with an upper-case
    letter, and everything after it, is cut; the make is the first word
    unless the title starts with "Mercedes Benz". *)
Definition is_decimal (t : Text.text) : bool :=
  match decimal_rest t with Some [] => true | _ => false end.

Fixpoint spec_keep_tokens (ts : list Text.text) : list Text.text :=
  match ts with
  | [] => []
  | t :: r =>
      if is_decimal t && match r with n :: _ => starts_upper n | [] => false end
      then []
      else t :: spec_keep_tokens r
  end.

Definition spec_extract (title : string) : MakeModel :=
  match title_parts title with
  | p0 :: rest =>
      {| make := Some p0;
         model := Some (unwords (map str (spec_keep_tokens (map txt rest)))) |}
  | [] => {| make := None; model := None |}
  end.

(** ** Sample data *)

Definition price_point (year : Z) (entry_price_eur : Q) : Price.t :=
  {| Price.model_id := 1; Price.year := year;
     Price.entry_price := None; Price.entry_price_eur := Some entry_price_eur |}.

Definition skoda_listing : Listing.t :=
  {| Listing.id := 1; Listing.url := Some "https://cars.example/1";
     Listing.title := Some "Skoda Octavia Combi 2.0 TSI";
     Listing.price_eur := Some 18000%Q; Listing.currency := Some "EUR";
     Listing.mileage_km := Some 90000%Q; Listing.year := Some 2015%Z;
     Listing.location := Some "Lisboa"; Listing.description := None;
     Listing.images := None; Listing.specs := None; Listing.model_id := None;
     Listing.extracted_make := Some "Skoda";
     Listing.extracted_model := Some "Octavia Combi" |}.

Definition audi_record : ListingRecord.t :=
  {| ListingRecord.url := Some "https://cars.example/1";
     ListingRecord.title := Some "Audi A4 Avant";
     ListingRecord.price_eur := Some 17500%Q; ListingRecord.currency := Some "USD";
     ListingRecord.mileage_km := Some 91000%Q; ListingRecord.year := Some 2016%Z;
     ListingRecord.location := Some "Porto"; ListingRecord.description := Some "new text";
     ListingRecord.images := None; ListingRecord.specs := None |}.

Definition one_listing_db : DB := with_listings empty_db [skoda_listing] 2.

Definition sales_record (maker genmodel genmodel_id : string) : SalesRecord.t :=
  {| SalesRecord.Maker := maker; SalesRecord.Genmodel := genmodel;
     SalesRecord.Genmodel_ID := genmodel_id; SalesRecord.units := fun _ => None |}.

(** A small database, built by the seeding functions: one maker, one
    model with a 2014 price of 20000, and three listings of that model
    at 18000, 25000 and 19000. *)
Definition sample_prices : list PriceRecord.t :=
  [{| PriceRecord.maker_canonical := None; PriceRecord.Maker := Some "Skoda";
      PriceRecord.Genmodel := Some "Octavia"; PriceRecord.model_norm := None;
      PriceRecord.Model := None; PriceRecord.Genmodel_ID := Some "81_1";
      PriceRecord.genmodel_id := None; PriceRecord.key := None;
      PriceRecord.Year := Some 2014%Z; PriceRecord.Entry_price := Some 17000%Q;
      PriceRecord.Entry_price_eur := Some 20000%Q |}].

Definition sample_listing (url title : string) (price : Q) : ListingRecord.t :=
  {| ListingRecord.url := Some url; ListingRecord.title := Some title;
     ListingRecord.price_eur := Some price; ListingRecord.currency := Some "EUR";
     ListingRecord.mileage_km := None; ListingRecord.year := Some 2015%Z;
     ListingRecord.location := None; ListingRecord.description := None;
     ListingRecord.images := None; ListingRecord.specs := None |}.

Definition sample_db : DB :=
  seedListings
    [sample_listing "https://cars.example/a" "Skoda Octavia Combi 2.0 TSI" 18000;
     sample_listing "https://cars.example/b" "Skoda Octavia RS" 25000;
     sample_listing "https://cars.example/c" "Skoda Octavia 1.6 tdi" 19000]
    (db (seedCatalog [] sample_prices (start empty_db))).

Definition sample_request : Request.t := plain_request "-price_delta_percent" 2 0.

Definition sample_response : Response :=
  match price_delta_route sample_db sample_request with
  | Ok resp => resp
  | Err _ => {| data := []; total := 0; response_limit := 0; response_offset := 0 |}
  end.

Definition mercedes_db : DB :=
  db (seedCatalog [sales_record "Mercedes-Benz" "C300 Coupe" "59_12"] [] (start empty_db)).

(** ** Callers of the route *)

(** The same request under another sort key. *)
Definition with_sortBy (r : Request.t) (sortBy : string) : Request.t :=
  {| Request.maker := Request.maker r; Request.model := Request.model r;
     Request.minPrice := Request.minPrice r; Request.maxPrice := Request.maxPrice r;
     Request.minDiscount := Request.minDiscount r;
     Request.maxDiscount := Request.maxDiscount r;
     Request.limit := Request.limit r; Request.offset := Request.offset r;
     Request.sortBy := sortBy |}.

(** The two requests of the home page:
    [price-delta?limit=5&sortBy=-price_delta_percent&minDiscount=0] and
    [price-delta?limit=5&sortBy=price_delta_percent&maxDiscount=0]. *)
Definition best_deals : Request.t :=
  {| Request.maker := None; Request.model := None;
     Request.minPrice := None; Request.maxPrice := None;
     Request.minDiscount := Some 0%Q; Request.maxDiscount := None;
     Request.limit := 5; Request.offset := 0; Request.sortBy := "-price_delta_percent" |}.

Definition worst_deals : Request.t :=
  {| Request.maker := None; Request.model := None;
     Request.minPrice := None; Request.maxPrice := None;
     Request.minDiscount := None; Request.maxDiscount := Some 0%Q;
     Request.limit := 5; Request.offset := 0; Request.sortBy := "price_delta_percent" |}.

(** The unrounded discount of a listing price against a reference price,
    in percent. *)
Definition percent_off (price ref : Q) : Q := ((ref - price) / ref * 100)%Q.

(** ** More sample data *)

(** A request with every filter set. *)
Definition filtered_request : Request.t :=
  {| Request.maker := Some "koda"; Request.model := Some "OCTA";
     Request.minPrice := Some 10000%Q; Request.maxPrice := Some 20000%Q;
     Request.minDiscount := Some 1%Q; Request.maxDiscount := Some 50%Q;
     Request.limit := 10; Request.offset := 0; Request.sortBy := "-price_eur" |}.

Definition filtered_response : Response :=
  match price_delta_route sample_db filtered_request with
  | Ok resp => resp
  | Err _ => {| data := []; total := 0; response_limit := 0; response_offset := 0 |}
  end.

(** The sample database with a reference price of zero for its model. *)
Definition zero_price_db : DB :=
  seedListings
    [sample_listing "https://cars.example/a" "Skoda Octavia Combi 2.0 TSI" 18000]
    (db (seedCatalog []
           [{| PriceRecord.maker_canonical := None; PriceRecord.Maker := Some "Skoda";
               PriceRecord.Genmodel := Some "Octavia"; PriceRecord.model_norm := None;
               PriceRecord.Model := None; PriceRecord.Genmodel_ID := Some "81_1";
               PriceRecord.genmodel_id := None; PriceRecord.key := None;
               PriceRecord.Year := Some 2014%Z; PriceRecord.Entry_price := None;
               PriceRecord.Entry_price_eur := Some 0%Q |}]
           (start empty_db))).

(** ** Sequences of upserts

    Every table of the pipeline is written by one statement of the form
    [INSERT ... ON CONFLICT (key) DO UPDATE SET ...].  A step is such a
    statement with its parameters filled in: the test for a conflicting
    row, the update of a conflicting row and the row proposed for
    insertion. *)
Module Step.
Record t (A : Type) := { conflict : A -> bool; update : A -> A; new : A }.
Arguments conflict {A} _ _.
Arguments update {A} _ _.
Arguments new {A} _.
End Step.

Definition run_step {A} (st : Step.t A) (rows : list A) : list A :=
  upsert (Step.conflict st) (Step.update st) (Step.new st) rows.

Definition run_steps {A} (steps : list (Step.t A)) (rows : list A) : list A :=
  fold_left (fun rows st => run_step st rows) steps rows.

(** What a step makes of a stored row, and what a sequence of steps
    makes of it. *)
Definition touch {A} (st : Step.t A) (a : A) : A :=
  if Step.conflict st a then Step.update st a else a.

Definition touch_all {A} (steps : list (Step.t A)) (a : A) : A :=
  fold_left (fun a st => touch st a) steps a.

(** Two steps that test and update alike; their proposed rows may
    differ. *)
Definition same_effect {A} (s1 s2 : Step.t A) : Prop :=
  forall a, Step.conflict s2 a = Step.conflict s1 a /\ Step.update s2 a = Step.update s1 a.

(** The statement of [seedListings] for one proposed row. *)
Definition listing_step (excluded : Listing.t) : Step.t Listing.t :=
  {| Step.conflict := same_url (Listing.url excluded);
     Step.update := on_conflict_url excluded;
     Step.new := excluded |}.

(** A statement of [seedListings] whose url is not null. *)
Definition listing_good_step (s : Step.t Listing.t) : Prop :=
  exists excluded u, s = listing_step excluded /\ Listing.url excluded = Some u.

(** The statements a run of [seedListings] issues. *)
Fixpoint listing_steps (records : list ListingRecord.t) (d : DB) : list (Step.t Listing.t) :=
  match records with
  | [] => []
  | record :: rest =>
      listing_step (new_listing d record) :: listing_steps rest (seedListingsRecord record d)
  end.

(** ** Views of the [listings] table *)

(** The columns [ON CONFLICT (url) DO UPDATE] leaves alone. *)
Definition kept_columns (l : Listing.t) :=
  (Listing.id l, Listing.url l, Listing.currency l, Listing.location l,
   Listing.description l, Listing.images l, Listing.specs l,
   Listing.extracted_make l, Listing.extracted_model l).

(** The urls stored in [listings], nulls left out. *)
Definition stored_urls (d : DB) : list string :=
  flat_map (fun l => match Listing.url l with Some u => [u] | None => [] end) (listings d).

(** The constraints of [listings]: the primary key, with every id below
    the next value of the sequence, the [UNIQUE] constraint on [url]
    (which nulls do not violate), and the foreign key to [models]. *)
Record listings_ok (d : DB) : Prop := {
  listing_ids_unique : List.NoDup (map Listing.id (listings d));
  listing_ids_issued : forall l, In l (listings d) -> (Listing.id l < listings_id_seq d)%Z;
  listing_urls_unique : List.NoDup (stored_urls d);
  listing_models_exist :
    forall l i, In l (listings d) -> Listing.model_id l = Some i ->
                In i (map Model.id (models d))
}.

(** A listings file without urls, and one whose records share a url. *)
Definition no_url_listing (title : string) (price : Q) : ListingRecord.t :=
  {| ListingRecord.url := Some ""; ListingRecord.title := Some title;
     ListingRecord.price_eur := Some price; ListingRecord.currency := Some "EUR";
     ListingRecord.mileage_km := None; ListingRecord.year := Some 2015%Z;
     ListingRecord.location := None; ListingRecord.description := None;
     ListingRecord.images := None; ListingRecord.specs := None |}.

Definition sample_listings : list ListingRecord.t :=
  [sample_listing "https://cars.example/a" "Skoda Octavia Combi 2.0 TSI" 18000;
   sample_listing "https://cars.example/b" "Skoda Octavia RS" 25000;
   sample_listing "https://cars.example/a" "Skoda Octavia 1.6 tdi" 17000].

(** ** The constraints of the catalog tables *)

Definition model_key (m : Model.t) : Z * string := (Model.maker_id m, Model.genmodel_id m).
Definition sale_key (r : Sale.t) : Z * Z := (Sale.model_id r, Sale.year r).
Definition price_key (r : Price.t) : Z * Z := (Price.model_id r, Price.year r).

(** What [initSchema] declares for [makers], [models], [sales] and
    [prices]: the primary keys (a [SERIAL] id is below the next value of
    its sequence), the [UNIQUE] constraints and the foreign keys. *)
Record catalog_ok (d : DB) : Prop := {
  maker_ids_unique : List.NoDup (map Maker.id (makers d));
  maker_ids_issued : forall m, In m (makers d) -> (Maker.id m < makers_id_seq d)%Z;
  maker_names_unique : List.NoDup (map Maker.name (makers d));
  model_ids_unique : List.NoDup (map Model.id (models d));
  model_ids_issued : forall m, In m (models d) -> (Model.id m < models_id_seq d)%Z;
  model_keys_unique : List.NoDup (map model_key (models d));
  model_makers_exist :
    forall m, In m (models d) -> In (Model.maker_id m) (map Maker.id (makers d));
  sale_keys_unique : List.NoDup (map sale_key (sales d));
  sale_models_exist :
    forall r, In r (sales d) -> In (Sale.model_id r) (map Model.id (models d));
  price_keys_unique : List.NoDup (map price_key (prices d));
  price_models_exist :
    forall r, In r (prices d) -> In (Price.model_id r) (map Model.id (models d))
}.

(** The caches of a seeding process hold ids of stored rows: a maker id
    under the upper-cased name of its row, a model id under the maker id
    of its row and a [genmodel_id] that trims to that of the row. *)
Record caches_ok (s : Seeder) : Prop := {
  cached_maker :
    forall key i, makerCache s !! key = Some i ->
      exists m, In m (makers (db s)) /\ Maker.id m = i /\ toUpperCase (Maker.name m) = key;
  cached_model :
    forall makerId genmodelId i, modelCache s !! (makerId, genmodelId) = Some i ->
      In (i, makerId, trim genmodelId) (model_rows (db s))
}.

(** The id [seedSales] and [seedPrices] write a record under. *)
Definition record_model_id (makerName modelName genmodelId : string) (s : Seeder) : Z :=
  fst (getModelId (fst (getMakerId makerName s)) modelName genmodelId
         (snd (getMakerId makerName s))).

(** ** The statements of a catalog run

    The statements [getModelId], [seedSales] and [seedPrices] send to
    the tables [models], [sales] and [prices], with the parameters they
    are sent with. *)
Inductive write :=
| WriteModel (makerId : Z) (name genmodelId : string)
| WriteSale (modelId year units : Z)
| WritePrice (modelId year : Z) (entryPrice entryPriceEur : option Q).

Definition apply_write (w : write) (d : DB) : DB :=
  match w with
  | WriteModel makerId name genmodelId => snd (insert_model makerId name genmodelId d)
  | WriteSale modelId year units => insert_sale modelId year units d
  | WritePrice modelId year entryPrice entryPriceEur =>
      insert_price modelId year entryPrice entryPriceEur d
  end.

Definition replay (log : list write) (d : DB) : DB :=
  fold_left (fun d w => apply_write w d) log d.

(** [getModelId] sends its statement when the cache has no entry. *)
Definition getModelId_log (makerId : Z) (modelName genmodelId : string) (s : Seeder)
  : list write :=
  match modelCache s !! (makerId, genmodelId) with
  | Some _ => []
  | None => [WriteModel makerId (trim modelName) (trim genmodelId)]
  end.

Definition sales_loop_log (modelId : Z) (units : Z -> option Z) : list write :=
  map (fun year => WriteSale modelId year (default 0%Z (units year))) sales_years.

Definition seedSalesRecord_log (record : SalesRecord.t) (s : Seeder) : list write :=
  let (makerId, s1) := getMakerId (SalesRecord.Maker record) s in
  let (modelId, _) :=
    getModelId makerId (SalesRecord.Genmodel record) (SalesRecord.Genmodel_ID record) s1 in
  getModelId_log makerId (SalesRecord.Genmodel record) (SalesRecord.Genmodel_ID record) s1
  ++ sales_loop_log modelId (SalesRecord.units record).

Definition price_row_log (record : PriceRecord.t) (modelId : Z) : list write :=
  match PriceRecord.Year record with
  | Some year =>
      if (year =? 0)%Z then []
      else [WritePrice modelId year (PriceRecord.Entry_price record)
              (PriceRecord.Entry_price_eur record)]
  | None => []
  end.

Definition seedPricesRecord_log (record : PriceRecord.t) (s : Seeder) : list write :=
  match price_record_names record with
  | Some (makerName, modelName, genmodelId) =>
      let (makerId, s1) := getMakerId makerName s in
      let (modelId, _) := getModelId makerId modelName genmodelId s1 in
      getModelId_log makerId modelName genmodelId s1 ++ price_row_log record modelId
  | None => []
  end.

(** The statements of a fold of steps, each with its own. *)
Fixpoint fold_log {X} (step : X -> Seeder -> Seeder) (log : X -> Seeder -> list write)
  (xs : list X) (s : Seeder) : list write :=
  match xs with
  | [] => []
  | x :: rest => log x s ++ fold_log step log rest (step x s)
  end.

Definition seedSales_log (records : list SalesRecord.t) (s : Seeder) : list write :=
  fold_log (fun record s => seedSalesRecord record s) seedSalesRecord_log records s.

Definition seedPrices_log (records : list PriceRecord.t) (s : Seeder) : list write :=
  fold_log (fun record s => seedPricesRecord record s) seedPricesRecord_log records s.

Definition seedCatalog_log (sales_file : list SalesRecord.t)
  (price_file : list PriceRecord.t) (s : Seeder) : list write :=
  seedSales_log sales_file s ++ seedPrices_log price_file (seedSales sales_file s).

(** The statements as steps on their tables.  The row an insert into
    [models] proposes takes its id from the sequence. *)
Definition model_step (fresh makerId : Z) (name genmodelId : string) : Step.t Model.t :=
  {| Step.conflict := fun m =>
       (Model.maker_id m =? makerId)%Z && String.eqb (Model.genmodel_id m) genmodelId;
     Step.update := fun m =>
       {| Model.id := Model.id m; Model.maker_id := Model.maker_id m;
          Model.name := name; Model.genmodel_id := Model.genmodel_id m |};
     Step.new := {| Model.id := fresh; Model.maker_id := makerId;
                    Model.name := name; Model.genmodel_id := genmodelId |} |}.

Definition sale_step (modelId year units : Z) : Step.t Sale.t :=
  {| Step.conflict := fun r => (Sale.model_id r =? modelId)%Z && (Sale.year r =? year)%Z;
     Step.update := fun r =>
       {| Sale.model_id := Sale.model_id r; Sale.year := Sale.year r; Sale.units := units |};
     Step.new := {| Sale.model_id := modelId; Sale.year := year; Sale.units := units |} |}.

Definition price_step (modelId year : Z) (entryPrice entryPriceEur : option Q)
  : Step.t Price.t :=
  {| Step.conflict := fun r => (Price.model_id r =? modelId)%Z && (Price.year r =? year)%Z;
     Step.update := fun r =>
       {| Price.model_id := Price.model_id r; Price.year := Price.year r;
          Price.entry_price := entryPrice; Price.entry_price_eur := entryPriceEur |};
     Step.new := {| Price.model_id := modelId; Price.year := year;
                    Price.entry_price := entryPrice; Price.entry_price_eur := entryPriceEur |} |}.

Fixpoint model_steps (fresh : Z) (log : list write) : list (Step.t Model.t) :=
  match log with
  | [] => []
  | WriteModel makerId name genmodelId :: rest =>
      model_step fresh makerId name genmodelId :: model_steps (fresh + 1) rest
  | _ :: rest => model_steps fresh rest
  end.

Fixpoint sale_steps (log : list write) : list (Step.t Sale.t) :=
  match log with
  | [] => []
  | WriteSale modelId year units :: rest => sale_step modelId year units :: sale_steps rest
  | _ :: rest => sale_steps rest
  end.

Fixpoint price_steps (log : list write) : list (Step.t Price.t) :=
  match log with
  | [] => []
  | WritePrice modelId year e1 e2 :: rest => price_step modelId year e1 e2 :: price_steps rest
  | _ :: rest => price_steps rest
  end.

Definition model_good_step (s : Step.t Model.t) : Prop :=
  exists fresh makerId name genmodelId, s = model_step fresh makerId name genmodelId.

Definition sale_good_step (s : Step.t Sale.t) : Prop :=
  exists modelId year units, s = sale_step modelId year units.

Definition price_good_step (s : Step.t Price.t) : Prop :=
  exists modelId year e1 e2, s = price_step modelId year e1 e2.

(** Two databases with the same [models], [sales] and [prices] and the
    same sequence behind [models]. *)
Definition same_written (d d' : DB) : Prop :=
  models d' = models d /\ models_id_seq d' = models_id_seq d
  /\ sales d' = sales d /\ prices d' = prices d.

(** ** [seedAll]

    The steps of [seedAll] that write the five tables: [seedSales],
    [seedPrices] and [seedListings], in this order and in one process.
    ([initSchema] creates what is missing and changes nothing else; the
    last step, [seedSoldCars], writes the table [sold_cars] only.) *)
Definition seedAll (sales_file : list SalesRecord.t) (price_file : list PriceRecord.t)
  (listings_file : list ListingRecord.t) (s : Seeder) : Seeder :=
  on_db (seedListings listings_file) (seedCatalog sales_file price_file s).

(** ** The Listings page, which calls the route

    [loadPriceDeltas] sends [limit], [offset = priceDeltaPage * limit],
    the filters that are not empty and
    [sortBy = `${sortPrefix}${sortConfig.column}`], where [sortPrefix]
    is ["-"] for the direction ['desc'] and empty for ['asc']. *)
Definition sort_param (column : string) (desc : bool) : string :=
  ((if desc then "-" else "") ++ column)%string.

Definition listings_request (maker model : option string) (minPrice maxPrice : option Q)
  (limit page : Z) (column : string) (desc : bool) : Request.t :=
  {| Request.maker := or_null maker; Request.model := or_null model;
     Request.minPrice := minPrice; Request.maxPrice := maxPrice;
     Request.minDiscount := None; Request.maxDiscount := None;
     Request.limit := limit; Request.offset := page * limit;
     Request.sortBy := sort_param column desc |}.

(** The columns whose headers call [handleSort]. *)
Definition listings_columns : list string :=
  ["title"; "price_eur"; "entry_price_eur"; "price_delta"; "price_delta_percent";
   "listing_year"; "mileage_km"].

(** [handleSort] on the pair (column, descending?): the same column
    again flips the direction, another column starts ascending. *)
Definition handleSort (column : string) (sortConfig : string * bool) : string * bool :=
  if String.eqb (fst sortConfig) column then (column, negb (snd sortConfig))
  else (column, false).

(** [disabled={(priceDeltaPage + 1) * limit >= total}] of the button
    "Next". *)
Definition next_disabled (page limit total : Z) : bool :=
  (total <=? (page + 1) * limit)%Z.

(** ** The test endpoint of the price-delta route

    [/api/insights/price-delta/test] counts over
    [FROM listings l LEFT JOIN models m ON m.id = l.model_id
     LEFT JOIN LATERAL (... WHERE p2.model_id = m.id ORDER BY ... LIMIT 1) p ON true],
    the [FROM] clause of the route without [makers]. *)
Record TestCounts := {
  total_listings : Z;
  matched_models : Z;
  with_price_comparison : Z
}.

Definition test_from (d : DB) : list (Listing.t * option Model.t * option Price.t) :=
  map (fun x : Listing.t * option Model.t =>
         (x, closest_price (Listing.year (fst x)) (prices_of d (snd x))))
      (Sql.left_join
         (fun (l : Listing.t) (m : Model.t) =>
            match Listing.model_id l with
            | Some i => (Model.id m =? i)%Z
            | None => false
            end)
         (listings d) (models d)).

(** [COUNT( * )], [COUNT(DISTINCT l.model_id)] and
    [COUNT(CASE WHEN p.entry_price_eur IS NOT NULL AND l.price_eur IS NOT NULL THEN 1 END)]. *)
Definition price_delta_test (d : DB) : TestCounts :=
  let rows := test_from d in
  {| total_listings := Z.of_nat (length rows);
     matched_models :=
       Z.of_nat (length (Sql.distinct_on (fun k : Z => k)
                           (omap (fun x : Listing.t * option Model.t * option Price.t =>
                                    Listing.model_id (fst (fst x))) rows)));
     with_price_comparison :=
       Z.of_nat (length (List.filter
                           (fun x : Listing.t * option Model.t * option Price.t =>
                              bool_decide (is_Some (snd x ≫= Price.entry_price_eur))
                              && bool_decide (is_Some (Listing.price_eur (fst (fst x)))))
                           rows)) |}.

(** * Properties *)

(** ** Generic facts about the SQL layer *)

Lemma upsert_conflict {A} (conflict : A -> bool) (update : A -> A) (new : A) (rows : list A) :
  existsb conflict rows = true ->
  upsert conflict update new rows
  = map (fun a => if conflict a then update a else a) rows.
Proof. intros H. unfold upsert. now rewrite H. Qed.

Lemma upsert_fresh {A} (conflict : A -> bool) (update : A -> A) (new : A) (rows : list A) :
  existsb conflict rows = false ->
  upsert conflict update new rows = rows ++ [new].
Proof. intros H. unfold upsert. now rewrite H. Qed.

(** ** Listing re-ingestion *)

Lemma or_null_Some (a : option string) (u : string) :
  or_null a = Some u -> a = Some u.
Proof. unfold or_null. destruct (truthy a); congruence. Qed.

(** C10.  Re-ingesting a record whose url is already stored in
    [listings] rewrites the stored row where it stands: the row keeps
    its id and url, takes title, price_eur, mileage_km, year and model_id
    from the record (model_id from a fresh run of the matcher), and keeps
    its currency, location, description, images, specs, extracted_make
    and extracted_model; no row is added, and rows with another url are
    left as they are. *)
Theorem reingest_listing_frame (d : DB) (record : ListingRecord.t)
    (i : nat) (old : Listing.t) (u : string) :
  listings d !! i = Some old ->
  Listing.url old = Some u ->
  or_null (ListingRecord.url record) = Some u ->
  let d' := seedListingsRecord record d in
  (exists new,
      listings d' !! i = Some new
      /\ Listing.id new = Listing.id old
      /\ Listing.url new = Some u
      /\ Listing.title new = or_null (ListingRecord.title record)
      /\ Listing.price_eur new = ListingRecord.price_eur record
      /\ Listing.mileage_km new = ListingRecord.mileage_km record
      /\ Listing.year new = ListingRecord.year record
      /\ Listing.model_id new = match_model d (extractMakeModel (ListingRecord.title record))
      /\ Listing.currency new = Listing.currency old
      /\ Listing.location new = Listing.location old
      /\ Listing.description new = Listing.description old
      /\ Listing.images new = Listing.images old
      /\ Listing.specs new = Listing.specs old
      /\ Listing.extracted_make new = Listing.extracted_make old
      /\ Listing.extracted_model new = Listing.extracted_model old)
  /\ length (listings d') = length (listings d)
  /\ (forall j other,
         listings d !! j = Some other -> Listing.url other <> Some u ->
         listings d' !! j = Some other).
Proof.
  intros Hi Hurl Hrec d'.
  assert (Hex : existsb (same_url (Some u)) (listings d) = true).
  { apply existsb_exists. exists old. split.
    - apply list_elem_of_In. eapply list_elem_of_lookup_2; eauto.
    - unfold same_url. rewrite Hurl. apply String.eqb_refl. }
  assert (Hrows : listings d'
                  = map (fun a => if same_url (Some u) a
                                  then on_conflict_url (new_listing d record) a else a)
                        (listings d)).
  { unfold d', seedListingsRecord. cbn [listings with_listings].
    replace (Listing.url (new_listing d record)) with (Some u)
      by (symmetry; exact Hrec).
    now apply upsert_conflict. }
  split; [|split].
  - exists (on_conflict_url (new_listing d record) old).
    rewrite Hrows, list_lookup_fmap, Hi. cbn [fmap option_fmap option_map].
    unfold same_url at 1. rewrite Hurl, String.eqb_refl.
    repeat split; try reflexivity. cbn. exact Hurl.
  - rewrite Hrows. apply length_map.
  - intros j other Hj Hne. rewrite Hrows, list_lookup_fmap, Hj. cbn.
    unfold same_url. destruct (Listing.url other) as [v|] eqn:Hv; [|reflexivity].
    destruct (String.eqb_spec u v) as [->|]; [congruence|reflexivity].
Qed.

(** The stored extraction is not recomputed: the record's title would
    extract to Audi / A4 Avant, the row keeps Skoda / Octavia Combi. *)
Lemma reingest_listing_frame_witness :
  extractMakeModel (ListingRecord.title audi_record)
  = {| make := Some "Audi"; model := Some "A4 Avant" |}
  /\ exists new,
      listings (seedListingsRecord audi_record one_listing_db) !! 0%nat = Some new
      /\ Listing.title new = Some "Audi A4 Avant"
      /\ Listing.currency new = Some "EUR"
      /\ Listing.location new = Some "Lisboa"
      /\ Listing.extracted_make new = Some "Skoda"
      /\ Listing.extracted_model new = Some "Octavia Combi".
Proof.
  split; [vm_compute; reflexivity|].
  destruct (reingest_listing_frame one_listing_db audi_record 0 skoda_listing
              "https://cars.example/1" eq_refl eq_refl eq_refl)
    as [[new (H0 & _ & _ & Ht & _ & _ & _ & _ & Hc & Hl & _ & _ & _ & Hmk & Hmo)] _].
  exists new. rewrite Ht, Hc, Hl, Hmk, Hmo.
  repeat split; first [assumption | reflexivity].
Defined.

(** ** The price-delta calculator *)

Section OrderByKey.
Context {A : Type} (key : A -> Z).

Lemma head_insert_by (leb' : A -> A -> bool) (x : A) (rows : list A) :
  head (Sql.insert_by leb' x rows)
  = Some (match head rows with
          | Some z => if leb' x z then x else z
          | None => x
          end).
Proof. destruct rows as [|z zs]; cbn; [reflexivity|]. now destruct (leb' x z). Qed.

(** The first row of a stable ascending sort is the first row of the
    input that has the least key. *)
Lemma head_order_by (rows : list A) :
  rows <> [] ->
  exists before p after,
    rows = before ++ p :: after
    /\ head (Sql.order_by (fun a b => (key a <=? key b)%Z) rows) = Some p
    /\ (forall q, In q before -> (key p < key q)%Z)
    /\ (forall q, In q after -> (key p <= key q)%Z).
Proof.
  induction rows as [|x r IH]; [congruence|]. intros _.
  cbn [Sql.order_by]. rewrite head_insert_by.
  destruct r as [|y r'].
  - exists [], x, []. cbn. repeat split; intros q [].
  - destruct IH as (b & p & a & Hr & Hh & Hb & Ha); [congruence|].
    rewrite Hh.
    destruct (Z.leb_spec (key x) (key p)).
    + exists [], x, (y :: r'). cbn [app]. repeat split.
      * intros q [].
      * intros q Hq. rewrite Hr in Hq.
        apply in_app_or in Hq as [Hq|[<-|Hq]].
        -- specialize (Hb q Hq). lia.
        -- lia.
        -- specialize (Ha q Hq). lia.
    + exists (x :: b), p, a. rewrite Hr. cbn [app]. repeat split.
      * intros q [<-|Hq]; [lia|auto].
      * exact Ha.
Qed.

End OrderByKey.

Lemma closest_price_nil (listingYear : option Z) : closest_price listingYear [] = None.
Proof. reflexivity. Qed.

(** The lateral subquery returns the first row, in scan order, among the
    rows at the least distance from the listing year. *)
Lemma closest_price_first_min (listingYear : option Z) (referencePrices : list Price.t) :
  referencePrices <> [] ->
  exists before p after,
    referencePrices = before ++ p :: after
    /\ closest_price listingYear referencePrices = Some p
    /\ (forall q, In q before ->
                  (year_distance listingYear p < year_distance listingYear q)%Z)
    /\ (forall q, In q after ->
                  (year_distance listingYear p <= year_distance listingYear q)%Z).
Proof. intros H. exact (head_order_by (year_distance listingYear) referencePrices H). Qed.

(** *** [ROUND(x, 2)] *)

Lemma Qmake_100 (z : Z) : (z # 100 == inject_Z z * (1 # 100))%Q.
Proof. unfold Qeq. cbn. lia. Qed.

Lemma round2_cases (x : Q) :
  exists z : Z,
    (Sql.round2 x == inject_Z z * (1 # 100))%Q
    /\ ((0 <= x /\ inject_Z z <= x * 100 + (1 # 2) /\ x * 100 + (1 # 2) < inject_Z z + 1)
        \/ (x < 0 /\ - inject_Z z <= - (x * 100) + (1 # 2)
            /\ - (x * 100) + (1 # 2) < - inject_Z z + 1))%Q.
Proof.
  unfold Sql.round2.
  destruct (Qle_bool 0 (x * 100)) eqn:Hs.
  - apply Qle_bool_iff in Hs.
    exists (Qfloor (x * 100 + (1 # 2))). split.
    + rewrite Qred_correct. apply Qmake_100.
    + left. pose proof (Qfloor_le (x * 100 + (1 # 2))) as Hl.
      pose proof (Qlt_floor (x * 100 + (1 # 2))) as Hu.
      rewrite inject_Z_plus in Hu. change (inject_Z 1) with 1%Q in Hu.
      repeat split; [lra | exact Hl | exact Hu].
  - assert (Hneg : (x * 100 < 0)%Q).
    { apply Qnot_le_lt. intros H. apply Qle_bool_iff in H. congruence. }
    exists (- Qfloor (- (x * 100) + (1 # 2)))%Z. split.
    + rewrite Qred_correct. apply Qmake_100.
    + right. pose proof (Qfloor_le (- (x * 100) + (1 # 2))) as Hl.
      pose proof (Qlt_floor (- (x * 100) + (1 # 2))) as Hu.
      rewrite inject_Z_plus in Hu. change (inject_Z 1) with 1%Q in Hu.
      rewrite inject_Z_opp.
      repeat split; [lra | lra | lra].
Qed.

(** The rounded value is a whole number of hundredths. *)
Lemma round2_hundredths (x : Q) : exists z : Z, (Sql.round2 x == z # 100)%Q.
Proof.
  destruct (round2_cases x) as (z & Hz & _). exists z.
  now rewrite Qmake_100.
Qed.

(** It lies within half a hundredth of its argument. *)
Lemma round2_close (x : Q) : (Qabs (Sql.round2 x - x) <= 1 # 200)%Q.
Proof.
  destruct (round2_cases x) as (z & Hz & H).
  apply Qabs_Qle_condition. rewrite Hz.
  destruct H as [(H0 & Hl & Hu)|(H0 & Hl & Hu)]; split; lra.
Qed.

(** Ties go away from zero, so rounding never changes the sign. *)
Lemma round2_pos (x : Q) : (0 < Sql.round2 x -> 0 < x)%Q.
Proof.
  destruct (round2_cases x) as (z & Hz & H). rewrite Hz. intros Hp.
  destruct H as [(H0 & Hl & Hu)|(H0 & Hl & Hu)].
  - assert (Hz1 : (0 < z)%Z).
    { apply Z.lt_nge. intros Hz0. rewrite Zle_Qle in Hz0.
      change (inject_Z 0) with 0%Q in Hz0. lra. }
    assert (H1 : (1 <= inject_Z z)%Q).
    { change 1%Q with (inject_Z 1). rewrite <- Zle_Qle. lia. }
    lra.
  - exfalso.
    assert (Hz0 : (0 <= - z)%Z).
    { apply Z.le_ngt. intros Hlt.
      assert (H1 : (inject_Z 1 <= inject_Z z)%Q) by (rewrite <- Zle_Qle; lia).
      change (inject_Z 1) with 1%Q in H1. lra. }
    rewrite Zle_Qle, inject_Z_opp in Hz0.
    change (inject_Z 0) with 0%Q in Hz0. lra.
Qed.

Lemma round2_neg (x : Q) : (Sql.round2 x < 0 -> x < 0)%Q.
Proof.
  destruct (round2_cases x) as (z & Hz & H). rewrite Hz. intros Hp.
  destruct H as [(H0 & Hl & Hu)|(H0 & Hl & Hu)]; [|assumption].
  exfalso.
  assert (Hz0 : (0 <= z)%Z).
  { apply Z.le_ngt. intros Hlt.
    assert (H1 : (inject_Z z <= inject_Z (- 1))%Q) by (rewrite <- Zle_Qle; lia).
    change (inject_Z (- 1)) with (- (1))%Q in H1. lra. }
  rewrite Zle_Qle in Hz0. change (inject_Z 0) with 0%Q in Hz0. lra.
Qed.

(** *** [computeDelta] *)

Lemma Qdiv_pos_sign (a b : Q) : (0 < b -> 0 < a / b -> 0 < a)%Q.
Proof.
  intros Hb Hq.
  assert (H : (b * (a / b) == a)%Q) by (apply Qmult_div_r; lra).
  nra.
Qed.

Lemma Qdiv_neg_sign (a b : Q) : (0 < b -> a / b < 0 -> a < 0)%Q.
Proof.
  intros Hb Hq.
  assert (H : (b * (a / b) == a)%Q) by (apply Qmult_div_r; lra).
  nra.
Qed.

(** What [computeDelta] returns when both prices are there and the
    reference price is not zero. *)
Lemma computeDelta_value (price ref : Q) (listingYear : option Z)
    (referencePrices : list Price.t) (p : Price.t) :
  closest_price listingYear referencePrices = Some p ->
  Price.entry_price_eur p = Some ref ->
  ~ (ref == 0)%Q ->
  computeDelta (Some price) listingYear referencePrices
  = Ok (Some {| referencePrice := ref; referenceYear := Price.year p;
                delta := (ref - price)%Q;
                deltaPercent := Sql.round2 ((ref - price) / ref * 100)%Q |}).
Proof.
  intros Hp Href Hnz. unfold computeDelta. rewrite Hp. cbn. rewrite Href. cbn.
  unfold discount_percent. cbn.
  destruct (Qeq_bool ref 0) eqn:Hz.
  - apply Qeq_bool_iff in Hz. contradiction.
  - reflexivity.
Qed.

(** Reading a result back: the inputs it came from. *)
Lemma computeDelta_Some (listingPrice : option Q) (listingYear : option Z)
    (referencePrices : list Price.t) (r : Delta) :
  computeDelta listingPrice listingYear referencePrices = Ok (Some r) ->
  exists price p,
    listingPrice = Some price
    /\ closest_price listingYear referencePrices = Some p
    /\ Price.entry_price_eur p = Some (referencePrice r)
    /\ ~ (referencePrice r == 0)%Q
    /\ referenceYear r = Price.year p
    /\ delta r = (referencePrice r - price)%Q
    /\ deltaPercent r = Sql.round2 (delta r / referencePrice r * 100)%Q.
Proof.
  unfold computeDelta.
  destruct (closest_price listingYear referencePrices) as [p|]; cbn; [|discriminate].
  destruct (Price.entry_price_eur p) as [ref|] eqn:Href; cbn; [|discriminate].
  destruct listingPrice as [price|]; cbn; [|discriminate].
  unfold discount_percent. cbn.
  destruct (Qeq_bool ref 0) eqn:Hz; cbn; [discriminate|].
  intros [= <-]. cbn. exists price, p.
  repeat split; try reflexivity; [exact Href | now apply Qeq_bool_neq].
Qed.

(** C1, as the code has it.  [computeDelta] returns "no result", and
    raises nothing, when there are no reference prices, when the listing
    price is null and when the selected reference price is null.  A
    listing price that is zero or negative is not singled out: whatever
    the listing price, a selected reference price that is neither null
    nor zero gives a result, with delta = reference price - listing
    price. *)
Theorem computeDelta_null_cases (listingPrice : option Q) (listingYear : option Z)
    (referencePrices : list Price.t) :
  (referencePrices = [] ->
   computeDelta listingPrice listingYear referencePrices = Ok None)
  /\ (listingPrice = None ->
      computeDelta listingPrice listingYear referencePrices = Ok None)
  /\ (closest_price listingYear referencePrices ≫= Price.entry_price_eur = None ->
      computeDelta listingPrice listingYear referencePrices = Ok None)
  /\ (forall price ref,
         listingPrice = Some price ->
         closest_price listingYear referencePrices ≫= Price.entry_price_eur = Some ref ->
         ~ (ref == 0)%Q ->
         exists r,
           computeDelta listingPrice listingYear referencePrices = Ok (Some r)
           /\ referencePrice r = ref
           /\ delta r = (ref - price)%Q).
Proof.
  repeat split.
  - intros ->. reflexivity.
  - intros ->. unfold computeDelta.
    now destruct (bool_decide _).
  - intros H. unfold computeDelta. rewrite H. reflexivity.
  - intros price ref -> Href Hnz.
    destruct (closest_price listingYear referencePrices) as [p|] eqn:Hp;
      cbn in Href; [|discriminate].
    eexists. split; [|split].
    + eapply computeDelta_value; eauto.
    + reflexivity.
    + reflexivity.
Qed.

Lemma computeDelta_null_cases_witness :
  computeDelta (Some 0%Q) (Some 2015%Z) [] = Ok None
  /\ computeDelta None (Some 2015%Z) [price_point 2014 20000] = Ok None
  /\ exists r,
      computeDelta (Some (-500)%Q) (Some 2015%Z) [price_point 2014 20000] = Ok (Some r)
      /\ referencePrice r = 20000%Q
      /\ delta r = (20000 - -500)%Q.
Proof.
  destruct (computeDelta_null_cases (Some 0%Q) (Some 2015%Z) []) as (H1 & _).
  destruct (computeDelta_null_cases None (Some 2015%Z) [price_point 2014 20000])
    as (_ & H2 & _).
  destruct (computeDelta_null_cases (Some (-500)%Q) (Some 2015%Z)
              [price_point 2014 20000]) as (_ & _ & _ & H4).
  split; [exact (H1 eq_refl)|]. split; [exact (H2 eq_refl)|].
  apply (H4 (-500)%Q 20000%Q eq_refl eq_refl).
  intros H. vm_compute in H. discriminate.
Defined.

(** The claim as the specification words it fails twice: a listing price
    of zero is computed like any other price, and a reference price of
    zero makes the division of the statement raise. *)
Lemma computeDelta_degenerate_counterexample :
  (degenerate (Some 0%Q) (Some 2015%Z) [price_point 2014 20000]
   /\ computeDelta (Some 0%Q) (Some 2015%Z) [price_point 2014 20000]
      = Ok (Some {| referencePrice := 20000; referenceYear := 2014;
                    delta := 20000; deltaPercent := 100 |})
   /\ computeDelta (Some 0%Q) (Some 2015%Z) [price_point 2014 20000] <> Ok None)
  /\ (degenerate (Some 18000%Q) (Some 2015%Z) [price_point 2014 0]
      /\ computeDelta (Some 18000%Q) (Some 2015%Z) [price_point 2014 0]
         = Err DivisionByZero
      /\ computeDelta (Some 18000%Q) (Some 2015%Z) [price_point 2014 0] <> Ok None).
Proof.
  split; (split; [|split]).
  - right. right. left. exists 0%Q. split; [reflexivity|]. apply Qle_refl.
  - vm_compute. reflexivity.
  - vm_compute. discriminate.
  - right. right. right. right. exists 0%Q. split; [reflexivity|]. reflexivity.
  - vm_compute. reflexivity.
  - vm_compute. discriminate.
Qed.

(** C2, as the code has it.  For a non-empty list of price points the
    selected point is at the least distance from the listing year, a
    missing year counting as 0; among the points at that distance it is
    the one that comes first in the list (the statement has no second
    sort key), so with distinct distances the choice does not depend on
    the order.  When the year is missing and no year is negative, the
    least year is selected.  The example of the specification, with the
    2014 point first, selects 2014. *)
Theorem closest_price_selection :
  (forall (listingYear : option Z) (referencePrices : list Price.t),
      referencePrices <> [] ->
      exists before p after,
        referencePrices = before ++ p :: after
        /\ closest_price listingYear referencePrices = Some p
        /\ (forall q, In q referencePrices ->
                      (Z.abs (Price.year p - default 0 listingYear)
                       <= Z.abs (Price.year q - default 0 listingYear))%Z)
        /\ (forall q, In q before ->
                      (Z.abs (Price.year p - default 0 listingYear)
                       < Z.abs (Price.year q - default 0 listingYear))%Z)
        /\ (listingYear = None ->
            (forall q, In q referencePrices -> (0 <= Price.year q)%Z) ->
            forall q, In q referencePrices -> (Price.year p <= Price.year q)%Z))
  /\ computeDelta (Some 18000%Q) (Some 2015%Z)
       [price_point 2014 20000; price_point 2016 22000]
     = Ok (Some {| referencePrice := 20000; referenceYear := 2014;
                   delta := 2000; deltaPercent := 10 |}).
Proof.
  split; [|vm_compute; reflexivity].
  intros listingYear referencePrices Hne.
  destruct (closest_price_first_min listingYear referencePrices Hne)
    as (b & p & a & Hr & Hp & Hb & Ha).
  unfold year_distance in Hb, Ha.
  assert (Hall : forall q, In q referencePrices ->
                           (Z.abs (Price.year p - default 0 listingYear)
                            <= Z.abs (Price.year q - default 0 listingYear))%Z).
  { intros q Hq. rewrite Hr in Hq. apply in_app_or in Hq as [Hq|[<-|Hq]].
    - specialize (Hb q Hq). lia.
    - lia.
    - exact (Ha q Hq). }
  exists b, p, a. repeat split; try assumption.
  intros -> Hpos q Hq. cbn in Hall.
  assert (Hpin : In p referencePrices).
  { rewrite Hr. apply in_or_app. right. now left. }
  pose proof (Hall q Hq). pose proof (Hpos q Hq). pose proof (Hpos p Hpin). lia.
Qed.

Lemma closest_price_selection_witness :
  exists p,
    closest_price None [price_point 2016 22000; price_point 2014 20000] = Some p
    /\ (Price.year p <= 2016)%Z /\ (Price.year p <= 2014)%Z.
Proof.
  destruct closest_price_selection as (H & _).
  destruct (H None [price_point 2016 22000; price_point 2014 20000])
    as (b & p & a & _ & Hp & _ & _ & Hleast); [discriminate|].
  exists p. split; [exact Hp|].
  assert (Hpos : forall q, In q [price_point 2016 22000; price_point 2014 20000] ->
                           (0 <= Price.year q)%Z).
  { intros q [<-|[<-|[]]]; cbn; lia. }
  split.
  - apply (Hleast eq_refl Hpos (price_point 2016 22000)). now left.
  - apply (Hleast eq_refl Hpos (price_point 2014 20000)). right. now left.
Defined.

(** The tie-break of the specification is not in the statement: with the
    2016 point stored before the 2014 point, the 2016 point is selected,
    although the 2014 point is as close and earlier.  And when the year
    is unknown it is the year closest to 0 that is selected, which is
    the smallest year only if no year is negative. *)
Lemma earliest_closest_counterexample :
  closest_price (Some 2015%Z) [price_point 2016 22000; price_point 2014 20000]
  = Some (price_point 2016 22000)
  /\ ~ earliest_closest (Some 2015%Z) [price_point 2016 22000; price_point 2014 20000]
         (price_point 2016 22000)
  /\ computeDelta (Some 18000%Q) (Some 2015%Z)
       [price_point 2016 22000; price_point 2014 20000]
     = Ok (Some {| referencePrice := 22000; referenceYear := 2016;
                   delta := 4000; deltaPercent := 909 # 50 |})
  /\ closest_price None [price_point (-5) 22000; price_point 3 20000]
     = Some (price_point 3 20000).
Proof.
  split; [reflexivity|]. split; [|split; vm_compute; reflexivity].
  intros (_ & _ & H).
  specialize (H (price_point 2014 20000)). cbn in H.
  assert (2016 <= 2014)%Z; [|lia].
  apply H; [right; now left | reflexivity].
Qed.



(** ** The route: filtering, counting, ordering and paging *)

(** *** Lists in the result monad *)

Lemma bind_Ok {A B} (r : result A) (f : A -> result B) (b : B) :
  (r ≫= f) = Ok b -> exists a, r = Ok a /\ f a = Ok b.
Proof. destruct r as [a|e]; cbn; [eauto | discriminate]. Qed.

Lemma filterM_Ok {A} (f : A -> result bool) (rows kept : list A) :
  Sql.filterM f rows = Ok kept ->
  Forall (fun a => exists b, f a = Ok b) rows
  /\ kept = List.filter (fun a => match f a with Ok true => true | _ => false end) rows.
Proof.
  revert kept. induction rows as [|a r IH]; cbn; intros kept H.
  - injection H as <-. split; [constructor | reflexivity].
  - apply bind_Ok in H as (keep & Hf & H).
    apply bind_Ok in H as (rest & Hr & H). injection H as <-.
    destruct (IH rest Hr) as (Hall & ->). split.
    + constructor; eauto.
    + rewrite Hf. now destruct keep.
Qed.

Lemma filterM_In {A} (f : A -> result bool) (rows kept : list A) (a : A) :
  Sql.filterM f rows = Ok kept ->
  In a kept <-> In a rows /\ f a = Ok true.
Proof.
  intros H. apply filterM_Ok in H as (_ & ->).
  rewrite filter_In. split; intros (Hin & Hf); split; try assumption.
  - destruct (f a) as [[]|]; congruence.
  - now rewrite Hf.
Qed.

Lemma mapM_Ok {A B} (f : A -> result B) (rows : list A) (out : list B) :
  mapM f rows = Ok out -> Forall2 (fun a b => f a = Ok b) rows out.
Proof.
  revert out. induction rows as [|a r IH]; cbn; intros out H.
  - injection H as <-. constructor.
  - apply bind_Ok in H as (b & Hf & H).
    apply bind_Ok in H as (bs & Hr & H). injection H as <-.
    constructor; auto.
Qed.

Lemma Forall2_right_In {A B} (R : A -> B -> Prop) (la : list A) (lb : list B) (b : B) :
  Forall2 R la lb -> In b lb -> exists a, In a la /\ R a b.
Proof.
  induction 1 as [|a0 b0 la lb H0 _ IH]; cbn; [tauto|].
  intros [<-|Hb]; [exists a0; auto|].
  destruct (IH Hb) as (a & Ha & Hab). exists a. auto.
Qed.

Lemma Forall2_left_In {A B} (R : A -> B -> Prop) (la : list A) (lb : list B) (a : A) :
  Forall2 R la lb -> In a la -> exists b, In b lb /\ R a b.
Proof.
  induction 1 as [|a0 b0 la lb H0 _ IH]; cbn; [tauto|].
  intros [<-|Ha]; [exists b0; auto|].
  destruct (IH Ha) as (b & Hb & Hab). exists b. auto.
Qed.

Lemma Forall2_map_eq {A B C} (f : A -> C) (g : B -> C) (R : A -> B -> Prop)
    (la : list A) (lb : list B) :
  (forall a b, R a b -> f a = g b) -> Forall2 R la lb -> map f la = map g lb.
Proof.
  intros Hfg. induction 1; cbn; [reflexivity|]. f_equal; auto.
Qed.

Lemma where_all_true {A} (conds : list (A -> result (option bool))) (row : A) :
  Sql.where_all conds row = Ok true ->
  forall c, In c conds -> c row = Ok (Some true).
Proof.
  induction conds as [|c0 cs IH]; cbn; intros H c Hc; [contradiction|].
  apply bind_Ok in H as (v & Hv & H).
  destruct v as [[]|]; try discriminate.
  destruct Hc as [<-|Hc]; [exact Hv | now apply IH].
Qed.

(** *** [ORDER BY] *)

Lemma insert_by_perm {A} (leb : A -> A -> bool) (x : A) (rows : list A) :
  Permutation (Sql.insert_by leb x rows) (x :: rows).
Proof.
  induction rows as [|y r IH]; cbn; [reflexivity|].
  destruct (leb x y); [reflexivity|].
  rewrite IH. apply perm_swap.
Qed.

Lemma order_by_perm {A} (leb : A -> A -> bool) (rows : list A) :
  Permutation (Sql.order_by leb rows) rows.
Proof.
  induction rows as [|x r IH]; cbn; [reflexivity|].
  rewrite insert_by_perm. now constructor.
Qed.

Section Ordered.
Context {A : Type} (leb : A -> A -> bool).
Hypothesis leb_total : forall a b, leb a b = false -> leb b a = true.
Hypothesis leb_trans : forall a b c, leb a b = true -> leb b c = true -> leb a c = true.

Lemma insert_by_sorted (x : A) (rows : list A) :
  StronglySorted (fun a b => leb a b = true) rows ->
  StronglySorted (fun a b => leb a b = true) (Sql.insert_by leb x rows).
Proof.
  induction 1 as [|y r Hs IH Hy]; cbn.
  - repeat constructor.
  - destruct (leb x y) eqn:Hxy.
    + constructor; [now constructor|].
      constructor; [exact Hxy|].
      eapply List.Forall_impl; [|exact Hy]. intros z Hz. cbv beta in *. eauto.
    + constructor; [exact IH|].
      eapply Permutation_Forall.
      * symmetry. apply insert_by_perm.
      * constructor; [now apply leb_total | exact Hy].
Qed.

Lemma order_by_sorted (rows : list A) :
  StronglySorted (fun a b => leb a b = true) (Sql.order_by leb rows).
Proof.
  induction rows as [|x r IH]; cbn; [constructor | now apply insert_by_sorted].
Qed.

End Ordered.

Lemma in_firstn {A} (n : nat) (rows : list A) (x : A) :
  In x (firstn n rows) -> In x rows.
Proof.
  intros H. rewrite <- (firstn_skipn n rows). apply in_or_app. now left.
Qed.

Lemma in_skipn {A} (n : nat) (rows : list A) (x : A) :
  In x (skipn n rows) -> In x rows.
Proof.
  intros H. rewrite <- (firstn_skipn n rows). apply in_or_app. now right.
Qed.

Lemma StronglySorted_skipn {A} (R : A -> A -> Prop) (n : nat) (rows : list A) :
  StronglySorted R rows -> StronglySorted R (skipn n rows).
Proof.
  revert rows. induction n as [|n IH]; intros rows H; [exact H|].
  destruct H; cbn; [constructor | now apply IH].
Qed.

Lemma StronglySorted_firstn {A} (R : A -> A -> Prop) (n : nat) (rows : list A) :
  StronglySorted R rows -> StronglySorted R (firstn n rows).
Proof.
  revert rows. induction n as [|n IH]; intros rows H; [constructor|].
  destruct H as [|x r Hs Hx]; cbn; [constructor|].
  constructor; [now apply IH|].
  apply List.Forall_forall. intros y Hy. apply (proj1 (List.Forall_forall _ _) Hx).
  eapply in_firstn; eauto.
Qed.

(** *** [DISTINCT ON] *)

Lemma filter_all {A} (f : A -> bool) (rows : list A) :
  (forall x, In x rows -> f x = true) -> List.filter f rows = rows.
Proof.
  induction rows as [|x r IH]; cbn; intros H; [reflexivity|].
  rewrite (H x (or_introl eq_refl)). f_equal. apply IH. intros y Hy. apply H. now right.
Qed.

Lemma map_filter_comm {A B} (f : A -> B) (g : B -> bool) (rows : list A) :
  map f (List.filter (fun x => g (f x)) rows) = List.filter g (map f rows).
Proof.
  induction rows as [|x r IH]; cbn; [reflexivity|].
  destruct (g (f x)); cbn; now rewrite IH.
Qed.

Lemma NoDup_map_filter {A B} (f : A -> B) (g : A -> bool) (rows : list A) :
  List.NoDup (map f rows) -> List.NoDup (map f (List.filter g rows)).
Proof.
  induction rows as [|x r IH]; cbn; intros H; [constructor|].
  inversion H as [|? ? Hx Hr]; subst.
  destruct (g x); cbn; [|now apply IH].
  constructor; [|now apply IH].
  intros Hin. apply Hx. apply in_map_iff in Hin as (y & <- & Hy).
  apply in_map. now apply filter_In in Hy.
Qed.

Section DistinctOn.
Context {A : Type} (key : A -> Z).

Lemma distinct_on_In (rows : list A) (x : A) :
  In x (Sql.distinct_on key rows) -> In x rows.
Proof.
  induction rows as [|y r IH]; cbn; [tauto|].
  intros [->|H]; [now left|]. right. apply IH. now apply filter_In in H.
Qed.

Lemma distinct_on_keys (rows : list A) (k : Z) :
  In k (map key (Sql.distinct_on key rows)) <-> In k (map key rows).
Proof.
  induction rows as [|y r IH]; cbn; [tauto|].
  rewrite <- IH. split.
  - intros [H|H]; [now left|]. right.
    apply in_map_iff in H as (z & <- & Hz). apply filter_In in Hz as (Hz & _).
    now apply in_map.
  - intros [H|H]; [now left|].
    destruct (Z.eq_dec k (key y)) as [->|Hne]; [now left|]. right.
    apply in_map_iff in H as (z & <- & Hz). apply in_map. apply filter_In.
    split; [exact Hz|]. apply negb_true_iff, Z.eqb_neq. exact Hne.
Qed.

Lemma distinct_on_NoDup (rows : list A) :
  List.NoDup (map key (Sql.distinct_on key rows)).
Proof.
  induction rows as [|y r IH]; cbn; [constructor|].
  constructor; [|now apply NoDup_map_filter].
  intros H. apply in_map_iff in H as (z & Hk & Hz).
  apply filter_In in Hz as (_ & Hz). apply negb_true_iff, Z.eqb_neq in Hz. congruence.
Qed.

Lemma distinct_on_map (rows : list A) :
  map key (Sql.distinct_on key rows) = Sql.distinct_on (fun k => k) (map key rows).
Proof.
  induction rows as [|y r IH]; cbn; [reflexivity|].
  f_equal. rewrite <- IH.
  exact (map_filter_comm key (fun k => negb (k =? key y)%Z) (Sql.distinct_on key r)).
Qed.

End DistinctOn.

(** *** [LEFT JOIN] and the [FROM] clause *)

Lemma left_join_In {A B} (on : A -> B -> bool) (left : list A) (right : list B)
    (a : A) (ob : option B) :
  In (a, ob) (Sql.left_join on left right) ->
  In a left
  /\ match ob with
     | Some b => In b right /\ on a b = true
     | None => forall b, In b right -> on a b = false
     end.
Proof.
  unfold Sql.left_join. rewrite in_flat_map. intros (a' & Ha & H).
  destruct (List.filter (on a') right) as [|b0 bs] eqn:Hf.
  - destruct H as [[= <- <-]|[]]. split; [exact Ha|].
    intros b Hb. destruct (on a' b) eqn:Hon; [|reflexivity].
    assert (In b (List.filter (on a') right)) by (apply filter_In; auto).
    rewrite Hf in H. contradiction.
  - apply in_map_iff in H as (b & [= <- <-] & Hb). split; [exact Ha|].
    rewrite <- Hf in Hb. now apply filter_In in Hb.
Qed.

(** Every row of the [FROM] clause is a stored listing, joined to the
    model its [model_id] names and to the price row the lateral subquery
    selects among that model's prices. *)
Lemma from_clause_In (d : DB) (j : Joined.t) :
  In j (from_clause d) ->
  In (Joined.l j) (listings d)
  /\ match Joined.m j with
     | Some m => In m (models d) /\ Listing.model_id (Joined.l j) = Some (Model.id m)
     | None => True
     end
  /\ Joined.p j = closest_price (Listing.year (Joined.l j)) (prices_of d (Joined.m j)).
Proof.
  unfold from_clause. rewrite in_map_iff. intros ([[l0 m0] mk0] & <- & H). cbn.
  apply left_join_In in H as (H & _).
  apply left_join_In in H as (Hl & Hm).
  split; [exact Hl|]. split; [|reflexivity].
  destruct m0 as [m0|]; [|exact I].
  destruct Hm as (Hm & Hon). split; [exact Hm|].
  destruct (Listing.model_id l0) as [i|]; [|discriminate].
  apply Z.eqb_eq in Hon. now subst.
Qed.

(** *** Rows that pass the [WHERE] clause *)

Lemma filters_not_null (r : Request.t) (j : Joined.t) :
  Sql.where_all (filters r) j = Ok true ->
  is_Some (reference_price j) /\ is_Some (Listing.price_eur (Joined.l j)).
Proof.
  intros H. pose proof (where_all_true _ _ H) as Hall. split.
  - specialize (Hall (fun j => Ok (Sql.is_not_null (reference_price j)))).
    cbn in Hall. unfold Sql.is_not_null in Hall.
    assert (Hin : In (fun j : Joined.t => Ok (Some (bool_decide (is_Some (reference_price j)))))
                     (filters r)).
    { unfold filters. repeat (apply in_or_app; right). now left. }
    specialize (Hall Hin). injection Hall as Hall.
    now apply bool_decide_eq_true in Hall.
  - specialize (Hall (fun j => Ok (Sql.is_not_null (Listing.price_eur (Joined.l j))))).
    cbn in Hall. unfold Sql.is_not_null in Hall.
    assert (Hin : In (fun j : Joined.t =>
                        Ok (Some (bool_decide (is_Some (Listing.price_eur (Joined.l j))))))
                     (filters r)).
    { unfold filters. repeat (apply in_or_app; right). right. now left. }
    specialize (Hall Hin). injection Hall as Hall.
    now apply bool_decide_eq_true in Hall.
Qed.

(** The [SELECT] list on a row with both prices. *)
Lemma select_row_Ok (j : Joined.t) (x : PriceMatch.t) (ref price : Q) :
  reference_price j = Some ref ->
  Listing.price_eur (Joined.l j) = Some price ->
  select_row j = Ok x ->
  ~ (ref == 0)%Q
  /\ PriceMatch.id x = Listing.id (Joined.l j)
  /\ PriceMatch.listing_price x = Some price
  /\ PriceMatch.original_price x = Some ref
  /\ PriceMatch.original_year x = option_map Price.year (Joined.p j)
  /\ PriceMatch.price_delta x = Some (ref - price)%Q
  /\ PriceMatch.price_delta_percent x = Some (Sql.round2 ((ref - price) / ref * 100))%Q.
Proof.
  intros Href Hprice. unfold select_row, discount_percent. rewrite Href, Hprice. cbn.
  destruct (Qeq_bool ref 0) eqn:Hz; cbn; [discriminate|].
  intros [= <-]. cbn.
  repeat split; try reflexivity. now apply Qeq_bool_neq.
Qed.

(** *** The comparison of [ORDER BY] is a total preorder *)

Lemma Qleb_total (a b : Q) : Qleb a b = false -> Qleb b a = true.
Proof.
  unfold Qleb. intros H. apply Qle_bool_iff.
  destruct (Qlt_le_dec b a) as [Hlt|Hle]; [now apply Qlt_le_weak|].
  apply Qle_bool_iff in Hle. congruence.
Qed.

Lemma Qleb_trans (a b c : Q) : Qleb a b = true -> Qleb b c = true -> Qleb a c = true.
Proof.
  unfold Qleb. rewrite !Qle_bool_iff. apply Qle_trans.
Qed.

Lemma Zleb_total (a b : Z) : (a <=? b)%Z = false -> (b <=? a)%Z = true.
Proof. rewrite Z.leb_gt, Z.leb_le. lia. Qed.

Lemma Zleb_trans (a b c : Z) :
  (a <=? b)%Z = true -> (b <=? c)%Z = true -> (a <=? c)%Z = true.
Proof. rewrite !Z.leb_le. lia. Qed.

Lemma Sleb_total (a b : string) : String.leb a b = false -> String.leb b a = true.
Proof. intros H. destruct (String.leb_total a b); congruence. Qed.

Lemma Sleb_trans (a b c : string) :
  String.leb a b = true -> String.leb b c = true -> String.leb a c = true.
Proof.
  intros H1 H2. apply Is_true_true.
  change (String.le a c). transitivity b; apply Is_true_true; assumption.
Qed.

Section KeyOrder.
Context {A : Type} (leb : A -> A -> bool).
Hypothesis leb_total : forall a b, leb a b = false -> leb b a = true.
Hypothesis leb_trans : forall a b c, leb a b = true -> leb b c = true -> leb a c = true.

Lemma key_leb_total (desc : bool) (a b : option A) :
  Sql.key_leb leb desc a b = false -> Sql.key_leb leb desc b a = true.
Proof. destruct a, b, desc; cbn; auto; discriminate. Qed.

Lemma key_leb_trans (desc : bool) (a b c : option A) :
  Sql.key_leb leb desc a b = true -> Sql.key_leb leb desc b c = true ->
  Sql.key_leb leb desc a c = true.
Proof. destruct a, b, c, desc; cbn; eauto; discriminate. Qed.

End KeyOrder.

Lemma row_leb_total (c : Column.t) (desc : bool) (a b : PriceMatch.t) :
  row_leb c desc a b = false -> row_leb c desc b a = true.
Proof.
  destruct c; cbn;
    first [ apply (key_leb_total Qleb Qleb_total)
          | apply (key_leb_total Z.leb Zleb_total)
          | apply (key_leb_total String.leb Sleb_total) ].
Qed.

Lemma row_leb_trans (c : Column.t) (desc : bool) (x y z : PriceMatch.t) :
  row_leb c desc x y = true -> row_leb c desc y z = true -> row_leb c desc x z = true.
Proof.
  destruct c; cbn;
    first [ apply (key_leb_trans Qleb Qleb_trans)
          | apply (key_leb_trans Z.leb Zleb_trans)
          | apply (key_leb_trans String.leb Sleb_trans) ].
Qed.

(** *** The two statements of the route, taken apart *)

(** What a successful main statement went through. *)
Lemma ordered_matches_Ok (d : DB) (r : Request.t) (full : list PriceMatch.t) :
  ordered_matches d r = Ok full ->
  exists c kept rows,
    orderBy (Request.sortBy r) = Ok c
    /\ Sql.filterM (Sql.where_all (filters r)) (from_clause d) = Ok kept
    /\ mapM select_row kept = Ok rows
    /\ full = Sql.order_by (row_leb c (sortOrder (Request.sortBy r)))
                (Sql.distinct_on PriceMatch.id rows).
Proof.
  unfold ordered_matches, price_matches. intros H.
  apply bind_Ok in H as (c & Hc & H).
  apply bind_Ok in H as (rows0 & H0 & H). injection H as <-.
  apply bind_Ok in H0 as (kept & Hk & H0).
  apply bind_Ok in H0 as (rows & Hr & H0). injection H0 as <-.
  exists c, kept, rows. repeat split; try assumption.
  f_equal. apply filter_all. intros x Hx.
  apply distinct_on_In in Hx.
  pose proof (mapM_Ok _ _ _ Hr) as Hall.
  destruct (Forall2_right_In _ _ _ _ Hall Hx) as (j & Hj & Hsel).
  apply (filterM_In _ _ _ j Hk) in Hj as (_ & Hw).
  destruct (filters_not_null _ _ Hw) as ([ref Href] & [price Hprice]).
  destruct (select_row_Ok _ _ _ _ Href Hprice Hsel) as (_ & _ & _ & _ & _ & _ & ->).
  reflexivity.
Qed.

(** *** Paging *)

(** Read in pages of [size] rows, a list is the concatenation of its
    pages. *)
Lemma pages_concat {A} (size n : nat) (rows : list A) :
  0 < size -> length rows <= n * size ->
  concat (map (fun k => firstn size (skipn (k * size) rows)) (seq 0 n)) = rows.
Proof.
  intros Hsize. revert rows. induction n as [|n IH]; intros rows Hlen.
  - destruct rows; [reflexivity | cbn in Hlen; lia].
  - cbn [seq map concat]. rewrite <- seq_shift, map_map.
    rewrite Nat.mul_0_l. cbn [skipn].
    etransitivity; [|apply (firstn_skipn size rows)]. f_equal.
    etransitivity; [|apply (IH (skipn size rows)); rewrite length_skipn; lia].
    f_equal. apply map_ext. intros k. rewrite skipn_skipn. do 2 f_equal. lia.
Qed.

(** Rows on different pages stand at different positions. *)
Lemma pages_disjoint {A B} (f : A -> B) (size k1 k2 : nat) (rows : list A) (x1 x2 : A) :
  List.NoDup (map f rows) -> k1 <> k2 ->
  In x1 (firstn size (skipn (k1 * size) rows)) ->
  In x2 (firstn size (skipn (k2 * size) rows)) ->
  f x1 <> f x2.
Proof.
  intros Hnd Hk H1 H2 Heq.
  apply list_elem_of_In, list_elem_of_lookup in H1 as (i1 & H1).
  apply list_elem_of_In, list_elem_of_lookup in H2 as (i2 & H2).
  apply lookup_take_Some in H1 as (H1 & Hi1).
  apply lookup_take_Some in H2 as (H2 & Hi2).
  rewrite lookup_drop in H1, H2.
  apply NoDup_ListNoDup in Hnd.
  assert (E1 : map f rows !! (k1 * size + i1)%nat = Some (f x1))
    by (rewrite list_lookup_fmap, H1; reflexivity).
  assert (E2 : map f rows !! (k2 * size + i2)%nat = Some (f x1))
    by (rewrite list_lookup_fmap, H2, Heq; reflexivity).
  pose proof (NoDup_lookup _ _ _ _ Hnd E1 E2) as Hpos.
  apply Hk. nia.
Qed.

(** *** The total and the pages *)

Lemma countQuery_Ok (d : DB) (r : Request.t) (n : Z) :
  countQuery d r = Ok n ->
  exists kept,
    Sql.filterM (Sql.where_all (filters r)) (from_clause d) = Ok kept
    /\ n = Z.of_nat (length (Sql.distinct_on (fun k => k)
                               (map (fun j => Listing.id (Joined.l j)) kept))).
Proof.
  unfold countQuery. intros H.
  apply bind_Ok in H as (kept & Hk & H). injection H as <-.
  exists kept. split; [exact Hk|]. f_equal.
  rewrite filter_all.
  - rewrite <- (length_map (fun x : Z * option Q * option Q => fst (fst x))).
    rewrite distinct_on_map, map_map. reflexivity.
  - intros [[i ref] price] Hx. apply distinct_on_In in Hx.
    apply in_map_iff in Hx as (j & [= <- <- <-] & Hj).
    apply (filterM_In _ _ _ j Hk) in Hj as (_ & Hw).
    destruct (filters_not_null _ _ Hw) as (Href & Hprice). cbn.
    apply andb_true_iff. split; now apply bool_decide_eq_true.
Qed.

Lemma ordered_matches_page (d : DB) (r : Request.t) (limit offset : Z) :
  ordered_matches d (with_page r limit offset) = ordered_matches d r.
Proof. reflexivity. Qed.

Lemma countQuery_page (d : DB) (r : Request.t) (limit offset : Z) :
  countQuery d (with_page r limit offset) = countQuery d r.
Proof. reflexivity. Qed.

Lemma limit_offset_Ok {A} (n k : Z) (rows : list A) :
  (0 <= n)%Z -> (0 <= k)%Z ->
  Sql.limit_offset n k rows = Ok (firstn (Z.to_nat n) (skipn (Z.to_nat k) rows)).
Proof.
  intros Hn Hk. unfold Sql.limit_offset.
  destruct (Z.ltb_spec n 0); [lia|]. destruct (Z.ltb_spec k 0); [lia|]. reflexivity.
Qed.



(** *** Rows of the route and [computeDelta] *)

Lemma ordered_matches_In (d : DB) (r : Request.t) (full : list PriceMatch.t) (x : PriceMatch.t) :
  ordered_matches d r = Ok full -> In x full ->
  exists j ref price,
    In j (from_clause d)
    /\ Sql.where_all (filters r) j = Ok true
    /\ select_row j = Ok x
    /\ reference_price j = Some ref
    /\ Listing.price_eur (Joined.l j) = Some price.
Proof.
  intros Hfull Hx.
  destruct (ordered_matches_Ok _ _ _ Hfull) as (c & kept & rows & _ & Hk & Hsel & ->).
  apply (Permutation_in _ (order_by_perm _ _)) in Hx. apply distinct_on_In in Hx.
  destruct (Forall2_right_In _ _ _ _ (mapM_Ok _ _ _ Hsel) Hx) as (j & Hj & Hjx).
  apply (filterM_In _ _ _ j Hk) in Hj as (Hj & Hw).
  destruct (filters_not_null _ _ Hw) as ([ref Href] & [price Hprice]).
  exists j, ref, price. auto.
Qed.

(** Every row the route returns is a stored listing with a reconciled
    model, and its four price columns are what [computeDelta] gives for
    the listing's price and year and the price rows of that model. *)
Lemma route_row_computeDelta (d : DB) (r : Request.t) (full : list PriceMatch.t) (x : PriceMatch.t) :
  ordered_matches d r = Ok full -> In x full ->
  exists (l : Listing.t) (m : Model.t) (res : Delta),
    In l (listings d) /\ PriceMatch.id x = Listing.id l
    /\ In m (models d) /\ Listing.model_id l = Some (Model.id m)
    /\ computeDelta (Listing.price_eur l) (Listing.year l) (prices_of d (Some m))
       = Ok (Some res)
    /\ PriceMatch.original_price x = Some (referencePrice res)
    /\ PriceMatch.original_year x = Some (referenceYear res)
    /\ PriceMatch.price_delta x = Some (delta res)
    /\ PriceMatch.price_delta_percent x = Some (deltaPercent res).
Proof.
  intros Hfull Hx.
  destruct (ordered_matches_In _ _ _ _ Hfull Hx)
    as (j & ref & price & Hj & _ & Hsel & Href & Hprice).
  destruct (select_row_Ok _ _ _ _ Href Hprice Hsel)
    as (Hnz & Hid & _ & Hop & Hoy & Hpd & Hpc).
  destruct (from_clause_In _ _ Hj) as (Hl & Hm & Hp).
  unfold reference_price in Href.
  destruct (Joined.p j) as [p|] eqn:Ep; cbn in Href; [|discriminate].
  destruct (Joined.m j) as [m|] eqn:Em; [|cbn in Hp; discriminate].
  destruct Hm as (Hm & Hmid).
  exists (Joined.l j), m. eexists.
  split; [exact Hl|]. split; [exact Hid|]. split; [exact Hm|]. split; [exact Hmid|].
  split; [|split; [|split; [|split]]].
  - rewrite Hprice. eapply computeDelta_value; eauto.
  - exact Hop.
  - rewrite Hoy. reflexivity.
  - exact Hpd.
  - exact Hpc.
Qed.

(** *** Sort keys *)

Lemma StronglySorted_lookup {A} (R : A -> A -> Prop) (rows : list A) (i j : nat) (a b : A) :
  StronglySorted R rows -> i < j -> rows !! i = Some a -> rows !! j = Some b -> R a b.
Proof.
  intros Hs. revert i j. induction Hs as [|x r Hs IH Hx]; intros i j Hij Hi Hj.
  - discriminate.
  - destruct j as [|j]; [lia|]. cbn in Hj.
    destruct i as [|i]; cbn in Hi.
    + injection Hi as <-.
      apply (proj1 (List.Forall_forall _ _) Hx).
      apply list_elem_of_In. eapply list_elem_of_lookup_2. exact Hj.
    + apply (IH i j); [lia | assumption | assumption].
Qed.

Lemma query_sorted (d : DB) (r : Request.t) (rows : list PriceMatch.t) :
  query d r = Ok rows ->
  exists c full,
    orderBy (Request.sortBy r) = Ok c
    /\ ordered_matches d r = Ok full
    /\ rows = firstn (Z.to_nat (Request.limit r)) (skipn (Z.to_nat (Request.offset r)) full)
    /\ StronglySorted (fun a b => row_leb c (sortOrder (Request.sortBy r)) a b = true) rows.
Proof.
  unfold query. intros H. apply bind_Ok in H as (full & Hfull & Hlim).
  destruct (ordered_matches_Ok _ _ _ Hfull) as (c & kept & rows1 & Hc & _ & _ & E).
  unfold Sql.limit_offset in Hlim.
  destruct ((Request.limit r <? 0)%Z || (Request.offset r <? 0)%Z); [discriminate|].
  injection Hlim as <-.
  exists c, full. repeat split; try assumption.
  apply StronglySorted_firstn, StronglySorted_skipn. rewrite E.
  apply order_by_sorted; [apply row_leb_total | apply row_leb_trans].
Qed.

Lemma validSortColumns_Own (name : string) (c : Column.t) :
  In (name, c) own_columns -> validSortColumns name = Own c.
Proof.
  cbn. intros H.
  repeat (destruct H as [[= <- <-]|H]; [reflexivity|]). contradiction.
Qed.

Lemma validSortColumns_Undefined (name : string) :
  (forall c, ~ In (name, c) own_columns) -> ~ In name Object_prototype ->
  validSortColumns name = Undefined.
Proof.
  intros Hown Hproto. unfold validSortColumns.
  destruct (find _ own_columns) as [[k c]|] eqn:Hf.
  - apply find_some in Hf as (Hin & Hk). cbn in Hk.
    apply String.eqb_eq in Hk. subst k. destruct (Hown c Hin).
  - destruct (existsb _ Object_prototype) eqn:He; [|reflexivity].
    apply existsb_exists in He as (k & Hin & Hk).
    apply String.eqb_eq in Hk. subst k. contradiction.
Qed.

(** C7, as the code has it.  A leading "-" selects descending order and
    its absence ascending order, for every key.  A key of the allow-list
    orders by its column.  A key that is neither in the allow-list nor
    the name of a property of [Object.prototype] orders by delta percent
    and raises nothing, but the direction is still the one the prefix
    gives: ascending without "-".  Whenever the statement succeeds, its
    rows are in the order of the chosen column and direction, nulls
    last. *)
Theorem sort_key_order :
  (forall sortBy, sortOrder sortBy = true <-> exists rest, sortBy = String "-" rest)
  /\ (forall sortBy c, In (sortColumn sortBy, c) own_columns -> orderBy sortBy = Ok c)
  /\ (forall sortBy,
         (forall c, ~ In (sortColumn sortBy, c) own_columns) ->
         ~ In (sortColumn sortBy) Object_prototype ->
         orderBy sortBy = Ok Column.price_delta_percent)
  /\ (forall d r rows,
         query d r = Ok rows ->
         exists c,
           orderBy (Request.sortBy r) = Ok c
           /\ StronglySorted
                (fun a b => row_leb c (sortOrder (Request.sortBy r)) a b = true) rows)
  /\ (forall d r rows,
         (forall c, ~ In (sortColumn (Request.sortBy r), c) own_columns) ->
         ~ In (sortColumn (Request.sortBy r)) Object_prototype ->
         query d r = Ok rows ->
         forall i j a b,
           i < j -> rows !! i = Some a -> rows !! j = Some b ->
           exists x y,
             PriceMatch.price_delta_percent a = Some x
             /\ PriceMatch.price_delta_percent b = Some y
             /\ if sortOrder (Request.sortBy r) then (y <= x)%Q else (x <= y)%Q).
Proof.
  split; [|split; [|split; [|split]]].
  - intros sortBy. split.
    + destruct sortBy as [|ch rest]; cbn; [discriminate|].
      destruct (Ascii.ascii_dec ch "-") as [->|Hne]; [eauto|].
      destruct ch as [[] [] [] [] [] [] [] []]; cbn; try discriminate. congruence.
    + intros (rest & ->). reflexivity.
  - intros sortBy c H. unfold orderBy. now rewrite (validSortColumns_Own _ _ H).
  - intros sortBy Hown Hproto. unfold orderBy.
    now rewrite (validSortColumns_Undefined _ Hown Hproto).
  - intros d r rows H.
    destruct (query_sorted _ _ _ H) as (c & full & Hc & _ & _ & Hs). eauto.
  - intros d r rows Hown Hproto H i j a b Hij Hi Hj.
    destruct (query_sorted _ _ _ H) as (c & full & Hc & Hfull & Hrows & Hs).
    unfold orderBy in Hc. rewrite (validSortColumns_Undefined _ Hown Hproto) in Hc.
    injection Hc as <-.
    pose proof (StronglySorted_lookup _ _ _ _ _ _ Hs Hij Hi Hj) as Hab.
    assert (Hin : forall k x, rows !! k = Some x -> In x full).
    { intros k x Hk. apply list_elem_of_lookup_2, list_elem_of_In in Hk.
      rewrite Hrows in Hk. eapply in_skipn, in_firstn, Hk. }
    destruct (route_row_computeDelta _ _ _ _ Hfull (Hin _ _ Hi))
      as (_ & _ & ra & _ & _ & _ & _ & _ & _ & _ & _ & Ha).
    destruct (route_row_computeDelta _ _ _ _ Hfull (Hin _ _ Hj))
      as (_ & _ & rb & _ & _ & _ & _ & _ & _ & _ & _ & Hb).
    exists (deltaPercent ra), (deltaPercent rb). split; [exact Ha|]. split; [exact Hb|].
    cbn in Hab. rewrite Ha, Hb in Hab. cbn in Hab.
    destruct (sortOrder (Request.sortBy r)); now apply Qle_bool_iff.
Qed.

Lemma sort_key_order_witness :
  orderBy "-price_eur" = Ok Column.listing_price
  /\ orderBy "-year" = Ok Column.price_delta_percent
  /\ exists c,
      orderBy (Request.sortBy sample_request) = Ok c
      /\ StronglySorted
           (fun a b => row_leb c (sortOrder (Request.sortBy sample_request)) a b = true)
           (data sample_response).
Proof.
  destruct sort_key_order as (_ & Hown & Hfallback & Hsorted & _).
  split; [|split].
  - apply Hown. cbn. tauto.
  - apply Hfallback.
    + intros c H. cbn in H.
      repeat (destruct H as [H|H]; [discriminate|]). contradiction.
    + intros H. cbn in H.
      repeat (destruct H as [H|H]; [discriminate|]). contradiction.
  - apply (Hsorted sample_db sample_request). vm_compute. reflexivity.
Defined.

(** The claim as the specification words it fails twice.  The key "foo"
    is not in the allow-list, and the rows come back by delta percent
    ascending, not descending.  The key "constructor" is not in the
    allow-list either, and the route answers with an error. *)
Lemma sort_fallback_counterexample :
  (forall c, ~ In (sortColumn "foo", c) own_columns)
  /\ (exists rows,
         query sample_db (plain_request "foo" 50 0) = Ok rows
         /\ map PriceMatch.price_delta_percent rows = [Some (-25)%Q; Some 5%Q; Some 10%Q]
         /\ ~ descending_by_percent rows)
  /\ (forall c, ~ In (sortColumn "constructor", c) own_columns)
  /\ price_delta_route sample_db (plain_request "constructor" 50 0) = Err SyntaxError.
Proof.
  assert (Hno : forall name, existsb (String.eqb name) (map fst own_columns) = false ->
                             forall c, ~ In (name, c) own_columns).
  { intros name He c Hin.
    assert (existsb (String.eqb name) (map fst own_columns) = true); [|congruence].
    apply existsb_exists. exists name. split; [|apply String.eqb_refl].
    apply in_map_iff. exists (name, c). auto. }
  split; [apply Hno; reflexivity|]. split; [|split; [apply Hno; reflexivity|]].
  - eexists. split; [vm_compute; reflexivity|]. split; [reflexivity|].
    unfold descending_by_percent. intros H.
    inversion H as [|? ? _ Hhd]; subst.
    inversion Hhd as [|? ? Hbad _]; subst.
    vm_compute in Hbad. discriminate.
  - vm_compute. reflexivity.
Qed.

(** ** Catalog ingestion *)

Lemma NoDup_map_In_eq {A B} (f : A -> B) (rows : list A) (a b : A) :
  List.NoDup (map f rows) -> In a rows -> In b rows -> f a = f b -> a = b.
Proof.
  induction rows as [|x r IH]; cbn; [tauto|].
  intros Hnd Ha Hb Hf. inversion Hnd as [|? ? Hx Hr]; subst.
  destruct Ha as [->|Ha], Hb as [->|Hb]; auto.
  - exfalso. apply Hx. rewrite Hf. now apply in_map.
  - exfalso. apply Hx. rewrite <- Hf. now apply in_map.
Qed.

Lemma existsb_false_forall {A} (f : A -> bool) (rows : list A) :
  existsb f rows = false <-> forall x, In x rows -> f x = false.
Proof.
  split.
  - intros H x Hx. destruct (f x) eqn:Hf; [|reflexivity].
    assert (existsb f rows = true) by (apply existsb_exists; eauto). congruence.
  - intros H. destruct (existsb f rows) eqn:He; [|reflexivity].
    apply existsb_exists in He as (x & Hx & Hf). rewrite (H x Hx) in Hf. discriminate.
Qed.

Lemma find_none_iff {A} (f : A -> bool) (rows : list A) :
  find f rows = None <-> forall x, In x rows -> f x = false.
Proof.
  split; [apply find_none|].
  intros H. destruct (find f rows) as [x|] eqn:Hf; [|reflexivity].
  apply find_some in Hf as (Hx & Hfx). rewrite (H x Hx) in Hfx. discriminate.
Qed.

Lemma map_id_on {A} (f : A -> A) (rows : list A) :
  (forall x, In x rows -> f x = x) -> map f rows = rows.
Proof.
  induction rows as [|x r IH]; cbn; intros H; [reflexivity|].
  rewrite (H x (or_introl eq_refl)). f_equal. apply IH. intros y Hy. apply H. now right.
Qed.

(** *** [insert_maker] *)

Lemma insert_maker_fresh (name : string) (d : DB) :
  (forall m, In m (makers d) -> Maker.name m <> name) ->
  insert_maker name d
  = (makers_id_seq d,
     with_makers d (makers d ++ [{| Maker.id := makers_id_seq d; Maker.name := name |}])
       (makers_id_seq d + 1)).
Proof.
  intros H. unfold insert_maker.
  assert (Hc : forall m, In m (makers d) -> String.eqb (Maker.name m) name = false).
  { intros m Hm. apply String.eqb_neq. now apply H. }
  rewrite (proj2 (find_none_iff _ _) Hc).
  rewrite upsert_fresh by now apply existsb_false_forall.
  reflexivity.
Qed.

Lemma insert_maker_existing (name : string) (d : DB) (m : Maker.t) :
  In m (makers d) -> Maker.name m = name ->
  List.NoDup (map Maker.name (makers d)) ->
  insert_maker name d = (Maker.id m, with_makers d (makers d) (makers_id_seq d + 1)).
Proof.
  intros Hm Hname Hnd. unfold insert_maker.
  assert (Hex : existsb (fun m0 => String.eqb (Maker.name m0) name) (makers d) = true).
  { apply existsb_exists. exists m. split; [exact Hm|]. now apply String.eqb_eq. }
  rewrite upsert_conflict by exact Hex.
  rewrite map_id_on.
  - destruct (find _ (makers d)) as [m'|] eqn:Hf.
    + apply find_some in Hf as (Hm' & Hn'). apply String.eqb_eq in Hn'.
      assert (m' = m) as ->; [|reflexivity].
      apply (NoDup_map_In_eq Maker.name (makers d)); auto. congruence.
    + apply find_none with (x := m) in Hf; [|exact Hm].
      apply String.eqb_neq in Hf. contradiction.
  - intros x _. destruct (String.eqb_spec (Maker.name x) name) as [<-|]; [|reflexivity].
    now destruct x.
Qed.

(** [insert_maker] keeps every row, so it respects [UNIQUE (name)]. *)
Lemma insert_maker_cases (name : string) (d : DB) :
  List.NoDup (map Maker.name (makers d)) ->
  (exists m, In m (makers d) /\ Maker.name m = name
             /\ insert_maker name d
                = (Maker.id m, with_makers d (makers d) (makers_id_seq d + 1)))
  \/ ((forall m, In m (makers d) -> Maker.name m <> name)
      /\ insert_maker name d
         = (makers_id_seq d,
            with_makers d
              (makers d ++ [{| Maker.id := makers_id_seq d; Maker.name := name |}])
              (makers_id_seq d + 1))).
Proof.
  intros Hnd.
  destruct (existsb (fun m => String.eqb (Maker.name m) name) (makers d)) eqn:He.
  - apply existsb_exists in He as (m & Hm & Hn). apply String.eqb_eq in Hn.
    left. exists m. split; [exact Hm|]. split; [exact Hn|].
    now apply insert_maker_existing.
  - right. assert (H : forall m, In m (makers d) -> Maker.name m <> name).
    { intros m Hm. apply String.eqb_neq.
      exact (proj1 (existsb_false_forall _ _) He m Hm). }
    split; [exact H|]. now apply insert_maker_fresh.
Qed.

(** *** Case-insensitive uniqueness within one process *)

Lemma maker_inv_start (d : DB) : makers d = [] -> maker_inv (start d) [].
Proof.
  intros H. split; cbn; rewrite ?H.
  - intros m [].
  - unfold case_insensitive_unique. rewrite H. constructor.
  - intros m [].
  - intros n [].
Qed.

Lemma maker_inv_getMakerId (makerName : string) (s : Seeder) (done : list string) :
  maker_inv s done -> maker_inv (snd (getMakerId makerName s)) (done ++ [makerName]).
Proof.
  intros [Hc Hu Hf Hd]. unfold getMakerId. cbv zeta.
  change (toUpperCase (trim makerName)) with (maker_key makerName).
  destruct (makerCache s !! maker_key makerName) as [id|] eqn:Hk; cbn [snd].
  - split; try assumption.
    + intros m Hm. destruct (Hf m Hm) as (b & n & a & -> & Hn & Hb).
      exists b, n, (a ++ [makerName]). rewrite <- app_assoc. auto.
    + intros n Hn. apply in_app_or in Hn as [Hn|[<-|[]]]; [now apply Hd|].
      rewrite Hk. eauto.
  - assert (Hnone : forall m, In m (makers (db s)) -> Maker.name m <> trim makerName).
    { intros m Hm E. specialize (Hc m Hm). rewrite E in Hc.
      unfold maker_key in Hk. congruence. }
    rewrite (insert_maker_fresh _ _ Hnone). cbn [snd db makerCache].
    assert (Hkey : forall m, In m (makers (db s)) ->
                             toUpperCase (Maker.name m) <> maker_key makerName).
    { intros m Hm E. specialize (Hc m Hm). rewrite E in Hc. congruence. }
    split; cbn [db makerCache makers with_makers].
    + intros m Hm. apply in_app_or in Hm as [Hm|[<-|[]]].
      * rewrite lookup_insert_ne by (apply not_eq_sym, Hkey, Hm). now apply Hc.
      * cbn [Maker.name Maker.id]. apply lookup_insert_eq.
    + unfold case_insensitive_unique in *. cbn [makers with_makers].
      rewrite map_app. cbn [map Maker.name]. apply NoDup_ListNoDup, NoDup_app.
      split; [now apply NoDup_ListNoDup|]. split.
      * intros k Hin Hk'. apply list_elem_of_In in Hk'. destruct Hk' as [<-|[]].
        apply list_elem_of_In in Hin.
        apply in_map_iff in Hin as (m & E & Hm). exact (Hkey m Hm E).
      * apply NoDup_ListNoDup. repeat constructor. intros [].
    + intros m Hm. apply in_app_or in Hm as [Hm|[<-|[]]].
      * destruct (Hf m Hm) as (b & n & a & -> & Hn & Hb).
        exists b, n, (a ++ [makerName]). rewrite <- app_assoc. auto.
      * exists done, makerName, []. split; [reflexivity|]. split; [reflexivity|].
        intros n' Hn' E. destruct (Hd n' Hn') as [v Hv]. rewrite E in Hv. congruence.
    + intros n Hn. apply in_app_or in Hn as [Hn|[<-|[]]].
      * destruct (decide (maker_key makerName = maker_key n)) as [E|E].
        -- rewrite <- E, lookup_insert_eq. eauto.
        -- rewrite lookup_insert_ne by exact E. now apply Hd.
      * rewrite lookup_insert_eq. eauto.
Qed.

Lemma same_makers_refl (s : Seeder) : same_makers s s.
Proof. repeat split. Qed.

Lemma same_makers_trans (s1 s2 s3 : Seeder) :
  same_makers s1 s2 -> same_makers s2 s3 -> same_makers s1 s3.
Proof. intros (A1 & B1 & C1) (A2 & B2 & C2). repeat split; congruence. Qed.

Lemma getModelId_same_makers (makerId : Z) (modelName genmodelId : string) (s : Seeder) :
  same_makers s (snd (getModelId makerId modelName genmodelId s)).
Proof.
  unfold getModelId. cbv zeta.
  destruct (modelCache s !! (makerId, genmodelId)); repeat split.
Qed.

Lemma on_db_sale_same_makers (modelId year units : Z) (s : Seeder) :
  same_makers s (on_db (insert_sale modelId year units) s).
Proof. repeat split. Qed.

Lemma on_db_price_same_makers (modelId year : Z) (e1 e2 : option Q) (s : Seeder) :
  same_makers s (on_db (insert_price modelId year e1 e2) s).
Proof. repeat split. Qed.

Lemma sales_loop_same_makers (modelId : Z) (units : Z -> option Z) (years : list Z)
    (s : Seeder) :
  same_makers s
    (fold_left (fun s year => on_db (insert_sale modelId year (default 0%Z (units year))) s)
               years s).
Proof.
  revert s. induction years as [|y ys IH]; intros s; cbn [fold_left].
  - apply same_makers_refl.
  - eapply same_makers_trans; [|apply IH]. apply on_db_sale_same_makers.
Qed.

Lemma maker_inv_same_makers (s s' : Seeder) (done : list string) :
  same_makers s s' -> maker_inv s done -> maker_inv s' done.
Proof.
  intros (Hm & _ & Hc) [H1 H2 H3 H4].
  split; unfold case_insensitive_unique in *; rewrite ?Hm, ?Hc; assumption.
Qed.

Lemma seedSalesRecord_eq (record : SalesRecord.t) (s : Seeder) :
  seedSalesRecord record s
  = let s1 := snd (getMakerId (SalesRecord.Maker record) s) in
    let makerId := fst (getMakerId (SalesRecord.Maker record) s) in
    let s2 := snd (getModelId makerId (SalesRecord.Genmodel record)
                     (SalesRecord.Genmodel_ID record) s1) in
    let modelId := fst (getModelId makerId (SalesRecord.Genmodel record)
                          (SalesRecord.Genmodel_ID record) s1) in
    fold_left
      (fun s year =>
         on_db (insert_sale modelId year (default 0%Z (SalesRecord.units record year))) s)
      sales_years s2.
Proof.
  unfold seedSalesRecord.
  destruct (getMakerId (SalesRecord.Maker record) s) as [makerId s1]. cbn [fst snd].
  destruct (getModelId makerId _ _ s1) as [modelId s2]. reflexivity.
Qed.

Lemma seedPricesRecord_eq (record : PriceRecord.t) (s : Seeder) :
  seedPricesRecord record s
  = match price_record_names record with
    | Some (makerName, modelName, genmodelId) =>
        let s1 := snd (getMakerId makerName s) in
        let makerId := fst (getMakerId makerName s) in
        let s2 := snd (getModelId makerId modelName genmodelId s1) in
        let modelId := fst (getModelId makerId modelName genmodelId s1) in
        match PriceRecord.Year record with
        | Some year =>
            if (year =? 0)%Z then s2
            else on_db (insert_price modelId year (PriceRecord.Entry_price record)
                                     (PriceRecord.Entry_price_eur record)) s2
        | None => s2
        end
    | None => s
    end.
Proof.
  unfold seedPricesRecord.
  destruct (price_record_names record) as [[[makerName modelName] genmodelId]|];
    [|reflexivity].
  destruct (getMakerId makerName s) as [makerId s1]. cbn [fst snd].
  destruct (getModelId makerId _ _ s1) as [modelId s2]. reflexivity.
Qed.

Lemma maker_inv_seedSalesRecord (record : SalesRecord.t) (s : Seeder) (done : list string) :
  maker_inv s done ->
  maker_inv (seedSalesRecord record s) (done ++ [SalesRecord.Maker record]).
Proof.
  intros H. rewrite seedSalesRecord_eq. cbv zeta.
  eapply maker_inv_same_makers; [apply sales_loop_same_makers|].
  eapply maker_inv_same_makers; [apply getModelId_same_makers|].
  now apply maker_inv_getMakerId.
Qed.

Lemma maker_inv_seedPricesRecord (record : PriceRecord.t) (s : Seeder) (done : list string) :
  maker_inv s done ->
  maker_inv (seedPricesRecord record s)
    (done ++ match price_record_names record with
             | Some (makerName, _, _) => [makerName]
             | None => []
             end).
Proof.
  intros H. rewrite seedPricesRecord_eq.
  destruct (price_record_names record) as [[[makerName modelName] genmodelId]|];
    [|now rewrite app_nil_r].
  cbv zeta.
  assert (H2 : maker_inv (snd (getModelId (fst (getMakerId makerName s)) modelName
                                 genmodelId (snd (getMakerId makerName s))))
                 (done ++ [makerName])).
  { eapply maker_inv_same_makers; [apply getModelId_same_makers|].
    now apply maker_inv_getMakerId. }
  destruct (PriceRecord.Year record) as [year|]; [|exact H2].
  destruct (year =? 0)%Z; [exact H2|].
  eapply maker_inv_same_makers; [apply on_db_price_same_makers|exact H2].
Qed.

Lemma maker_inv_seedCatalog (sales_file : list SalesRecord.t)
    (price_file : list PriceRecord.t) (s : Seeder) (done : list string) :
  maker_inv s done ->
  maker_inv (seedCatalog sales_file price_file s)
    (done ++ ingested_maker_names sales_file price_file).
Proof.
  unfold seedCatalog, ingested_maker_names, seedSales, seedPrices. intros H.
  assert (Hs : maker_inv (fold_left (fun s record => seedSalesRecord record s) sales_file s)
                 (done ++ map SalesRecord.Maker sales_file)).
  { revert s done H. induction sales_file as [|r rs IH]; intros s done H; cbn.
    - now rewrite app_nil_r.
    - replace (done ++ SalesRecord.Maker r :: map SalesRecord.Maker rs)
        with ((done ++ [SalesRecord.Maker r]) ++ map SalesRecord.Maker rs)
        by now rewrite <- app_assoc.
      apply IH. now apply maker_inv_seedSalesRecord. }
  rewrite app_assoc.
  generalize dependent (done ++ map SalesRecord.Maker sales_file).
  generalize (fold_left (fun s record => seedSalesRecord record s) sales_file s).
  clear. intros s done H. revert s done H.
  induction price_file as [|r rs IH]; intros s done H; cbn.
  - now rewrite app_nil_r.
  - rewrite app_assoc. apply IH. now apply maker_inv_seedPricesRecord.
Qed.

(** C9, as the code has it.  Within one seeding process that starts on
    an empty [makers] table, maker names are unique up to letter case:
    after catalog ingestion no two maker rows agree up to case, every
    row holds the (trimmed) first ingested name among those that agree
    with it up to case, and ingesting once more, in that process, any
    name that agrees up to case with an ingested one returns the cached
    id and changes neither the table nor the caches. *)
Theorem maker_names_unique_up_to_case (sales_file : list SalesRecord.t)
    (price_file : list PriceRecord.t) (d : DB) :
  makers d = [] ->
  let s := seedCatalog sales_file price_file (start d) in
  let names := ingested_maker_names sales_file price_file in
  case_insensitive_unique (db s)
  /\ (forall m, In m (makers (db s)) ->
        exists before n after,
          names = before ++ n :: after
          /\ Maker.name m = trim n
          /\ forall n', In n' before ->
                        toUpperCase (trim n') <> toUpperCase (trim n))
  /\ (forall n n', In n names ->
        toUpperCase (trim n') = toUpperCase (trim n) ->
        exists id, getMakerId n' s = (id, s)).
Proof.
  intros Hd s names.
  pose proof (maker_inv_seedCatalog sales_file price_file (start d) []
                (maker_inv_start d Hd)) as [Hc Hu Hf Hdone].
  cbn [app] in *. fold s names in Hc, Hu, Hf, Hdone.
  split; [exact Hu|]. split; [exact Hf|].
  intros n n' Hn E. destruct (Hdone n Hn) as [id Hid].
  exists id. unfold getMakerId. cbv zeta. unfold maker_key in Hid.
  now rewrite E, Hid.
Qed.

Lemma maker_names_unique_up_to_case_witness :
  case_insensitive_unique
    (db (seedCatalog [sales_record "Ford" "Focus" "29_1"; sales_record " FORD" "Ka" "29_2"]
           [] (start empty_db)))
  /\ makers (db (seedCatalog
                   [sales_record "Ford" "Focus" "29_1"; sales_record " FORD" "Ka" "29_2"]
                   [] (start empty_db)))
     = [{| Maker.id := 1; Maker.name := "Ford" |}].
Proof.
  destruct (maker_names_unique_up_to_case
              [sales_record "Ford" "Focus" "29_1"; sales_record " FORD" "Ka" "29_2"]
              [] empty_db eq_refl) as (H & _).
  split; [exact H | vm_compute; reflexivity].
Defined.

(** Uniqueness up to case does not hold across processes: the cache that
    folds the case is empty when a new process starts, and the table's
    own constraint compares names as they are.  Seeding "Ford" and then,
    in a new process, "FORD" leaves two maker rows. *)
Lemma case_insensitive_unique_counterexample :
  let d1 := db (seedCatalog [sales_record "Ford" "Focus" "29_1"] [] (start empty_db)) in
  let d2 := db (seedCatalog [sales_record "FORD" "Focus" "29_1"] [] (start d1)) in
  toUpperCase "Ford" = toUpperCase "FORD"
  /\ makers d2 = [{| Maker.id := 1; Maker.name := "Ford" |};
                  {| Maker.id := 2; Maker.name := "FORD" |}]
  /\ ~ case_insensitive_unique d2.
Proof.
  cbv zeta. split; [vm_compute; reflexivity|].
  assert (E : makers (db (seedCatalog [sales_record "FORD" "Focus" "29_1"] []
                            (start (db (seedCatalog [sales_record "Ford" "Focus" "29_1"] []
                                          (start empty_db))))))
              = [{| Maker.id := 1; Maker.name := "Ford" |};
                 {| Maker.id := 2; Maker.name := "FORD" |}])
    by (vm_compute; reflexivity).
  split; [exact E|].
  unfold case_insensitive_unique. rewrite E. intros H.
  inversion H as [|? ? Hin _]; subst. apply Hin. vm_compute. now left.
Qed.

(** *** Replaying catalog ingestion *)

Lemma extends_refl (d : DB) : extends d d.
Proof. split; apply incl_refl. Qed.

Lemma extends_trans (d1 d2 d3 : DB) : extends d1 d2 -> extends d2 d3 -> extends d1 d3.
Proof. intros (A1 & B1) (A2 & B2). split; eapply incl_tran; eauto. Qed.

Lemma extends_same_catalog (d D D' : DB) :
  extends d D -> same_catalog D D' -> extends d D'.
Proof. intros (A & B) (E1 & E2). unfold extends. now rewrite E1, E2. Qed.

Lemma same_catalog_refl (D : DB) : same_catalog D D.
Proof. split; reflexivity. Qed.

Lemma same_catalog_trans (D1 D2 D3 : DB) :
  same_catalog D1 D2 -> same_catalog D2 D3 -> same_catalog D1 D3.
Proof. intros (A1 & B1) (A2 & B2). split; congruence. Qed.

Lemma same_catalog_extends (D D' : DB) : same_catalog D D' -> extends D D'.
Proof. intros (E1 & E2). unfold extends. rewrite E1, E2. split; apply incl_refl. Qed.

Lemma model_keys_rows (d : DB) :
  map (fun m => (Model.maker_id m, Model.genmodel_id m)) (models d)
  = map (fun r : Z * Z * string => (snd (fst r), snd r)) (model_rows d).
Proof. unfold model_rows. rewrite map_map. reflexivity. Qed.

Lemma unique_keys_same_catalog (D D' : DB) :
  unique_keys D -> same_catalog D D' -> unique_keys D'.
Proof.
  intros (A & B) (E1 & E2). unfold unique_keys.
  rewrite model_keys_rows in *. now rewrite E1, E2.
Qed.

Lemma same_caches_refl (s : Seeder) : same_caches s s.
Proof. split; reflexivity. Qed.

(** Steps can be chained, the second using the value of the first. *)
Lemma replays_bind {A B} (f : Seeder -> A * Seeder) (g : A -> Seeder -> B * Seeder) :
  replays f -> (forall a, replays (g a)) ->
  replays (fun s => g (fst (f s)) (snd (f s))).
Proof.
  intros Hf Hg. split.
  - intros s. eapply extends_trans; [apply (replay_extends f Hf)|].
    apply (replay_extends _ (Hg _)).
  - intros s Hu. apply (replay_unique _ (Hg _)), (replay_unique f Hf), Hu.
  - intros s S Hc Hu He.
    assert (He1 : extends (db (snd (f s))) (db S)).
    { eapply extends_trans; [|exact He]. apply (replay_extends _ (Hg _)). }
    destruct (replay_same f Hf s S Hc Hu He1) as (Ea & Hcat & Hc1).
    rewrite Ea.
    destruct (replay_same _ (Hg (fst (f s))) (snd (f s)) (snd (f S)) Hc1)
      as (Eb & Hcat2 & Hc2).
    + eapply unique_keys_same_catalog; eauto.
    + eapply extends_same_catalog; eauto.
    + split; [exact Eb|]. split; [|exact Hc2].
      eapply same_catalog_trans; eauto.
Qed.

(** A step that touches neither the catalog nor the caches. *)
Lemma replays_frame (h : Seeder -> Seeder) :
  (forall s, same_catalog (db s) (db (h s)) /\ same_caches s (h s)) ->
  replays (fun s => (tt, h s)).
Proof.
  intros H. split; cbn [fst snd].
  - intros s. apply same_catalog_extends, H.
  - intros s Hu. eapply unique_keys_same_catalog; [exact Hu|]. apply H.
  - intros s S (C1 & C2) Hu He. split; [reflexivity|]. split; [apply H|].
    destruct (H s) as (_ & C3 & C4), (H S) as (_ & C5 & C6).
    split; congruence.
Qed.

Lemma replays_ext {A} (f g : Seeder -> A * Seeder) :
  (forall s, f s = g s) -> replays f -> replays g.
Proof.
  intros E [H1 H2 H3]. split.
  - intros s. rewrite <- E. apply H1.
  - intros s. rewrite <- E. apply H2.
  - intros s S. rewrite <- !E. apply H3.
Qed.

Lemma replays_fold {X} (step : X -> Seeder -> Seeder) (xs : list X) :
  (forall x, replays (fun s => (tt, step x s))) ->
  replays (fun s => (tt, fold_left (fun s x => step x s) xs s)).
Proof.
  intros H. induction xs as [|x xs IH]; cbn [fold_left].
  - apply replays_frame. intros s. split; [apply same_catalog_refl | apply same_caches_refl].
  - exact (replays_bind (fun s => (tt, step x s))
             (fun _ s => (tt, fold_left (fun s x => step x s) xs s)) (H x) (fun _ => IH)).
Qed.

(** *** [getMakerId] and [getModelId] can be replayed *)

Lemma insert_maker_shape (name : string) (d : DB) :
  (exists m, In m (makers d) /\ Maker.name m = name
             /\ fst (insert_maker name d) = Maker.id m
             /\ makers (snd (insert_maker name d)) = makers d)
  \/ ((forall m, In m (makers d) -> Maker.name m <> name)
      /\ fst (insert_maker name d) = makers_id_seq d
      /\ makers (snd (insert_maker name d))
         = makers d ++ [{| Maker.id := makers_id_seq d; Maker.name := name |}]).
Proof.
  destruct (existsb (fun m => String.eqb (Maker.name m) name) (makers d)) eqn:He.
  - left. unfold insert_maker. cbn [fst snd makers with_makers].
    rewrite upsert_conflict by exact He.
    destruct (find _ (makers d)) as [m|] eqn:Hf.
    + apply find_some in Hf as (Hm & Hn). apply String.eqb_eq in Hn.
      exists m. repeat split; try assumption.
      apply map_id_on. intros x _.
      destruct (String.eqb_spec (Maker.name x) name) as [<-|]; [now destruct x|reflexivity].
    + apply existsb_exists in He as (m & Hm & Hn).
      apply find_none with (x := m) in Hf; [congruence | exact Hm].
  - right. assert (H : forall m, In m (makers d) -> Maker.name m <> name).
    { intros m Hm. apply String.eqb_neq.
      exact (proj1 (existsb_false_forall _ _) He m Hm). }
    split; [exact H|]. now rewrite (insert_maker_fresh _ _ H).
Qed.

Lemma insert_maker_models (name : string) (d : DB) :
  models (snd (insert_maker name d)) = models d.
Proof. reflexivity. Qed.

Lemma getMakerId_replays (makerName : string) : replays (getMakerId makerName).
Proof.
  split.
  - intros s. unfold getMakerId. cbv zeta.
    destruct (makerCache s !! _); cbn [snd]; [apply extends_refl|].
    destruct (insert_maker (trim makerName) (db s)) as [id d'] eqn:E. cbn [snd db].
    pose proof (insert_maker_shape (trim makerName) (db s)) as H.
    pose proof (insert_maker_models (trim makerName) (db s)) as Hm.
    rewrite E in H, Hm. cbn [fst snd] in H, Hm.
    split; [|unfold model_rows; rewrite Hm; apply incl_refl].
    destruct H as [(m & _ & _ & _ & ->)|(_ & _ & ->)];
      [apply incl_refl | apply incl_appl, incl_refl].
  - intros s (Hn & Hk). unfold getMakerId. cbv zeta.
    destruct (makerCache s !! _); cbn [snd]; [now split|].
    destruct (insert_maker (trim makerName) (db s)) as [id d'] eqn:E. cbn [snd db].
    pose proof (insert_maker_shape (trim makerName) (db s)) as H.
    pose proof (insert_maker_models (trim makerName) (db s)) as Hm.
    rewrite E in H, Hm. cbn [fst snd] in H, Hm.
    split; [|now rewrite Hm].
    destruct H as [(m & _ & _ & _ & ->)|(Hfresh & _ & ->)]; [exact Hn|].
    rewrite map_app. cbn [map Maker.name].
    apply NoDup_ListNoDup, NoDup_app. split; [now apply NoDup_ListNoDup|]. split.
    + intros k Hin Hk'. apply list_elem_of_In in Hk'. destruct Hk' as [<-|[]].
      apply list_elem_of_In, in_map_iff in Hin as (m & Em & Hin).
      exact (Hfresh m Hin Em).
    + apply NoDup_ListNoDup. repeat constructor. intros [].
  - intros s S (C1 & C2) (Hn & Hk) He. unfold getMakerId in *. cbv zeta in *.
    rewrite C1.
    destruct (makerCache s !! _) as [id|]; cbn [fst snd] in *.
    + split; [reflexivity|]. split; [apply same_catalog_refl|]. now split.
    + destruct (insert_maker (trim makerName) (db s)) as [id d'] eqn:E.
      cbn [fst snd db] in *.
      assert (Hin : In {| Maker.id := id; Maker.name := trim makerName |} (makers d')).
      { pose proof (insert_maker_shape (trim makerName) (db s)) as H.
        rewrite E in H. cbn [fst snd] in H.
        destruct H as [(m & Hm & Hname & -> & ->)|(_ & -> & ->)].
        - rewrite <- Hname. now destruct m.
        - apply in_or_app. right. now left. }
      apply (proj1 He) in Hin.
      rewrite (insert_maker_existing (trim makerName) _ _ Hin eq_refl Hn).
      cbn [fst snd db makerCache].
      split; [reflexivity|]. split; [split; reflexivity|].
      split; cbn [makerCache modelCache Maker.id]; congruence.
Qed.

Lemma map_update_inv {A B} (f : A -> B) (test : A -> bool) (update : A -> A)
    (rows : list A) :
  (forall a, f (update a) = f a) ->
  map f (map (fun a => if test a then update a else a) rows) = map f rows.
Proof.
  intros H. rewrite map_map. apply map_ext. intros a. destruct (test a); auto.
Qed.

Lemma insert_model_shape (makerId : Z) (name genmodelId : string) (d : DB) :
  (exists m, In m (models d)
             /\ Model.maker_id m = makerId /\ Model.genmodel_id m = genmodelId
             /\ fst (insert_model makerId name genmodelId d) = Model.id m
             /\ model_rows (snd (insert_model makerId name genmodelId d)) = model_rows d)
  \/ ((forall m, In m (models d) ->
                 ~ (Model.maker_id m = makerId /\ Model.genmodel_id m = genmodelId))
      /\ fst (insert_model makerId name genmodelId d) = models_id_seq d
      /\ model_rows (snd (insert_model makerId name genmodelId d))
         = model_rows d ++ [(models_id_seq d, makerId, genmodelId)]).
Proof.
  set (conflict := fun m : Model.t =>
                     (Model.maker_id m =? makerId)%Z
                     && String.eqb (Model.genmodel_id m) genmodelId).
  assert (Hconf : forall m, conflict m = true <->
                            Model.maker_id m = makerId /\ Model.genmodel_id m = genmodelId).
  { intros m. unfold conflict. rewrite andb_true_iff, Z.eqb_eq, String.eqb_eq. tauto. }
  destruct (existsb conflict (models d)) eqn:He.
  - left. unfold insert_model, model_rows. cbn [fst snd models with_models].
    fold conflict. rewrite upsert_conflict by exact He.
    destruct (find conflict (models d)) as [m|] eqn:Hf.
    + apply find_some in Hf as (Hm & Hc). apply Hconf in Hc as (H1 & H2).
      exists m. repeat split; try assumption.
      apply map_update_inv. reflexivity.
    + apply existsb_exists in He as (m & Hm & Hc).
      apply find_none with (x := m) in Hf; [congruence | exact Hm].
  - right. pose proof (proj1 (existsb_false_forall _ _) He) as Hall.
    split; [|split].
    + intros m Hm Hc. apply Hconf in Hc. rewrite (Hall m Hm) in Hc. discriminate.
    + unfold insert_model. cbn [fst]. fold conflict.
      now rewrite (proj2 (find_none_iff _ _) Hall).
    + unfold insert_model, model_rows. cbn [snd models with_models]. fold conflict.
      rewrite upsert_fresh by exact He. rewrite map_app. reflexivity.
Qed.

Lemma insert_model_makers (makerId : Z) (name genmodelId : string) (d : DB) :
  makers (snd (insert_model makerId name genmodelId d)) = makers d.
Proof. reflexivity. Qed.

Lemma model_rows_In (d : DB) (i mid : Z) (gid : string) :
  In (i, mid, gid) (model_rows d) <->
  exists m, In m (models d)
            /\ Model.id m = i /\ Model.maker_id m = mid /\ Model.genmodel_id m = gid.
Proof.
  unfold model_rows. rewrite in_map_iff. split.
  - intros (m & [= <- <- <-] & Hm). eauto.
  - intros (m & Hm & <- & <- & <-). eauto.
Qed.

Lemma insert_model_existing (makerId i : Z) (name genmodelId : string) (D : DB) :
  In (i, makerId, genmodelId) (model_rows D) ->
  List.NoDup (map (fun m => (Model.maker_id m, Model.genmodel_id m)) (models D)) ->
  fst (insert_model makerId name genmodelId D) = i
  /\ model_rows (snd (insert_model makerId name genmodelId D)) = model_rows D.
Proof.
  intros Hin Hnd. apply model_rows_In in Hin as (m0 & Hm0 & Hi & Hmid & Hgid).
  destruct (insert_model_shape makerId name genmodelId D)
    as [(m & Hm & H1 & H2 & -> & ->)|(Hfresh & _ & _)].
  - split; [|reflexivity].
    assert (m = m0) as ->; [|exact Hi].
    apply (NoDup_map_In_eq (fun m => (Model.maker_id m, Model.genmodel_id m)) (models D));
      auto. congruence.
  - destruct (Hfresh m0 Hm0). auto.
Qed.

Lemma getModelId_replays (makerId : Z) (modelName genmodelId : string) :
  replays (getModelId makerId modelName genmodelId).
Proof.
  split.
  - intros s. unfold getModelId. cbv zeta.
    destruct (modelCache s !! _); cbn [snd]; [apply extends_refl|].
    destruct (insert_model makerId (trim modelName) (trim genmodelId) (db s))
      as [id d'] eqn:E. cbn [snd db].
    pose proof (insert_model_shape makerId (trim modelName) (trim genmodelId) (db s)) as H.
    pose proof (insert_model_makers makerId (trim modelName) (trim genmodelId) (db s)) as Hm.
    rewrite E in H, Hm. cbn [fst snd] in H, Hm.
    split; [rewrite Hm; apply incl_refl|].
    destruct H as [(m & _ & _ & _ & _ & ->)|(_ & _ & ->)];
      [apply incl_refl | apply incl_appl, incl_refl].
  - intros s (Hn & Hk). unfold getModelId. cbv zeta.
    destruct (modelCache s !! _); cbn [snd]; [now split|].
    destruct (insert_model makerId (trim modelName) (trim genmodelId) (db s))
      as [id d'] eqn:E. cbn [snd db].
    pose proof (insert_model_shape makerId (trim modelName) (trim genmodelId) (db s)) as H.
    pose proof (insert_model_makers makerId (trim modelName) (trim genmodelId) (db s)) as Hm.
    rewrite E in H, Hm. cbn [fst snd] in H, Hm.
    split; [now rewrite Hm|].
    rewrite model_keys_rows in *.
    destruct H as [(m & _ & _ & _ & _ & ->)|(Hfresh & _ & ->)]; [exact Hk|].
    rewrite map_app. cbn [map fst snd].
    apply NoDup_ListNoDup, NoDup_app. split; [now apply NoDup_ListNoDup|]. split.
    + intros k Hin Hk'. apply list_elem_of_In in Hk'. destruct Hk' as [<-|[]].
      apply list_elem_of_In, in_map_iff in Hin as ([[i mid] gid] & [= -> ->] & Hin).
      apply model_rows_In in Hin as (m & Hm' & _ & H1 & H2).
      exact (Hfresh m Hm' (conj H1 H2)).
    + apply NoDup_ListNoDup. repeat constructor. intros [].
  - intros s S (C1 & C2) (Hn & Hk) He. unfold getModelId in *. cbv zeta in *.
    rewrite C2.
    destruct (modelCache s !! _) as [id|]; cbn [fst snd] in *.
    + split; [reflexivity|]. split; [apply same_catalog_refl|]. now split.
    + destruct (insert_model makerId (trim modelName) (trim genmodelId) (db s))
        as [id d'] eqn:E.
      cbn [fst snd db] in *.
      assert (Hin : In (id, makerId, trim genmodelId) (model_rows d')).
      { pose proof (insert_model_shape makerId (trim modelName) (trim genmodelId) (db s))
          as H.
        rewrite E in H. cbn [fst snd] in H.
        destruct H as [(m & Hm & H1 & H2 & -> & ->)|(_ & -> & ->)].
        - apply model_rows_In. eauto.
        - apply in_or_app. right. now left. }
      apply (proj2 He) in Hin.
      destruct (insert_model_existing _ _ (trim modelName) _ _ Hin Hk) as (Ei & Er).
      destruct (insert_model makerId (trim modelName) (trim genmodelId) (db S))
        as [id' D'] eqn:E'.
      cbn [fst snd db makerCache modelCache] in *. subst id'.
      split; [reflexivity|]. split.
      * split; [|exact Er].
        pose proof (insert_model_makers makerId (trim modelName) (trim genmodelId) (db S))
          as Hm.
        now rewrite E' in Hm.
      * split; cbn [makerCache modelCache]; congruence.
Qed.

(** *** The seeding functions can be replayed *)

Lemma on_db_sale_replays (modelId year units : Z) :
  replays (fun s => (tt, on_db (insert_sale modelId year units) s)).
Proof. apply replays_frame. intros s. repeat split. Qed.

Lemma on_db_price_replays (modelId year : Z) (e1 e2 : option Q) :
  replays (fun s => (tt, on_db (insert_price modelId year e1 e2) s)).
Proof. apply replays_frame. intros s. repeat split. Qed.

Lemma skip_replays : replays (fun s : Seeder => (tt, s)).
Proof. apply replays_frame. intros s. repeat split. Qed.

Lemma seedSalesRecord_replays (record : SalesRecord.t) :
  replays (fun s => (tt, seedSalesRecord record s)).
Proof.
  eapply replays_ext;
    [|exact (replays_bind _ _
               (getMakerId_replays (SalesRecord.Maker record))
               (fun makerId =>
                  replays_bind _ _
                    (getModelId_replays makerId (SalesRecord.Genmodel record)
                       (SalesRecord.Genmodel_ID record))
                    (fun modelId =>
                       replays_fold
                         (fun year s =>
                            on_db (insert_sale modelId year
                                     (default 0%Z (SalesRecord.units record year))) s)
                         sales_years
                         (fun year => on_db_sale_replays modelId year _))))].
  intros s. cbv beta. now rewrite seedSalesRecord_eq.
Qed.

Lemma price_row_replays (record : PriceRecord.t) (modelId : Z) :
  replays (fun s =>
             (tt,
              match PriceRecord.Year record with
              | Some year =>
                  if (year =? 0)%Z then s
                  else on_db (insert_price modelId year
                                (PriceRecord.Entry_price record)
                                (PriceRecord.Entry_price_eur record)) s
              | None => s
              end)).
Proof.
  destruct (PriceRecord.Year record) as [year|]; [|exact skip_replays].
  destruct (year =? 0)%Z; [exact skip_replays | apply on_db_price_replays].
Qed.

Lemma seedPricesRecord_replays (record : PriceRecord.t) :
  replays (fun s => (tt, seedPricesRecord record s)).
Proof.
  destruct (price_record_names record) as [[[makerName modelName] genmodelId]|] eqn:E.
  - eapply replays_ext;
      [|exact (replays_bind _ _
                 (getMakerId_replays makerName)
                 (fun makerId =>
                    replays_bind _ _
                      (getModelId_replays makerId modelName genmodelId)
                      (price_row_replays record)))].
    intros s. cbv beta. rewrite seedPricesRecord_eq, E. reflexivity.
  - eapply replays_ext; [|exact skip_replays].
    intros s. now rewrite seedPricesRecord_eq, E.
Qed.

Lemma seedCatalog_replays (sales_file : list SalesRecord.t)
    (price_file : list PriceRecord.t) :
  replays (fun s => (tt, seedCatalog sales_file price_file s)).
Proof.
  exact (replays_bind _ (fun _ s => (tt, seedPrices price_file s))
           (replays_fold (fun record s => seedSalesRecord record s) sales_file
              seedSalesRecord_replays)
           (fun _ => replays_fold (fun record s => seedPricesRecord record s) price_file
                       seedPricesRecord_replays)).
Qed.

(** *** Running again in the same process *)

Lemma caches_included_refl (s : Seeder) : caches_included s s.
Proof. split; reflexivity. Qed.

Lemma caches_included_trans (s1 s2 s3 : Seeder) :
  caches_included s1 s2 -> caches_included s2 s3 -> caches_included s1 s3.
Proof. intros (A1 & B1) (A2 & B2). split; etransitivity; eauto. Qed.

Lemma caches_included_same_tables (s S S' : Seeder) :
  caches_included s S -> same_tables S S' -> caches_included s S'.
Proof. intros (A & B) (_ & _ & E1 & E2). unfold caches_included. now rewrite E1, E2. Qed.

Lemma same_tables_refl (S : Seeder) : same_tables S S.
Proof. repeat split. Qed.

Lemma same_tables_trans (S1 S2 S3 : Seeder) :
  same_tables S1 S2 -> same_tables S2 S3 -> same_tables S1 S3.
Proof.
  intros (A1 & B1 & C1 & D1) (A2 & B2 & C2 & D2). repeat split; congruence.
Qed.

Lemma absorbed_bind {A B} (f : Seeder -> A * Seeder) (g : A -> Seeder -> B * Seeder) :
  absorbed f -> (forall a, absorbed (g a)) ->
  absorbed (fun s => g (fst (f s)) (snd (f s))).
Proof.
  intros Hf Hg. split.
  - intros s. eapply caches_included_trans; [apply (absorb_grows f Hf)|].
    apply (absorb_grows _ (Hg _)).
  - intros s S Hi.
    assert (Hi1 : caches_included (snd (f s)) S).
    { eapply caches_included_trans; [|exact Hi]. apply (absorb_grows _ (Hg _)). }
    destruct (absorb_same f Hf s S Hi1) as (Ea & Ht). rewrite Ea.
    destruct (absorb_same _ (Hg (fst (f s))) (snd (f s)) (snd (f S))) as (Eb & Ht2).
    + eapply caches_included_same_tables; eauto.
    + split; [exact Eb|]. eapply same_tables_trans; eauto.
Qed.

Lemma absorbed_frame (h : Seeder -> Seeder) :
  (forall s, same_tables s (h s)) -> absorbed (fun s => (tt, h s)).
Proof.
  intros H. split; cbn [fst snd].
  - intros s. destruct (H s) as (_ & _ & E1 & E2).
    unfold caches_included. now rewrite E1, E2.
  - intros s S _. split; [reflexivity | apply H].
Qed.

Lemma absorbed_ext {A} (f g : Seeder -> A * Seeder) :
  (forall s, f s = g s) -> absorbed f -> absorbed g.
Proof.
  intros E [H1 H2]. split.
  - intros s. rewrite <- E. apply H1.
  - intros s S. rewrite <- !E. apply H2.
Qed.

Lemma absorbed_fold {X} (step : X -> Seeder -> Seeder) (xs : list X) :
  (forall x, absorbed (fun s => (tt, step x s))) ->
  absorbed (fun s => (tt, fold_left (fun s x => step x s) xs s)).
Proof.
  intros H. induction xs as [|x xs IH]; cbn [fold_left].
  - apply absorbed_frame. intros s. apply same_tables_refl.
  - exact (absorbed_bind (fun s => (tt, step x s))
             (fun _ s => (tt, fold_left (fun s x => step x s) xs s)) (H x) (fun _ => IH)).
Qed.

Lemma getMakerId_absorbed (makerName : string) : absorbed (getMakerId makerName).
Proof.
  split.
  - intros s. unfold getMakerId. cbv zeta.
    destruct (makerCache s !! _) eqn:E; cbn [snd]; [apply caches_included_refl|].
    destruct (insert_maker (trim makerName) (db s)) as [id d']. cbn [snd].
    split; cbn [makerCache modelCache]; [now apply insert_subseteq | reflexivity].
  - intros s S (Hi & _).
    assert (Hk : makerCache (snd (getMakerId makerName s)) !! toUpperCase (trim makerName)
                 = Some (fst (getMakerId makerName s))).
    { unfold getMakerId. cbv zeta.
      destruct (makerCache s !! _) eqn:E; cbn [fst snd]; [exact E|].
      destruct (insert_maker (trim makerName) (db s)) as [id d']. cbn [fst snd makerCache].
      apply lookup_insert_eq. }
    pose proof (lookup_weaken _ _ _ _ Hk Hi) as HS.
    unfold getMakerId at 1 3. cbv zeta. rewrite HS. cbn [fst snd].
    split; [reflexivity | apply same_tables_refl].
Qed.

Lemma getModelId_absorbed (makerId : Z) (modelName genmodelId : string) :
  absorbed (getModelId makerId modelName genmodelId).
Proof.
  split.
  - intros s. unfold getModelId. cbv zeta.
    destruct (modelCache s !! _) eqn:E; cbn [snd]; [apply caches_included_refl|].
    destruct (insert_model makerId (trim modelName) (trim genmodelId) (db s)) as [id d'].
    cbn [snd].
    split; cbn [makerCache modelCache]; [reflexivity | now apply insert_subseteq].
  - intros s S (_ & Hi).
    assert (Hk : modelCache (snd (getModelId makerId modelName genmodelId s))
                   !! (makerId, genmodelId)
                 = Some (fst (getModelId makerId modelName genmodelId s))).
    { unfold getModelId. cbv zeta.
      destruct (modelCache s !! _) eqn:E; cbn [fst snd]; [exact E|].
      destruct (insert_model makerId (trim modelName) (trim genmodelId) (db s))
        as [id d']. cbn [fst snd modelCache].
      apply lookup_insert_eq. }
    pose proof (lookup_weaken _ _ _ _ Hk Hi) as HS.
    unfold getModelId at 1 3. cbv zeta. rewrite HS. cbn [fst snd].
    split; [reflexivity | apply same_tables_refl].
Qed.

Lemma skip_absorbed : absorbed (fun s : Seeder => (tt, s)).
Proof. apply absorbed_frame. intros s. apply same_tables_refl. Qed.

Lemma on_db_sale_absorbed (modelId year units : Z) :
  absorbed (fun s => (tt, on_db (insert_sale modelId year units) s)).
Proof. apply absorbed_frame. intros s. repeat split. Qed.

Lemma seedSalesRecord_absorbed (record : SalesRecord.t) :
  absorbed (fun s => (tt, seedSalesRecord record s)).
Proof.
  eapply absorbed_ext;
    [|exact (absorbed_bind _ _
               (getMakerId_absorbed (SalesRecord.Maker record))
               (fun makerId =>
                  absorbed_bind _ _
                    (getModelId_absorbed makerId (SalesRecord.Genmodel record)
                       (SalesRecord.Genmodel_ID record))
                    (fun modelId =>
                       absorbed_fold
                         (fun year s =>
                            on_db (insert_sale modelId year
                                     (default 0%Z (SalesRecord.units record year))) s)
                         sales_years
                         (fun year => on_db_sale_absorbed modelId year _))))].
  intros s. cbv beta. now rewrite seedSalesRecord_eq.
Qed.

Lemma price_row_absorbed (record : PriceRecord.t) (modelId : Z) :
  absorbed (fun s =>
              (tt,
               match PriceRecord.Year record with
               | Some year =>
                   if (year =? 0)%Z then s
                   else on_db (insert_price modelId year
                                 (PriceRecord.Entry_price record)
                                 (PriceRecord.Entry_price_eur record)) s
               | None => s
               end)).
Proof.
  destruct (PriceRecord.Year record) as [year|]; [|exact skip_absorbed].
  destruct (year =? 0)%Z; [exact skip_absorbed|].
  apply absorbed_frame. intros s. repeat split.
Qed.

Lemma seedPricesRecord_absorbed (record : PriceRecord.t) :
  absorbed (fun s => (tt, seedPricesRecord record s)).
Proof.
  destruct (price_record_names record) as [[[makerName modelName] genmodelId]|] eqn:E.
  - eapply absorbed_ext;
      [|exact (absorbed_bind _ _
                 (getMakerId_absorbed makerName)
                 (fun makerId =>
                    absorbed_bind _ _
                      (getModelId_absorbed makerId modelName genmodelId)
                      (price_row_absorbed record)))].
    intros s. cbv beta. rewrite seedPricesRecord_eq, E. reflexivity.
  - eapply absorbed_ext; [|exact skip_absorbed].
    intros s. now rewrite seedPricesRecord_eq, E.
Qed.

Lemma seedCatalog_absorbed (sales_file : list SalesRecord.t)
    (price_file : list PriceRecord.t) :
  absorbed (fun s => (tt, seedCatalog sales_file price_file s)).
Proof.
  exact (absorbed_bind _ (fun _ s => (tt, seedPrices price_file s))
           (absorbed_fold (fun record s => seedSalesRecord record s) sales_file
              seedSalesRecord_absorbed)
           (fun _ => absorbed_fold (fun record s => seedPricesRecord record s) price_file
                       seedPricesRecord_absorbed)).
Qed.

(** C8.  Catalog ingestion is idempotent.  Take any database that
    satisfies the [UNIQUE] constraints of [makers] and [models], run
    catalog ingestion on it, and run it again with the same source rows.
    When the second run is a new process, it leaves the [makers] table
    as the first run left it, and the [models] table keeps the same rows
    with the same ids and natural keys, in the same number.  When the
    second run happens in the process of the first, with its caches, it
    leaves both tables exactly as they were. *)
Theorem catalog_ingestion_idempotent (sales_file : list SalesRecord.t)
    (price_file : list PriceRecord.t) (d : DB) :
  unique_keys d ->
  let s1 := seedCatalog sales_file price_file (start d) in
  let d1 := db s1 in
  let d2 := db (seedCatalog sales_file price_file (start d1)) in
  let d3 := db (seedCatalog sales_file price_file s1) in
  (makers d2 = makers d1
   /\ map (fun m => (Model.id m, Model.maker_id m, Model.genmodel_id m)) (models d2)
      = map (fun m => (Model.id m, Model.maker_id m, Model.genmodel_id m)) (models d1)
   /\ length (models d2) = length (models d1))
  /\ (makers d3 = makers d1 /\ models d3 = models d1).
Proof.
  intros Hu s1 d1 d2 d3. split.
  - pose proof (seedCatalog_replays sales_file price_file) as R.
    destruct (replay_same _ R (start d) (start d1)) as (_ & (Hm & Hr) & _).
    + split; reflexivity.
    + exact (replay_unique _ R (start d) Hu).
    + apply extends_refl.
    + cbn [fst snd] in Hm, Hr. fold d2 in Hm, Hr.
      split; [exact Hm|]. split; [exact Hr|].
      unfold model_rows in Hr.
      rewrite <- (length_map (fun m => (Model.id m, Model.maker_id m, Model.genmodel_id m))
                    (models d2)), Hr.
      apply length_map.
  - pose proof (seedCatalog_absorbed sales_file price_file) as R.
    destruct (absorb_same _ R (start d) s1) as (_ & (Hm & Hmo & _)).
    + apply caches_included_refl.
    + split; [exact Hm | exact Hmo].
Qed.

Lemma catalog_ingestion_idempotent_witness :
  let files := [sales_record "Ford" "Focus" "29_1"; sales_record "FORD" "Ka" "29_2"] in
  let d1 := db (seedCatalog files sample_prices (start empty_db)) in
  let d2 := db (seedCatalog files sample_prices (start d1)) in
  makers d2 = makers d1
  /\ makers d2 = [{| Maker.id := 1; Maker.name := "Ford" |};
                  {| Maker.id := 2; Maker.name := "Skoda" |}]
  /\ map Model.id (models d2) = [1; 2; 3]%Z
  /\ makers_id_seq d1 = 3%Z /\ makers_id_seq d2 = 5%Z.
Proof.
  cbv zeta.
  destruct (catalog_ingestion_idempotent
              [sales_record "Ford" "Focus" "29_1"; sales_record "FORD" "Ka" "29_2"]
              sample_prices empty_db) as ((Hm & _) & _).
  - split; constructor.
  - split; [exact Hm|]. repeat split; vm_compute; reflexivity.
Defined.

(** ** Patterns and the reconciliation matcher *)

Lemma like_nil (s : Text.text) : Text.like [] s = true <-> s = [].
Proof. destruct s; cbn; split; congruence. Qed.

Lemma like_literal_cons (c : ascii) (p s : Text.text) :
  is_wildcard c = false ->
  Text.like (c :: p) s
  = match s with [] => false | d :: s' => Ascii.eqb c d && Text.like p s' end.
Proof.
  unfold is_wildcard. intros H.
  apply orb_false_iff in H as (H & H3). apply orb_false_iff in H as (H1 & H2).
  cbn [Text.like]. now rewrite H1, H2, H3.
Qed.

Lemma like_percent_cons (p s : Text.text) :
  Text.like ("%"%char :: p) s
  = Text.like p s
    || match s with [] => false | _ :: s' => Text.like ("%"%char :: p) s' end.
Proof. destruct s; reflexivity. Qed.

(** [%] stands for any prefix of the text. *)
Lemma like_percent (p s : Text.text) :
  Text.like ("%"%char :: p) s = true <-> exists a b, s = a ++ b /\ Text.like p b = true.
Proof.
  induction s as [|d s IH]; rewrite like_percent_cons.
  - rewrite orb_false_r. split.
    + intros H. exists [], []. auto.
    + intros (a & b & E & H). symmetry in E. apply app_eq_nil in E as (-> & ->). exact H.
  - rewrite orb_true_iff, IH. split.
    + intros [H|(a & b & -> & H)].
      * exists [], (d :: s). auto.
      * exists (d :: a), b. auto.
    + intros (a & b & E & H). destruct a as [|x a]; cbn in E.
      * left. now rewrite E.
      * right. injection E as -> ->. eauto.
Qed.

(** A pattern without wildcards matches itself and nothing else; in
    front of a longer pattern it takes a prefix of the text. *)
Lemma like_prefix (t q s : Text.text) :
  wildcard_free t ->
  Text.like (t ++ q) s = true <-> exists s', s = t ++ s' /\ Text.like q s' = true.
Proof.
  unfold wildcard_free. revert s. induction t as [|c t IH]; intros s Hw; cbn [app].
  - split; [eauto|]. now intros (s' & -> & H).
  - cbn in Hw. apply andb_true_iff in Hw as (Hc & Hw). apply negb_true_iff in Hc.
    rewrite like_literal_cons by exact Hc.
    destruct s as [|d s].
    + split; [discriminate|]. intros (s' & E & _). discriminate.
    + rewrite andb_true_iff, Ascii.eqb_eq, (IH s Hw). split.
      * intros (-> & s' & -> & H). eauto.
      * intros (s' & [= -> ->] & H). eauto.
Qed.

Lemma like_literal (t s : Text.text) :
  wildcard_free t -> Text.like t s = true <-> s = t.
Proof.
  intros Hw. rewrite <- (app_nil_r t) at 1. rewrite (like_prefix t [] s Hw). split.
  - intros (s' & -> & H). apply like_nil in H as ->. now rewrite app_nil_r.
  - intros ->. exists []. now rewrite app_nil_r.
Qed.

Lemma like_contains (t s : Text.text) :
  wildcard_free t ->
  Text.like ("%"%char :: t ++ ["%"%char]) s = true <-> exists a b, s = a ++ t ++ b.
Proof.
  intros Hw. rewrite like_percent. split.
  - intros (a & b & -> & H). apply (like_prefix t _ b Hw) in H as (s' & -> & _). eauto.
  - intros (a & b & ->). exists a, (t ++ b). split; [reflexivity|].
    apply (like_prefix t _ _ Hw). exists b. split; [reflexivity|].
    apply like_percent. exists b, []. split; [now rewrite app_nil_r | reflexivity].
Qed.

Lemma to_lower_wildcard (c : ascii) : is_wildcard (Text.to_lower c) = is_wildcard c.
Proof. destruct c as [[] [] [] [] [] [] [] []]; reflexivity. Qed.

Lemma lower_wildcard_free (t : Text.text) : wildcard_free t -> wildcard_free (Text.lower t).
Proof.
  unfold wildcard_free, Text.lower.
  induction t as [|c t IH]; cbn [map forallb]; [reflexivity|].
  rewrite !andb_true_iff, to_lower_wildcard. intros (Hc & Ht). auto.
Qed.

(** [ILIKE] with a make that has no wildcard: equality up to case. *)
Lemma ilike_exact (make name : Text.text) :
  wildcard_free make ->
  Text.ilike make name = true <-> Text.lower name = Text.lower make.
Proof. intros Hw. apply like_literal, lower_wildcard_free, Hw. Qed.

(** [ILIKE] with [%token%], the token without wildcard: the name
    contains the token up to case. *)
Lemma ilike_contains (token name : Text.text) :
  wildcard_free token ->
  Text.ilike ("%"%char :: token ++ ["%"%char]) name = true
  <-> exists a b, Text.lower name = a ++ Text.lower token ++ b.
Proof.
  intros Hw. unfold Text.ilike.
  replace (Text.lower ("%"%char :: token ++ ["%"%char]))
    with ("%"%char :: Text.lower token ++ ["%"%char])
    by (unfold Text.lower; cbn [map]; rewrite map_app; reflexivity).
  apply like_contains, lower_wildcard_free, Hw.
Qed.

Lemma find_first {A} (f : A -> bool) (before : list A) (x : A) (after : list A) :
  f x = true -> (forall y, In y before -> f y = false) ->
  find f (before ++ x :: after) = Some x.
Proof.
  intros Hx. induction before as [|y b IH]; cbn; intros Hb.
  - now rewrite Hx.
  - rewrite (Hb y (or_introl eq_refl)). apply IH. intros z Hz. apply Hb. now right.
Qed.

Lemma first_field_join (t : Text.text) (ts : list Text.text) :
  forallb (fun c => negb (Text.is_space c)) t = true ->
  Text.first_field (Text.join_space (t :: ts)) = t.
Proof.
  intros Ht.
  assert (H : forall r, Text.first_field (t ++ " "%char :: r) = t
                        /\ Text.first_field t = t).
  { induction t as [|c t IH]; intros r; cbn; [auto|].
    cbn in Ht. apply andb_true_iff in Ht as (Hc & Ht).
    destruct (Ascii.eqb_spec c " ") as [->|_]; [discriminate|].
    destruct (IH Ht r) as (-> & ->). auto. }
  destruct ts as [|t' ts]; cbn [Text.join_space]; apply H. exact [].
Qed.

Lemma truthy_Some (s : string) : s <> "" -> truthy (Some s) = true.
Proof. intros H. cbn. now apply negb_true_iff, String.eqb_neq. Qed.

(** C6, as the code has it.  For a non-empty extracted make and model,
    the maker is the first row of [makers], in scan order, whose name
    matches the make under [ILIKE] with the make itself as the pattern:
    for a make without [LIKE] wildcards that is equality up to letter
    case, not containment.  Without such a row the result is null.  With
    it, the model is the first row of [models] of that maker whose name
    matches [%token%] under [ILIKE], the token being the model string up
    to its first space: for a token without wildcards the name contains
    the token up to case.  The token of an extracted model is its first
    word. *)
Theorem reconciliation_lookup (d : DB) (mk mo : string) :
  mk <> "" -> mo <> "" ->
  let extracted := {| make := Some mk; model := Some mo |} in
  let token := Text.first_field (txt mo) in
  let maker_ok (m : Maker.t) := Text.ilike (txt mk) (txt (Maker.name m)) in
  let model_ok (makerId : Z) (m : Model.t) :=
    (Model.maker_id m =? makerId)%Z
    && Text.ilike ("%"%char :: token ++ ["%"%char]) (txt (Model.name m)) in
  ((forall m, In m (makers d) -> maker_ok m = false) -> match_model d extracted = None)
  /\ (forall before maker after,
         makers d = before ++ maker :: after ->
         maker_ok maker = true ->
         (forall m, In m before -> maker_ok m = false) ->
         ((forall m, In m (models d) -> model_ok (Maker.id maker) m = false) ->
          match_model d extracted = None)
         /\ (forall before' m after',
                models d = before' ++ m :: after' ->
                model_ok (Maker.id maker) m = true ->
                (forall m', In m' before' -> model_ok (Maker.id maker) m' = false) ->
                match_model d extracted = Some (Model.id m)))
  /\ (wildcard_free (txt mk) ->
      forall name, Text.ilike (txt mk) name = true <-> Text.lower name = Text.lower (txt mk))
  /\ (wildcard_free token ->
      forall name,
        Text.ilike ("%"%char :: token ++ ["%"%char]) name = true
        <-> exists a b, Text.lower name = a ++ Text.lower token ++ b)
  /\ (forall (t : Text.text) (ts : list Text.text),
         forallb (fun c => negb (Text.is_space c)) t = true ->
         txt mo = Text.join_space (t :: ts) -> token = t).
Proof.
  intros Hmk Hmo extracted token maker_ok model_ok.
  assert (E : match_model d extracted
              = match find maker_ok (makers d) with
                | Some maker =>
                    option_map Model.id (find (model_ok (Maker.id maker)) (models d))
                | None => None
                end).
  { unfold match_model, extracted. cbn [make model].
    rewrite (truthy_Some _ Hmk), (truthy_Some _ Hmo). cbn [andb].
    unfold find_maker. fold maker_ok.
    destruct (find maker_ok (makers d)); reflexivity. }
  split; [|split; [|split; [|split]]].
  - intros H. rewrite E. now rewrite (proj2 (find_none_iff _ _) H).
  - intros before maker after Hd Hok Hb. rewrite E, Hd, (find_first _ _ _ _ Hok Hb).
    split.
    + intros H. now rewrite (proj2 (find_none_iff _ _) H).
    + intros b' m a' Hd' Hok' Hb'. now rewrite Hd', (find_first _ _ _ _ Hok' Hb').
  - intros Hw name. now apply ilike_exact.
  - intros Hw name. now apply ilike_contains.
  - intros t ts Ht Ejoin. unfold token. rewrite Ejoin. now apply first_field_join.
Qed.

Lemma reconciliation_lookup_witness :
  match_model (db (seedCatalog [] sample_prices (start empty_db)))
    {| make := Some "skoda"; model := Some "octavia Combi" |}
  = Some 1%Z.
Proof.
  destruct (reconciliation_lookup (db (seedCatalog [] sample_prices (start empty_db)))
              "skoda" "octavia Combi") as (_ & H & _); [discriminate | discriminate |].
  destruct (H [] {| Maker.id := 1; Maker.name := "Skoda" |} []) as (_ & H').
  - vm_compute. reflexivity.
  - vm_compute. reflexivity.
  - intros m [].
  - apply (H' [] {| Model.id := 1; Model.maker_id := 1; Model.name := "Octavia";
                    Model.genmodel_id := "81_1" |} []).
    + vm_compute. reflexivity.
    + vm_compute. reflexivity.
    + intros m [].
Defined.

(** The maker lookup is not a containment test: the title "Mercedes C300
    AMG" extracts the make "Mercedes", the catalog has the maker
    "Mercedes-Benz", whose name contains the make, and the lookup finds
    no maker, so the listing is stored without a model.  Nor is it a
    plain comparison: in the make "Mercedes_Benz" the underscore stands
    for any character, and the maker is found. *)
Lemma maker_contains_counterexample :
  extractMakeModel (Some "Mercedes C300 AMG")
  = {| make := Some "Mercedes"; model := Some "C300 AMG" |}
  /\ makers mercedes_db = [{| Maker.id := 1; Maker.name := "Mercedes-Benz" |}]
  /\ spec_find_maker mercedes_db "Mercedes" = Some 1%Z
  /\ find_maker mercedes_db "Mercedes" = None
  /\ find_maker mercedes_db "Mercedes" <> spec_find_maker mercedes_db "Mercedes"
  /\ match_model mercedes_db (extractMakeModel (Some "Mercedes C300 AMG")) = None
  /\ (spec_find_maker mercedes_db "Mercedes_Benz" = None
      /\ find_maker mercedes_db "Mercedes_Benz" = Some 1%Z).
Proof. repeat split; vm_compute; first [reflexivity | discriminate]. Qed.

(** ** The free-text extractor *)

Lemma line_terminator_space (c : ascii) :
  Text.is_line_terminator c = true -> Text.is_space c = true.
Proof. destruct c as [[] [] [] [] [] [] [] []]; vm_compute; congruence. Qed.

Lemma span_app (f : ascii -> bool) (a : Text.text) :
  Text.span f a = (fst (Text.span f a), snd (Text.span f a))
  /\ a = fst (Text.span f a) ++ snd (Text.span f a).
Proof.
  induction a as [|c a IH]; cbn; [auto|].
  destruct (f c); [|auto].
  destruct (Text.span f a) as [x y]. cbn in *. destruct IH as (_ & ->). auto.
Qed.

(** [span] does not look past a text whose continuation starts with a
    character outside the class. *)
Lemma span_stop (f : ascii -> bool) (a b : Text.text) :
  match b with [] => True | c :: _ => f c = false end ->
  Text.span f (a ++ b) = (fst (Text.span f a), snd (Text.span f a) ++ b).
Proof.
  intros Hb. induction a as [|c a IH]; cbn.
  - destruct b as [|c b]; [reflexivity|]. cbn. now rewrite Hb.
  - destruct (f c); [|reflexivity].
    rewrite IH. destruct (Text.span f a). reflexivity.
Qed.

Lemma word_head (t : Text.text) :
  word t -> exists c r, t = c :: r /\ Text.is_space c = false.
Proof.
  intros (Hne & Hw). destruct t as [|c r]; [congruence|].
  cbn in Hw. apply andb_true_iff in Hw as (Hc & _). apply negb_true_iff in Hc. eauto.
Qed.

Lemma word_app_r (a b : Text.text) :
  forallb (fun c => negb (Text.is_space c)) (a ++ b) = true ->
  forallb (fun c => negb (Text.is_space c)) b = true.
Proof. rewrite forallb_app, andb_true_iff. tauto. Qed.

Lemma join_cons (p : Text.text) (ps : list Text.text) :
  Text.join_space (p :: ps) = p ++ rest_joined ps.
Proof. destruct ps; cbn; [now rewrite app_nil_r | reflexivity]. Qed.

Lemma rest_joined_head (ps : list Text.text) :
  match rest_joined ps with [] => True | c :: _ => c = " "%char end.
Proof. destruct ps; cbn; auto. Qed.

Lemma no_line_terminator_word (t : Text.text) :
  forallb (fun c => negb (Text.is_space c)) t = true ->
  forallb (fun x => negb (Text.is_line_terminator x)) t = true.
Proof.
  induction t as [|c t IH]; cbn; [reflexivity|].
  rewrite !andb_true_iff. intros (Hc & Ht). split; [|auto].
  apply negb_true_iff. apply negb_true_iff in Hc.
  destruct (Text.is_line_terminator c) eqn:E; [|reflexivity].
  apply line_terminator_space in E. congruence.
Qed.

Lemma no_line_terminator_joined (ps : list Text.text) :
  Forall word ps ->
  forallb (fun x => negb (Text.is_line_terminator x)) (rest_joined ps) = true.
Proof.
  induction 1 as [|p ps (_ & Hp) _ IH]; [reflexivity|].
  cbn [rest_joined]. rewrite join_cons. cbn [forallb].
  rewrite forallb_app, IH, (no_line_terminator_word _ Hp). reflexivity.
Qed.

Lemma span_space_word (t r : Text.text) :
  word t -> Text.span Text.is_space (" "%char :: t ++ r) = ([" "%char], t ++ r).
Proof.
  intros Ht. destruct (word_head t Ht) as (c & t' & -> & Hc).
  cbn [app Text.span]. change (Text.is_space " ") with true. cbv iota.
  now rewrite Hc.
Qed.

(** The suffix expression, tried at the space in front of a word, reads
    that word and at most the start of the next one. *)
Lemma engine_code_at_word (t : Text.text) (next : list Text.text) :
  word t -> Forall word next ->
  Text.engine_code_at (" "%char :: t ++ rest_joined next) = code_follows t next.
Proof.
  intros Ht Hnext.
  pose proof (rest_joined_head next) as Hsp.
  assert (Hstop : match rest_joined next with
                  | [] => True
                  | c :: _ => Text.is_digit c = false
                  end).
  { destruct (rest_joined next); [exact I|]. now subst. }
  unfold Text.engine_code_at, code_follows, decimal_rest.
  rewrite (span_space_word _ _ Ht).
  rewrite (span_stop _ _ _ Hstop).
  destruct (span_app Text.is_digit t) as (_ & Et).
  destruct (Text.span Text.is_digit t) as [d1 r1]. cbn [fst snd] in *.
  destruct d1 as [|x1 d1].
  { destruct (r1 ++ rest_joined next); reflexivity. }
  destruct r1 as [|c1 r1]; cbn [app].
  { destruct (rest_joined next) as [|c R]; [reflexivity|]. subst c.
    reflexivity. }
  destruct (Ascii.ascii_dec c1 ".") as [->|Hdot].
  2:{ destruct c1 as [[] [] [] [] [] [] [] []]; try reflexivity. congruence. }
  rewrite (span_stop _ _ _ Hstop).
  destruct (span_app Text.is_digit r1) as (_ & Er).
  destruct (Text.span Text.is_digit r1) as [d2 r3]. cbn [fst snd] in *.
  destruct d2 as [|x2 d2]; [reflexivity|].
  assert (Hr3 : forallb (fun c => negb (Text.is_space c)) r3 = true).
  { destruct Ht as (_ & Hw). rewrite Et in Hw.
    apply word_app_r in Hw. cbn [forallb] in Hw.
    apply andb_true_iff in Hw as (_ & Hw). rewrite Er in Hw.
    now apply word_app_r in Hw. }
  destruct r3 as [|c3 r4]; cbn [app].
  - destruct next as [|n ns]; [reflexivity|].
    cbn [rest_joined Text.drop_space]. change (Text.is_space " ") with true. cbv iota.
    rewrite join_cons.
    inversion Hnext as [|? ? Hn Hns]; subst.
    destruct (word_head n Hn) as (c & n' & -> & Hc).
    cbn [app Text.drop_space starts_alpha]. rewrite Hc.
    rewrite forallb_app.
    destruct Hn as (_ & Hn). cbn [forallb] in Hn.
    apply andb_true_iff in Hn as (_ & Hn).
    rewrite (no_line_terminator_word _ Hn), (no_line_terminator_joined _ Hns).
    now rewrite andb_true_r.
  - cbn [forallb] in Hr3. apply andb_true_iff in Hr3 as (Hc3 & Hr4).
    apply negb_true_iff in Hc3.
    cbn [Text.drop_space starts_alpha]. rewrite Hc3.
    rewrite forallb_app, (no_line_terminator_word _ Hr4),
      (no_line_terminator_joined _ Hnext).
    now rewrite andb_true_r.
Qed.

Lemma engine_code_at_no_space (c : ascii) (s : Text.text) :
  Text.is_space c = false -> Text.engine_code_at (c :: s) = false.
Proof. intros H. unfold Text.engine_code_at. cbn [Text.span]. now rewrite H. Qed.

(** No match starts inside a word. *)
Lemma strip_word (t r : Text.text) :
  forallb (fun c => negb (Text.is_space c)) t = true ->
  Text.strip_engine_code (t ++ r) = t ++ Text.strip_engine_code r.
Proof.
  induction t as [|c t IH]; cbn [app forallb]; [reflexivity|].
  rewrite andb_true_iff, negb_true_iff. intros (Hc & Ht).
  cbn [Text.strip_engine_code]. rewrite (engine_code_at_no_space _ _ Hc).
  now rewrite (IH Ht).
Qed.

Lemma strip_rest_joined (ts : list Text.text) :
  Forall word ts ->
  Text.strip_engine_code (rest_joined ts) = rest_joined (keep_tokens ts).
Proof.
  induction 1 as [|t ts Ht Hts IH]; [reflexivity|].
  cbn [rest_joined keep_tokens]. rewrite join_cons.
  cbn [Text.strip_engine_code]. rewrite (engine_code_at_word _ _ Ht Hts).
  destruct (code_follows t ts); [reflexivity|].
  cbn [rest_joined]. rewrite join_cons, (strip_word _ _ (proj2 Ht)), IH. reflexivity.
Qed.

(** On words joined by single spaces, the replacement cuts in front of
    the first word, after the first of all, that opens an engine code. *)
Lemma strip_join (t : Text.text) (ts : list Text.text) :
  word t -> Forall word ts ->
  Text.strip_engine_code (Text.join_space (t :: ts))
  = Text.join_space (t :: keep_tokens ts).
Proof.
  intros Ht Hts.
  now rewrite !join_cons, (strip_word _ _ (proj2 Ht)), (strip_rest_joined _ Hts).
Qed.

Lemma keep_tokens_words (ts : list Text.text) :
  Forall word ts -> Forall word (keep_tokens ts).
Proof.
  induction 1 as [|t ts Ht Hts IH]; cbn; [constructor|].
  destruct (code_follows t ts); constructor; assumption.
Qed.

(** *** [trim] *)

Lemma drop_space_head (s : Text.text) :
  match Text.drop_space s with [] => True | c :: _ => Text.is_space c = false end.
Proof.
  induction s as [|c s IH]; cbn; [exact I|].
  destruct (Text.is_space c) eqn:E; [exact IH | exact E].
Qed.

Lemma drop_space_id (c : ascii) (s : Text.text) :
  Text.is_space c = false -> Text.drop_space (c :: s) = c :: s.
Proof. intros H. cbn. now rewrite H. Qed.

Lemma drop_space_snoc (s : Text.text) (c : ascii) :
  Text.is_space c = false -> Text.drop_space (s ++ [c]) = Text.drop_space s ++ [c].
Proof.
  intros H. induction s as [|d s IH]; cbn; [now rewrite H|].
  destruct (Text.is_space d); [exact IH | reflexivity].
Qed.

Lemma no_trailing_space_snoc (s : Text.text) (c : ascii) :
  no_trailing_space (s ++ [c]) = negb (Text.is_space c).
Proof.
  induction s as [|d s IH]; [reflexivity|].
  cbn [app no_trailing_space]. destruct (s ++ [c]) eqn:E; [|exact IH].
  destruct s; discriminate.
Qed.

Lemma no_trailing_space_last (s : Text.text) :
  s <> [] -> no_trailing_space s = true ->
  exists a c, s = a ++ [c] /\ Text.is_space c = false.
Proof.
  intros Hne H. destruct (exists_last Hne) as (a & c & ->).
  rewrite no_trailing_space_snoc in H. apply negb_true_iff in H. eauto.
Qed.

(** A trimmed text is empty, or starts and ends with a character that
    is not white space. *)
Lemma trim_shape (s : Text.text) :
  Text.trim s = []
  \/ exists c r, Text.trim s = c :: r
                 /\ Text.is_space c = false /\ no_trailing_space (c :: r) = true.
Proof.
  unfold Text.trim.
  pose proof (drop_space_head s) as Hy.
  destruct (Text.drop_space s) as [|c0 y]; [now left|].
  right. cbn [rev]. rewrite (drop_space_snoc _ _ Hy), rev_app_distr. cbn [rev app].
  exists c0, (rev (Text.drop_space (rev y))). split; [reflexivity|]. split; [exact Hy|].
  pose proof (drop_space_head (rev y)) as Hx.
  destruct (Text.drop_space (rev y)) as [|c1 x] eqn:E.
  - cbn. now rewrite Hy.
  - change (c0 :: rev (c1 :: x)) with ((c0 :: rev x) ++ [c1]).
    rewrite no_trailing_space_snoc. now rewrite Hx.
Qed.

Lemma trim_id (c : ascii) (r : Text.text) :
  Text.is_space c = false -> no_trailing_space (c :: r) = true ->
  Text.trim (c :: r) = c :: r.
Proof.
  intros Hc Hn. unfold Text.trim. rewrite (drop_space_id _ _ Hc).
  destruct (no_trailing_space_last (c :: r)) as (a & d & E & Hd); [discriminate|exact Hn|].
  rewrite E, rev_app_distr. cbn [rev app]. rewrite (drop_space_id _ _ Hd).
  cbn [rev]. now rewrite rev_involutive.
Qed.

Lemma no_trailing_space_app (a b : Text.text) :
  b <> [] -> no_trailing_space (a ++ b) = no_trailing_space b.
Proof.
  intros Hb. induction a as [|c a IH]; [reflexivity|].
  cbn [app no_trailing_space]. destruct (a ++ b) eqn:E; [|exact IH].
  apply app_eq_nil in E as (_ & ->). congruence.
Qed.

Lemma no_trailing_space_word (t : Text.text) : word t -> no_trailing_space t = true.
Proof.
  intros (Hne & Hw). destruct (exists_last Hne) as (a & c & ->).
  rewrite no_trailing_space_snoc. apply word_app_r in Hw. cbn in Hw.
  now rewrite andb_true_r in Hw.
Qed.

Lemma no_trailing_space_join (t : Text.text) (ts : list Text.text) :
  word t -> Forall word ts -> no_trailing_space (Text.join_space (t :: ts)) = true.
Proof.
  intros Ht Hts. revert t Ht. induction Hts as [|u us Hu Hus IH]; intros t Ht.
  - now apply no_trailing_space_word.
  - rewrite join_cons. cbn [rest_joined].
    rewrite no_trailing_space_app by discriminate.
    change (" "%char :: Text.join_space (u :: us))
      with ([" "%char] ++ Text.join_space (u :: us)).
    rewrite no_trailing_space_app; [now apply IH|].
    rewrite join_cons. destruct (word_head u Hu) as (c & r & -> & _). discriminate.
Qed.

Lemma trim_join (t : Text.text) (ts : list Text.text) :
  word t -> Forall word ts ->
  Text.trim (Text.join_space (t :: ts)) = Text.join_space (t :: ts).
Proof.
  intros Ht Hts. pose proof (no_trailing_space_join t ts Ht Hts) as Hn.
  rewrite join_cons in *. destruct (word_head t Ht) as (c & r & -> & Hc).
  cbn [app] in *. now apply trim_id.
Qed.

(** *** [split] *)

Lemma split_space_no_space (s : Text.text) :
  Forall (fun t => forallb (fun c => negb (Text.is_space c)) t = true) (Text.split_space s).
Proof.
  induction s as [|c r IH]; cbn [Text.split_space]; [repeat constructor|].
  destruct (Text.is_space c) eqn:Hc.
  - destruct r as [|c' r']; [repeat constructor|].
    destruct (Text.is_space c'); [exact IH | now constructor].
  - destruct (Text.split_space r) as [|t ts]; [repeat constructor; cbn; now rewrite Hc|].
    inversion IH as [|? ? Ht Hts]; subst.
    constructor; [cbn; now rewrite Hc, Ht | exact Hts].
Qed.

Lemma split_space_nonempty (s : Text.text) : Text.split_space s <> [].
Proof.
  induction s as [|c r IH]; cbn [Text.split_space]; [discriminate|].
  destruct (Text.is_space c).
  - destruct r as [|c' r']; [discriminate|].
    destruct (Text.is_space c'); [exact IH | discriminate].
  - destruct (Text.split_space r); discriminate.
Qed.

Lemma split_space_cons (c : ascii) (r : Text.text) :
  Text.is_space c = false ->
  exists t ts, Text.split_space r = t :: ts /\ Text.split_space (c :: r) = (c :: t) :: ts.
Proof.
  intros Hc. cbn [Text.split_space]. rewrite Hc.
  pose proof (split_space_nonempty r) as Hne.
  destruct (Text.split_space r) as [|t ts]; [congruence | eauto].
Qed.

Lemma split_space_space (c c' : ascii) (r : Text.text) :
  Text.is_space c = true ->
  Text.split_space (c :: c' :: r)
  = if Text.is_space c' then Text.split_space (c' :: r) else [] :: Text.split_space (c' :: r).
Proof.
  intros Hc. change (Text.split_space (c :: c' :: r))
    with (if Text.is_space c
          then if Text.is_space c' then Text.split_space (c' :: r)
               else [] :: Text.split_space (c' :: r)
          else match Text.split_space (c' :: r) with
               | t :: ts' => (c :: t) :: ts'
               | [] => [[c]]
               end).
  now rewrite Hc.
Qed.

Lemma split_space_tail (s : Text.text) :
  no_trailing_space s = true ->
  forall t ts, Text.split_space s = t :: ts -> Forall (fun x => x <> []) ts.
Proof.
  induction s as [|c r IH]; intros Hn t ts E.
  - injection E as <- <-. constructor.
  - destruct (Text.is_space c) eqn:Hc.
    + destruct r as [|c' r']; [cbn in Hn; rewrite Hc in Hn; discriminate|].
      assert (Hn' : no_trailing_space (c' :: r') = true) by exact Hn.
      rewrite (split_space_space _ _ _ Hc) in E.
      destruct (Text.is_space c') eqn:Hc'.
      * exact (IH Hn' t ts E).
      * assert (Ets : ts = Text.split_space (c' :: r')) by congruence.
        destruct (split_space_cons c' r' Hc') as (t' & ts' & _ & E').
        rewrite Ets, E'. constructor; [discriminate|]. exact (IH Hn' _ _ E').
    + destruct (split_space_cons c r Hc) as (t' & ts' & Er & E').
      rewrite E' in E. injection E as <- <-.
      destruct r as [|c' r']; [injection Er as <- <-; constructor|].
      exact (IH Hn _ _ Er).
Qed.

(** The pieces of a trimmed text that has white space inside are words. *)
Lemma split_trim_words (s : Text.text) (t0 t1 : Text.text) (ts : list Text.text) :
  Text.split_space (Text.trim s) = t0 :: t1 :: ts -> Forall word (t0 :: t1 :: ts).
Proof.
  intros E. pose proof (split_space_no_space (Text.trim s)) as Hns.
  destruct (trim_shape s) as [H|(c & r & H & Hc & Hn)]; rewrite H in *; [discriminate|].
  pose proof (split_space_tail _ Hn _ _ E) as Htail.
  destruct (split_space_cons c r Hc) as (t' & ts' & _ & E').
  rewrite E' in E. injection E as <- ->. rewrite E' in Hns.
  inversion Hns as [|? ? H0 Hrest]; subst.
  constructor; [split; [discriminate | exact H0]|].
  apply List.Forall_forall. intros x Hx. split.
  - exact (proj1 (List.Forall_forall _ _) Htail x Hx).
  - exact (proj1 (List.Forall_forall _ _) Hrest x Hx).
Qed.

(** *** The extractor on the words of the title *)

Lemma txt_str (t : Text.text) : txt (str t) = t.
Proof. apply list_ascii_of_string_of_list_ascii. Qed.

Lemma map_txt_str (ts : list Text.text) : map txt (map str ts) = ts.
Proof. rewrite map_map. rewrite <- (map_id ts) at 2. apply map_ext, txt_str. Qed.

Lemma model_of_words (ts : list Text.text) :
  Forall word ts ->
  model_of_parts (map str ts)
  = unwords (map str (match ts with [] => [] | t :: r => t :: keep_tokens r end)).
Proof.
  intros H. unfold model_of_parts, unwords. rewrite !map_txt_str. f_equal.
  destruct H as [|t r Ht Hr]; [reflexivity|].
  rewrite (strip_join _ _ Ht Hr). apply trim_join; [exact Ht|].
  now apply keep_tokens_words.
Qed.




(** *** The examples of the specification, and some edge cases *)

Example extract_skoda :
  extractMakeModel (Some "Skoda Octavia Octavia Combi 2.0 TSI")
  = {| make := Some "Skoda"; model := Some "Octavia Octavia Combi" |}.
Proof. vm_compute. reflexivity. Qed.

Example extract_mercedes :
  extractMakeModel (Some "Mercedes Benz C300 AMG")
  = {| make := Some "Mercedes-Benz"; model := Some "C300 AMG" |}.
Proof. vm_compute. reflexivity. Qed.

Example extract_lower :
  extractMakeModel (Some "Skoda Octavia 2.0 tsi")
  = {| make := Some "Skoda"; model := Some "Octavia" |}.
Proof. vm_compute. reflexivity. Qed.

Example extract_empty : extractMakeModel (Some "") = {| make := None; model := None |}.
Proof. reflexivity. Qed.

Example extract_blank : extractMakeModel (Some "   ") = {| make := None; model := None |}.
Proof. vm_compute. reflexivity. Qed.

Example extract_first_decimal :
  extractMakeModel (Some "Skoda 2.0 TSI")
  = {| make := Some "Skoda"; model := Some "2.0 TSI" |}.
Proof. vm_compute. reflexivity. Qed.

(** ** More on the route: what a page holds, when it fails, how keys permute *)

(** *** Rounding is monotone *)

Lemma round2_mono (x y : Q) : (x <= y)%Q -> (Sql.round2 x <= Sql.round2 y)%Q.
Proof.
  intros Hxy.
  destruct (round2_cases x) as (a & Ha & HA).
  destruct (round2_cases y) as (b & Hb & HB).
  rewrite Ha, Hb.
  assert (Hab : (a <= b)%Z).
  { apply Z.lt_succ_r. rewrite Zlt_Qlt. unfold Z.succ. rewrite inject_Z_plus.
    change (inject_Z 1) with 1%Q.
    destruct HA as [(? & ? & ?)|(? & ? & ?)], HB as [(? & ? & ?)|(? & ? & ?)]; lra. }
  rewrite Zle_Qle in Hab. lra.
Qed.

Lemma round2_zero (x : Q) : (x == 0)%Q -> (Sql.round2 x == 0)%Q.
Proof.
  intros Hx. apply Qle_antisym.
  - apply Qnot_lt_le. intros H. apply round2_pos in H. lra.
  - apply Qnot_lt_le. intros H. apply round2_neg in H. lra.
Qed.

(** *** The conditions of the [WHERE] clause, one by one *)

Lemma where_all_app {A} (c1 c2 : list (A -> result (option bool))) (row : A) :
  Sql.where_all (c1 ++ c2) row = Ok true ->
  Sql.where_all c1 row = Ok true /\ Sql.where_all c2 row = Ok true.
Proof.
  induction c1 as [|c cs IH]; cbn; intros H; [auto|].
  apply bind_Ok in H as (v & Hv & H). rewrite Hv. cbn.
  destruct v as [[]|]; try discriminate. now apply IH.
Qed.

Lemma where_all_one {A} (c : A -> result (option bool)) (row : A) :
  Sql.where_all [c] row = Ok true -> c row = Ok (Some true).
Proof. intros H. exact (where_all_true _ _ H c (or_introl eq_refl)). Qed.

Lemma or_true (a b : option bool) :
  Sql.or a b = Some true -> a = Some true \/ b = Some true.
Proof. destruct a as [[]|], b as [[]|]; cbn; intros H; auto; discriminate. Qed.

Lemma ilike_true (s : option string) (pattern : string) :
  Sql.ilike s pattern = Some true ->
  exists v, s = Some v /\ Text.ilike (txt pattern) (txt v) = true.
Proof. destruct s as [v|]; cbn; intros [= H]. eauto. Qed.

(** What a joined row that passes the [WHERE] clause satisfies. *)
Lemma filters_pass (r : Request.t) (j : Joined.t) (price ref : Q) :
  Sql.where_all (filters r) j = Ok true ->
  reference_price j = Some ref ->
  Listing.price_eur (Joined.l j) = Some price ->
  (forall mk, Request.maker r = Some mk -> mk <> "" ->
     exists name,
       (Listing.extracted_make (Joined.l j) = Some name
        \/ option_map Maker.name (Joined.mk j) = Some name)
       /\ Text.ilike (txt ("%" ++ mk ++ "%")) (txt name) = true)
  /\ (forall mo, Request.model r = Some mo -> mo <> "" ->
        exists name,
          (Listing.extracted_model (Joined.l j) = Some name
           \/ option_map Model.name (Joined.m j) = Some name)
          /\ Text.ilike (txt ("%" ++ mo ++ "%")) (txt name) = true)
  /\ (forall v, Request.minPrice r = Some v -> (v <= price)%Q)
  /\ (forall v, Request.maxPrice r = Some v -> (price <= v)%Q)
  /\ (forall v, Request.minDiscount r = Some v -> (v <= percent_off price ref)%Q)
  /\ (forall v, Request.maxDiscount r = Some v -> (percent_off price ref <= v)%Q).
Proof.
  intros H Href Hprice. unfold filters in H.
  apply where_all_app in H as (Hmk & H).
  apply where_all_app in H as (Hmo & H).
  apply where_all_app in H as (Hlo & H).
  apply where_all_app in H as (Hhi & H).
  apply where_all_app in H as (Hmin & H).
  apply where_all_app in H as (Hmax & _).
  assert (Hpc : forall pc, discount_percent (Some price) (Some ref) = Ok pc ->
                           pc = Some (percent_off price ref)).
  { intros pc. unfold discount_percent. cbn.
    destruct (Qeq_bool ref 0); cbn; [discriminate|]. now intros [= <-]. }
  split; [|split; [|split; [|split; [|split]]]].
  - intros mk E Hne. rewrite E in Hmk. rewrite (truthy_Some _ Hne) in Hmk.
    apply where_all_one in Hmk. injection Hmk as Hmk. cbn [default] in Hmk.
    apply or_true in Hmk as [Hmk|Hmk]; apply ilike_true in Hmk as (name & E1 & E2); eauto.
  - intros mo E Hne. rewrite E in Hmo. rewrite (truthy_Some _ Hne) in Hmo.
    apply where_all_one in Hmo. injection Hmo as Hmo. cbn [default] in Hmo.
    apply or_true in Hmo as [Hmo|Hmo]; apply ilike_true in Hmo as (name & E1 & E2); eauto.
  - intros v E. rewrite E in Hlo. apply where_all_one in Hlo.
    rewrite Hprice in Hlo. injection Hlo as Hlo. now apply Qle_bool_iff.
  - intros v E. rewrite E in Hhi. apply where_all_one in Hhi.
    rewrite Hprice in Hhi. injection Hhi as Hhi. now apply Qle_bool_iff.
  - intros v E. rewrite E in Hmin. apply where_all_one in Hmin.
    rewrite Hprice, Href in Hmin.
    apply bind_Ok in Hmin as (pc & Hd & Hmin). rewrite (Hpc _ Hd) in Hmin.
    injection Hmin as Hmin. now apply Qle_bool_iff.
  - intros v E. rewrite E in Hmax. apply where_all_one in Hmax.
    rewrite Hprice, Href in Hmax.
    apply bind_Ok in Hmax as (pc & Hd & Hmax). rewrite (Hpc _ Hd) in Hmax.
    injection Hmax as Hmax. now apply Qle_bool_iff.
Qed.

(** *** An answer of the route, taken apart *)

Lemma route_Ok (d : DB) (r : Request.t) (resp : Response) :
  price_delta_route d r = Ok resp ->
  exists full : list PriceMatch.t,
    ordered_matches d r = Ok full
    /\ (0 <= Request.limit r)%Z /\ (0 <= Request.offset r)%Z
    /\ data resp
       = firstn (Z.to_nat (Request.limit r)) (skipn (Z.to_nat (Request.offset r)) full)
    /\ total resp = Z.of_nat (length full)
    /\ List.NoDup (map PriceMatch.id full)
    /\ response_limit resp = Request.limit r
    /\ response_offset resp = Request.offset r.
Proof.
  intros H. unfold price_delta_route in H.
  apply bind_Ok in H as (rows & Hq & H).
  apply bind_Ok in H as (n & Hn & H). injection H as <-. cbn.
  unfold query in Hq. apply bind_Ok in Hq as (full & Hfull & Hlim).
  exists full. split; [exact Hfull|].
  unfold Sql.limit_offset in Hlim.
  destruct (Z.ltb_spec (Request.limit r) 0); [discriminate|].
  destruct (Z.ltb_spec (Request.offset r) 0); [discriminate|].
  injection Hlim as <-.
  destruct (ordered_matches_Ok _ _ _ Hfull) as (c & kept & rows & Hc & Hk & Hsel & ->).
  destruct (countQuery_Ok _ _ _ Hn) as (kept' & Hk' & ->).
  rewrite Hk in Hk'. injection Hk' as <-.
  assert (Hids : map (fun j => Listing.id (Joined.l j)) kept = map PriceMatch.id rows).
  { apply (Forall2_map_eq _ _ (fun j x => select_row j = Ok x)); [|now apply mapM_Ok].
    intros j x Hjx. unfold select_row in Hjx.
    apply bind_Ok in Hjx as (pc & _ & Hjx). injection Hjx as <-. reflexivity. }
  repeat split; try assumption.
  - f_equal. rewrite Hids, <- distinct_on_map, length_map.
    symmetry. apply Permutation_length, order_by_perm.
  - eapply Permutation_NoDup; [|apply (distinct_on_NoDup PriceMatch.id rows)].
    symmetry. apply Permutation_map, order_by_perm.
Qed.

(** A row on a page comes from a joined row that passed the [WHERE]
    clause. *)
Lemma route_row_source (d : DB) (r : Request.t) (resp : Response) (x : PriceMatch.t) :
  price_delta_route d r = Ok resp -> In x (data resp) ->
  exists j ref price,
    In j (from_clause d)
    /\ Sql.where_all (filters r) j = Ok true
    /\ select_row j = Ok x
    /\ reference_price j = Some ref
    /\ Listing.price_eur (Joined.l j) = Some price.
Proof.
  intros H Hx. destruct (route_Ok _ _ _ H) as (full & Hfull & _ & _ & Hdata & _).
  rewrite Hdata in Hx. apply in_firstn, in_skipn in Hx.
  exact (ordered_matches_In _ _ _ _ Hfull Hx).
Qed.

(** The two prices of a returned row and its discount before rounding. *)
Lemma route_row_percent (d : DB) (r : Request.t) (resp : Response) (x : PriceMatch.t) :
  price_delta_route d r = Ok resp -> In x (data resp) ->
  exists price ref : Q,
    PriceMatch.listing_price x = Some price
    /\ PriceMatch.original_price x = Some ref
    /\ ~ (ref == 0)%Q
    /\ PriceMatch.price_delta_percent x = Some (Sql.round2 (percent_off price ref))
    /\ (forall v, Request.minDiscount r = Some v -> (v <= percent_off price ref)%Q)
    /\ (forall v, Request.maxDiscount r = Some v -> (percent_off price ref <= v)%Q).
Proof.
  intros H Hx.
  destruct (route_row_source _ _ _ _ H Hx) as (j & ref & price & _ & Hw & Hsel & Href & Hprice).
  destruct (filters_pass _ _ _ _ Hw Href Hprice) as (_ & _ & _ & _ & Hmin & Hmax).
  destruct (select_row_Ok _ _ _ _ Href Hprice Hsel) as (Hnz & _ & Hlp & Hop & _ & _ & Hpc).
  exists price, ref. auto 10.
Qed.

(** X1.  Every row the route returns satisfies the filters of the
    request.  Its listing price lies between [minPrice] and [maxPrice];
    its discount, before rounding, lies between [minDiscount] and
    [maxDiscount], so that the rounded [price_delta_percent] it shows
    lies between the two bounds rounded to two decimals; a non-empty
    [maker] (or [model]) is matched, as an [ILIKE] pattern between two
    [%], by the extracted make or the name of the reconciled maker (by
    the extracted model or the name of the reconciled model). *)
Theorem route_rows_pass_filters (d : DB) (r : Request.t) (resp : Response) (x : PriceMatch.t) :
  price_delta_route d r = Ok resp -> In x (data resp) ->
  exists price ref : Q,
    PriceMatch.listing_price x = Some price
    /\ PriceMatch.original_price x = Some ref
    /\ PriceMatch.price_delta_percent x = Some (Sql.round2 (percent_off price ref))
    /\ (forall v, Request.minPrice r = Some v -> (v <= price)%Q)
    /\ (forall v, Request.maxPrice r = Some v -> (price <= v)%Q)
    /\ (forall v, Request.minDiscount r = Some v ->
          (v <= percent_off price ref)%Q
          /\ (Sql.round2 v <= Sql.round2 (percent_off price ref))%Q)
    /\ (forall v, Request.maxDiscount r = Some v ->
          (percent_off price ref <= v)%Q
          /\ (Sql.round2 (percent_off price ref) <= Sql.round2 v)%Q)
    /\ (forall mk, Request.maker r = Some mk -> mk <> "" ->
          exists name,
            (PriceMatch.make x = Some name \/ PriceMatch.matched_maker x = Some name)
            /\ Text.ilike (txt ("%" ++ mk ++ "%")) (txt name) = true)
    /\ (forall mo, Request.model r = Some mo -> mo <> "" ->
          exists name,
            (PriceMatch.model x = Some name \/ PriceMatch.matched_model x = Some name)
            /\ Text.ilike (txt ("%" ++ mo ++ "%")) (txt name) = true).
Proof.
  intros H Hx.
  destruct (route_row_source _ _ _ _ H Hx) as (j & ref & price & _ & Hw & Hsel & Href & Hprice).
  destruct (filters_pass _ _ _ _ Hw Href Hprice) as (Hmk & Hmo & Hlo & Hhi & Hmin & Hmax).
  destruct (select_row_Ok _ _ _ _ Href Hprice Hsel) as (_ & _ & Hlp & Hop & _ & _ & Hpc).
  assert (Hmake : PriceMatch.make x = Listing.extracted_make (Joined.l j)
                  /\ PriceMatch.matched_maker x = option_map Maker.name (Joined.mk j)
                  /\ PriceMatch.model x = Listing.extracted_model (Joined.l j)
                  /\ PriceMatch.matched_model x = option_map Model.name (Joined.m j)).
  { unfold select_row in Hsel. apply bind_Ok in Hsel as (pc & _ & Hsel).
    injection Hsel as <-. cbn. auto. }
  destruct Hmake as (E1 & E2 & E3 & E4).
  exists price, ref. split; [exact Hlp|]. split; [exact Hop|]. split; [exact Hpc|].
  split; [exact Hlo|]. split; [exact Hhi|].
  split; [|split; [|split]].
  - intros v E. split; [now apply Hmin | now apply round2_mono, Hmin].
  - intros v E. split; [now apply Hmax | now apply round2_mono, Hmax].
  - rewrite E1, E2. exact Hmk.
  - rewrite E3, E4. exact Hmo.
Qed.

Lemma route_rows_pass_filters_witness :
  exists x price ref,
    In x (data filtered_response)
    /\ PriceMatch.listing_price x = Some price
    /\ PriceMatch.original_price x = Some ref
    /\ (10000 <= price)%Q /\ (price <= 20000)%Q
    /\ (1 <= percent_off price ref)%Q /\ (percent_off price ref <= 50)%Q.
Proof.
  destruct (data filtered_response) as [|x rest] eqn:E; [vm_compute in E; discriminate|].
  assert (Hx : In x (data filtered_response)) by (rewrite E; exact (or_introl eq_refl)).
  destruct (route_rows_pass_filters sample_db filtered_request filtered_response x)
    as (price & ref & Hlp & Hop & _ & Hlo & Hhi & Hmin & Hmax & _).
  - vm_compute. reflexivity.
  - exact Hx.
  - exists x, price, ref. split; [exact (or_introl eq_refl)|].
    split; [exact Hlp|]. split; [exact Hop|].
    split; [exact (Hlo 10000%Q eq_refl)|]. split; [exact (Hhi 20000%Q eq_refl)|].
    split; [exact (proj1 (Hmin 1%Q eq_refl)) | exact (proj1 (Hmax 50%Q eq_refl))].
Defined.

(** *** Errors of the two statements *)

Lemma filterM_Err {A} (f : A -> result bool) (rows : list A) (a : A) (e : error) :
  (forall b e', f b = Err e' -> e' = e) -> In a rows -> f a = Err e ->
  Sql.filterM f rows = Err e.
Proof.
  intros Hf. induction rows as [|b r IH]; cbn; intros Hin Ha; [contradiction|].
  destruct (f b) as [keep|e'] eqn:Hb; cbn.
  - destruct Hin as [->|Hin]; [congruence|]. now rewrite (IH Hin Ha).
  - now rewrite (Hf _ _ Hb).
Qed.

Lemma filterM_Err_inv {A} (f : A -> result bool) (rows : list A) (e : error) :
  Sql.filterM f rows = Err e -> exists a, In a rows /\ f a = Err e.
Proof.
  induction rows as [|b r IH]; cbn; [discriminate|].
  destruct (f b) as [keep|e'] eqn:Hb; cbn.
  - destruct (Sql.filterM f r) as [rest|e'']; cbn; [discriminate|].
    intros [= ->]. destruct (IH eq_refl) as (a & Ha & Hfa). exists a. auto.
  - intros [= ->]. exists b. auto.
Qed.

Lemma mapM_Err {A B} (f : A -> result B) (rows : list A) (a : A) (e : error) :
  (forall b e', f b = Err e' -> e' = e) -> In a rows -> f a = Err e ->
  mapM f rows = Err e.
Proof.
  intros Hf. induction rows as [|b r IH]; cbn; intros Hin Ha; [contradiction|].
  destruct (f b) as [y|e'] eqn:Hb; cbn.
  - destruct Hin as [->|Hin]; [congruence|]. now rewrite (IH Hin Ha).
  - now rewrite (Hf _ _ Hb).
Qed.

Lemma mapM_Err_inv {A B} (f : A -> result B) (rows : list A) (e : error) :
  mapM f rows = Err e -> exists a, In a rows /\ f a = Err e.
Proof.
  induction rows as [|b r IH]; cbn; [discriminate|].
  destruct (f b) as [y|e'] eqn:Hb; cbn.
  - destruct (mapM f r) as [rest|e'']; cbn; [discriminate|].
    intros [= ->]. destruct (IH eq_refl) as (a & Ha & Hfa). exists a. auto.
  - intros [= ->]. exists b. auto.
Qed.

(** The only error the expressions of the statements raise is a division
    by zero. *)
Lemma discount_percent_Err (price ref : option Q) (e : error) :
  discount_percent price ref = Err e -> e = DivisionByZero.
Proof.
  unfold discount_percent, Sql.div, Sql.sub.
  destruct ref as [y|], price as [x|]; cbn; try discriminate.
  destruct (Qeq_bool y 0); cbn; [|discriminate]. now intros [= <-].
Qed.

Lemma where_all_Err {A} (conds : list (A -> result (option bool))) (row : A) (e0 e : error) :
  (forall c e', In c conds -> c row = Err e' -> e' = e0) ->
  Sql.where_all conds row = Err e -> e = e0.
Proof.
  induction conds as [|c cs IH]; cbn; intros Hc H; [discriminate|].
  destruct (c row) as [v|e'] eqn:Hv; cbn in H.
  - destruct v as [[]|]; try discriminate. apply IH; [|exact H].
    intros c' e' Hin. apply Hc. now right.
  - injection H as <-. apply (Hc c); auto.
Qed.

Lemma filters_Err (r : Request.t) (j : Joined.t) (e : error) :
  Sql.where_all (filters r) j = Err e -> e = DivisionByZero.
Proof.
  apply where_all_Err. intros c e' Hin Hc. unfold filters in Hin.
  repeat (apply in_app_or in Hin as [Hin|Hin]).
  - destruct (truthy (Request.maker r)); [|contradiction].
    destruct Hin as [<-|[]]. discriminate.
  - destruct (truthy (Request.model r)); [|contradiction].
    destruct Hin as [<-|[]]. discriminate.
  - destruct (Request.minPrice r); [|contradiction]. destruct Hin as [<-|[]]. discriminate.
  - destruct (Request.maxPrice r); [|contradiction]. destruct Hin as [<-|[]]. discriminate.
  - destruct (Request.minDiscount r); [|contradiction]. destruct Hin as [<-|[]].
    destruct (discount_percent _ _) eqn:Hd; cbn in Hc; [discriminate|].
    injection Hc as <-. eapply discount_percent_Err, Hd.
  - destruct (Request.maxDiscount r); [|contradiction]. destruct Hin as [<-|[]].
    destruct (discount_percent _ _) eqn:Hd; cbn in Hc; [discriminate|].
    injection Hc as <-. eapply discount_percent_Err, Hd.
  - destruct Hin as [<-|[<-|[]]]; discriminate.
Qed.

Lemma select_row_Err (j : Joined.t) (e : error) :
  select_row j = Err e -> e = DivisionByZero.
Proof.
  unfold select_row. destruct (discount_percent _ _) eqn:Hd; cbn; [discriminate|].
  intros [= <-]. eapply discount_percent_Err, Hd.
Qed.

Lemma price_matches_Err (d : DB) (r : Request.t) (e : error) :
  price_matches d r = Err e -> e = DivisionByZero.
Proof.
  unfold price_matches.
  destruct (Sql.filterM _ _) as [kept|e'] eqn:Hk; cbn.
  - destruct (mapM select_row kept) as [rows|e''] eqn:Hr; cbn; [discriminate|].
    intros [= <-]. apply mapM_Err_inv in Hr as (j & _ & Hj). eapply select_row_Err, Hj.
  - intros [= <-]. apply filterM_Err_inv in Hk as (j & _ & Hj). eapply filters_Err, Hj.
Qed.

Lemma countQuery_Err (d : DB) (r : Request.t) (e : error) :
  countQuery d r = Err e -> e = DivisionByZero.
Proof.
  unfold countQuery.
  destruct (Sql.filterM _ _) as [kept|e'] eqn:Hk; cbn; [discriminate|].
  intros [= <-]. apply filterM_Err_inv in Hk as (j & _ & Hj). eapply filters_Err, Hj.
Qed.

(** *** The [FROM] clause reaches every reconciled listing *)

Lemma left_join_complete {A B} (on : A -> B -> bool) (left : list A) (right : list B)
    (a : A) (b : B) :
  In a left -> In b right -> on a b = true -> In (a, Some b) (Sql.left_join on left right).
Proof.
  intros Ha Hb Hon. unfold Sql.left_join. apply in_flat_map. exists a. split; [exact Ha|].
  assert (Hin : In b (List.filter (on a) right)) by (apply filter_In; auto).
  destruct (List.filter (on a) right) as [|b0 bs]; [contradiction|].
  apply in_map_iff. exists b. auto.
Qed.

Lemma left_join_total {A B} (on : A -> B -> bool) (left : list A) (right : list B) (a : A) :
  In a left -> exists ob, In (a, ob) (Sql.left_join on left right).
Proof.
  intros Ha. unfold Sql.left_join.
  destruct (List.filter (on a) right) as [|b0 bs] eqn:Hf.
  - exists None. apply in_flat_map. exists a. split; [exact Ha|]. rewrite Hf. now left.
  - exists (Some b0). apply in_flat_map. exists a. split; [exact Ha|]. rewrite Hf. now left.
Qed.

Lemma from_clause_complete (d : DB) (l : Listing.t) (m : Model.t) :
  In l (listings d) -> In m (models d) -> Listing.model_id l = Some (Model.id m) ->
  exists mk,
    In {| Joined.l := l; Joined.m := Some m; Joined.mk := mk;
          Joined.p := closest_price (Listing.year l) (prices_of d (Some m)) |}
       (from_clause d).
Proof.
  intros Hl Hm Hid. unfold from_clause.
  set (lm := Sql.left_join _ (listings d) (models d)).
  assert (Hlm : In (l, Some m) lm).
  { apply left_join_complete; [exact Hl | exact Hm|]. rewrite Hid. apply Z.eqb_refl. }
  set (lmk := Sql.left_join _ lm (makers d)).
  destruct (left_join_total
              (fun (x : Listing.t * option Model.t) (mk : Maker.t) =>
                 match snd x with
                 | Some m => (Maker.id mk =? Model.maker_id m)%Z
                 | None => false
                 end) lm (makers d) (l, Some m) Hlm) as (mk & Hmk).
  exists mk. apply in_map_iff. exists (l, Some m, mk). split; [reflexivity | exact Hmk].
Qed.



(** X3.  The page the route answers with.  A negative [limit] or
    [offset] is answered with an error.  Otherwise the page holds
    [min limit (max 0 (total - offset))] rows, so it is empty from
    [offset = total] on and never longer than [limit]; [total] counts
    listings, each at most once, so it does not exceed the size of the
    [listings] table; and [limit] and [offset] are echoed. *)
Theorem route_page_bounds (d : DB) (r : Request.t) :
  ((Request.limit r < 0 \/ Request.offset r < 0)%Z ->
   exists e, price_delta_route d r = Err e)
  /\ (forall resp, price_delta_route d r = Ok resp ->
        (0 <= total resp <= Z.of_nat (length (listings d)))%Z
        /\ Z.of_nat (length (data resp))
           = Z.min (Request.limit r) (Z.max 0 (total resp - Request.offset r))
        /\ response_limit resp = Request.limit r
        /\ response_offset resp = Request.offset r).
Proof.
  split.
  - intros Hneg. unfold price_delta_route, query.
    destruct (ordered_matches d r) as [full|e]; cbn; [|eauto].
    unfold Sql.limit_offset.
    assert (E : ((Request.limit r <? 0) || (Request.offset r <? 0))%Z = true).
    { apply orb_true_iff. rewrite !Z.ltb_lt. exact Hneg. }
    rewrite E. cbn. eauto.
  - intros resp H.
    destruct (route_Ok _ _ _ H) as (full & Hfull & Hl & Ho & Hdata & Htotal & Hnd & E1 & E2).
    split; [|split; [|split; assumption]].
    + split; [lia|]. rewrite Htotal. apply inj_le.
      rewrite <- (length_map PriceMatch.id full), <- (length_map Listing.id (listings d)).
      apply NoDup_incl_length; [exact Hnd|].
      intros i Hi. apply in_map_iff in Hi as (x & <- & Hx).
      destruct (ordered_matches_In _ _ _ _ Hfull Hx)
        as (j & ref & price & Hj & _ & Hsel & Href & Hprice).
      destruct (select_row_Ok _ _ _ _ Href Hprice Hsel) as (_ & -> & _).
      apply in_map. now apply from_clause_In in Hj as (Hj & _).
    + rewrite Hdata, Htotal, length_firstn, length_skipn. lia.
Qed.

Lemma route_page_bounds_witness :
  (exists e, price_delta_route sample_db (plain_request "title" (-1) 0) = Err e)
  /\ (0 <= total sample_response <= 3)%Z
  /\ Z.of_nat (length (data sample_response)) = 2%Z.
Proof.
  split; [|split].
  - apply (route_page_bounds sample_db (plain_request "title" (-1) 0)). left. reflexivity.
  - apply (proj2 (route_page_bounds sample_db sample_request) sample_response).
    vm_compute. reflexivity.
  - destruct (proj2 (route_page_bounds sample_db sample_request) sample_response)
      as (_ & E & _); [vm_compute; reflexivity|].
    rewrite E. reflexivity.
Defined.

(** *** Sort keys *)

Lemma orderBy_Ok (sortBy : string) :
  ~ In (sortColumn sortBy) Object_prototype -> exists c, orderBy sortBy = Ok c.
Proof.
  intros Hp. unfold orderBy, validSortColumns.
  destruct (find _ own_columns) as [kv|]; [eauto|].
  destruct (existsb _ Object_prototype) eqn:He; [|eauto].
  apply existsb_exists in He as (k & Hin & Hk).
  apply String.eqb_eq in Hk. subst k. contradiction.
Qed.

Lemma orderBy_Err (sortBy : string) (e : error) :
  orderBy sortBy = Err e <-> e = SyntaxError /\ In (sortColumn sortBy) Object_prototype.
Proof.
  split.
  - intros H. destruct (in_dec String.string_dec (sortColumn sortBy) Object_prototype)
      as [Hin|Hout].
    + split; [|exact Hin]. unfold orderBy in H.
      destruct (validSortColumns (sortColumn sortBy)); congruence.
    + destruct (orderBy_Ok _ Hout) as (c & Hc). congruence.
  - intros (-> & Hin). unfold orderBy.
    cbn in Hin.
    repeat (destruct Hin as [<-|Hin]; [reflexivity|]). contradiction.
Qed.

(** X4.  The sort key orders the result and does nothing else.  When the
    route answers a request, it answers the same request under any other
    sort key that is not the name of an inherited property, with the
    same [total]; and the two whole results, before [LIMIT] and
    [OFFSET], are permutations of each other. *)
Theorem sort_key_permutes (d : DB) (r : Request.t) (sortBy : string) (resp : Response) :
  price_delta_route d r = Ok resp ->
  ~ In (sortColumn sortBy) Object_prototype ->
  exists resp' full full',
    price_delta_route d (with_sortBy r sortBy) = Ok resp'
    /\ total resp' = total resp
    /\ ordered_matches d r = Ok full
    /\ ordered_matches d (with_sortBy r sortBy) = Ok full'
    /\ Permutation full full'.
Proof.
  intros H Hkey.
  destruct (route_Ok _ _ _ H) as (full & Hfull & Hl & Ho & _ & Htotal & _).
  destruct (ordered_matches_Ok _ _ _ Hfull) as (c & kept & rows & Hc & Hk & Hsel & E).
  destruct (orderBy_Ok _ Hkey) as (c' & Hc').
  set (full' := Sql.order_by (row_leb c' (sortOrder sortBy)) (Sql.distinct_on PriceMatch.id rows)).
  assert (Hfull' : ordered_matches d (with_sortBy r sortBy) = Ok full').
  { unfold ordered_matches, price_matches. cbn [with_sortBy Request.sortBy].
    rewrite Hc'. cbn.
    change (filters (with_sortBy r sortBy)) with (filters r).
    rewrite Hk. cbn. rewrite Hsel. cbn. f_equal. unfold full'. f_equal.
    apply filter_all. intros x Hx. apply distinct_on_In in Hx.
    destruct (Forall2_right_In _ _ _ _ (mapM_Ok _ _ _ Hsel) Hx) as (j & Hj & Hjx).
    apply (filterM_In _ _ _ j Hk) in Hj as (_ & Hw).
    destruct (filters_not_null _ _ Hw) as ([ref Href] & [price Hprice]).
    destruct (select_row_Ok _ _ _ _ Href Hprice Hjx) as (_ & _ & _ & _ & _ & _ & ->).
    reflexivity. }
  assert (Hperm : Permutation full full').
  { rewrite E. unfold full'. rewrite !order_by_perm. reflexivity. }
  assert (Hn : countQuery d (with_sortBy r sortBy) = Ok (total resp)).
  { change (countQuery d (with_sortBy r sortBy)) with (countQuery d r).
    unfold price_delta_route in H.
    apply bind_Ok in H as (rows0 & _ & H). apply bind_Ok in H as (n & Hn & H).
    injection H as <-. exact Hn. }
  eexists _, full, full'. split; [|split; [|split; [|split]]].
  - unfold price_delta_route, query. rewrite Hfull', Hn. cbn.
    change (Request.limit (with_sortBy r sortBy)) with (Request.limit r).
    change (Request.offset (with_sortBy r sortBy)) with (Request.offset r).
    rewrite (limit_offset_Ok _ _ _ Hl Ho). cbn. reflexivity.
  - reflexivity.
  - exact Hfull.
  - exact Hfull'.
  - exact Hperm.
Qed.

Lemma sort_key_permutes_witness :
  exists resp',
    price_delta_route sample_db (with_sortBy sample_request "mileage_km") = Ok resp'
    /\ total resp' = 3%Z.
Proof.
  destruct (sort_key_permutes sample_db sample_request "mileage_km" sample_response)
    as (resp' & full & full' & H & Ht & _).
  - vm_compute. reflexivity.
  - intros Hin. cbn in Hin.
    repeat (destruct Hin as [Hin|Hin]; [discriminate|]). contradiction.
  - exists resp'. split; [exact H|]. rewrite Ht. reflexivity.
Defined.

(** X5.  The route answers with a syntax error exactly when the sort
    key, without its leading "-", is the name of one of the properties
    an object literal inherits; this depends neither on the stored data
    nor on the filters and the page. *)
Theorem route_syntax_error (d : DB) (r : Request.t) :
  price_delta_route d r = Err SyntaxError
  <-> In (sortColumn (Request.sortBy r)) Object_prototype.
Proof.
  split.
  - intros H. unfold price_delta_route, query, ordered_matches in H.
    destruct (orderBy (Request.sortBy r)) as [c|e] eqn:Hc; cbn in H.
    + exfalso.
      destruct (price_matches d r) as [rows|e] eqn:Hpm; cbn in H.
      * unfold Sql.limit_offset in H.
        destruct ((Request.limit r <? 0)%Z || (Request.offset r <? 0)%Z); cbn in H;
          [discriminate|].
        destruct (countQuery d r) as [n|e] eqn:Hn; cbn in H; [discriminate|].
        injection H as ->. apply countQuery_Err in Hn. discriminate.
      * injection H as ->. apply price_matches_Err in Hpm. discriminate.
    + now apply orderBy_Err in Hc as (_ & Hin).
  - intros Hin. unfold price_delta_route, query, ordered_matches.
    now rewrite (proj2 (orderBy_Err _ SyntaxError) (conj eq_refl Hin)).
Qed.

Lemma route_syntax_error_witness :
  price_delta_route sample_db (plain_request "-toString" 50 0) = Err SyntaxError.
Proof.
  apply (route_syntax_error sample_db (plain_request "-toString" 50 0)).
  cbn. tauto.
Defined.

(** *** The two lists of the home page *)

Lemma route_query (d : DB) (r : Request.t) (resp : Response) :
  price_delta_route d r = Ok resp -> query d r = Ok (data resp).
Proof.
  unfold price_delta_route. intros H.
  apply bind_Ok in H as (rows & Hq & H). apply bind_Ok in H as (n & _ & H).
  injection H as <-. exact Hq.
Qed.

(** With the primary keys of [listings] and [models] in force, the id of
    a returned row determines its two prices. *)
Lemma route_row_prices (d : DB) (r r' : Request.t) (resp resp' : Response) (x y : PriceMatch.t) :
  List.NoDup (map Listing.id (listings d)) ->
  List.NoDup (map Model.id (models d)) ->
  price_delta_route d r = Ok resp -> price_delta_route d r' = Ok resp' ->
  In x (data resp) -> In y (data resp') -> PriceMatch.id x = PriceMatch.id y ->
  PriceMatch.listing_price x = PriceMatch.listing_price y /\ PriceMatch.original_price x = PriceMatch.original_price y.
Proof.
  intros Hlid Hmid H H' Hx Hy Hxy.
  destruct (route_row_source _ _ _ _ H Hx) as (j & ref & price & Hj & _ & Hsel & Href & Hprice).
  destruct (route_row_source _ _ _ _ H' Hy)
    as (j' & ref' & price' & Hj' & _ & Hsel' & Href' & Hprice').
  destruct (select_row_Ok _ _ _ _ Href Hprice Hsel) as (_ & Hid & -> & -> & _).
  destruct (select_row_Ok _ _ _ _ Href' Hprice' Hsel') as (_ & Hid' & -> & -> & _).
  destruct (from_clause_In _ _ Hj) as (Hl & Hm & Hp).
  destruct (from_clause_In _ _ Hj') as (Hl' & Hm' & Hp').
  assert (El : Joined.l j = Joined.l j').
  { apply (NoDup_map_In_eq Listing.id (listings d)); try assumption. congruence. }
  assert (Em : Joined.m j = Joined.m j').
  { unfold reference_price in Href, Href'.
    destruct (Joined.m j) as [m|]; [|rewrite Hp in Href; discriminate].
    destruct (Joined.m j') as [m'|]; [|rewrite Hp' in Href'; discriminate].
    destruct Hm as (Hm & Hi), Hm' as (Hm' & Hi'). f_equal.
    apply (NoDup_map_In_eq Model.id (models d)); try assumption. congruence. }
  assert (Ep : Joined.p j = Joined.p j') by (rewrite Hp, Hp', El, Em; reflexivity).
  split.
  - rewrite <- Hprice, <- Hprice', El. reflexivity.
  - rewrite <- Href, <- Href'. unfold reference_price. now rewrite Ep.
Qed.

(** X6.  The two lists of the home page.  "Best deals" asks for
    [limit=5], [sortBy=-price_delta_percent], [minDiscount=0] and
    "worst deals" for [limit=5], [sortBy=price_delta_percent],
    [maxDiscount=0].  When the route answers them, each list holds at
    most five rows; no best deal shows a negative percentage and no
    worst deal a positive one; the best deals come in descending and the
    worst deals in ascending order of the percentage; and, ids of
    listings and of models being unique, a listing that is on both lists
    is offered exactly at its reference price and shows zero percent. *)
Theorem home_page_lists (d : DB) (best worst : Response) :
  price_delta_route d best_deals = Ok best ->
  price_delta_route d worst_deals = Ok worst ->
  (length (data best) <= 5 /\ length (data worst) <= 5)%nat
  /\ (forall x, In x (data best) ->
        exists pct, PriceMatch.price_delta_percent x = Some pct /\ (0 <= pct)%Q)
  /\ (forall x, In x (data worst) ->
        exists pct, PriceMatch.price_delta_percent x = Some pct /\ (pct <= 0)%Q)
  /\ StronglySorted
       (fun a b => Sql.key_leb Qleb true (PriceMatch.price_delta_percent a)
                     (PriceMatch.price_delta_percent b) = true) (data best)
  /\ StronglySorted
       (fun a b => Sql.key_leb Qleb false (PriceMatch.price_delta_percent a)
                     (PriceMatch.price_delta_percent b) = true) (data worst)
  /\ (List.NoDup (map Listing.id (listings d)) -> List.NoDup (map Model.id (models d)) ->
      forall x y, In x (data best) -> In y (data worst) -> PriceMatch.id x = PriceMatch.id y ->
        exists price ref pct,
          PriceMatch.listing_price x = Some price /\ PriceMatch.original_price x = Some ref
          /\ (price == ref)%Q
          /\ PriceMatch.price_delta_percent x = Some pct /\ (pct == 0)%Q).
Proof.
  intros Hb Hw.
  assert (Hlen : forall r resp, price_delta_route d r = Ok resp ->
                   Request.limit r = 5%Z -> (length (data resp) <= 5)%nat).
  { intros r resp H E. destruct (route_Ok _ _ _ H) as (full & _ & _ & _ & -> & _).
    rewrite E, length_firstn. lia. }
  split; [split; eapply Hlen; eauto|].
  split; [|split; [|split; [|split]]].
  - intros x Hx.
    destruct (route_row_percent _ _ _ _ Hb Hx) as (price & ref & _ & _ & _ & Hpc & Hmin & _).
    eexists. split; [exact Hpc|].
    rewrite <- (round2_zero 0) by reflexivity. apply round2_mono. now apply Hmin.
  - intros x Hx.
    destruct (route_row_percent _ _ _ _ Hw Hx) as (price & ref & _ & _ & _ & Hpc & _ & Hmax).
    eexists. split; [exact Hpc|].
    rewrite <- (round2_zero 0) by reflexivity. apply round2_mono. now apply Hmax.
  - destruct (query_sorted _ _ _ (route_query _ _ _ Hb)) as (c & full & Hc & _ & _ & Hs).
    injection Hc as <-. exact Hs.
  - destruct (query_sorted _ _ _ (route_query _ _ _ Hw)) as (c & full & Hc & _ & _ & Hs).
    injection Hc as <-. exact Hs.
  - intros Hlid Hmid x y Hx Hy Hxy.
    destruct (route_row_prices _ _ _ _ _ _ _ Hlid Hmid Hb Hw Hx Hy Hxy) as (E1 & E2).
    destruct (route_row_percent _ _ _ _ Hb Hx)
      as (price & ref & Hlp & Hop & Hnz & Hpc & Hmin & _).
    destruct (route_row_percent _ _ _ _ Hw Hy)
      as (price' & ref' & Hlp' & Hop' & _ & _ & _ & Hmax).
    assert (price' = price) by congruence. assert (ref' = ref) by congruence. subst.
    specialize (Hmin 0%Q eq_refl). specialize (Hmax 0%Q eq_refl).
    assert (Hzero : (percent_off price ref == 0)%Q) by (now apply Qle_antisym).
    exists price, ref. eexists. split; [exact Hlp|]. split; [exact Hop|].
    split; [|split; [exact Hpc | now apply round2_zero]].
    unfold percent_off in Hzero.
    assert (Hq : ((ref - price) / ref == 0)%Q) by lra.
    assert (Hm : (ref * ((ref - price) / ref) == ref - price)%Q)
      by (now apply Qmult_div_r).
    rewrite Hq in Hm. lra.
Qed.

Lemma home_page_lists_witness :
  exists best worst,
    price_delta_route sample_db best_deals = Ok best
    /\ price_delta_route sample_db worst_deals = Ok worst
    /\ map PriceMatch.id (data best) = [1; 3]%Z /\ map PriceMatch.id (data worst) = [2]%Z
    /\ (length (data best) <= 5 /\ length (data worst) <= 5)%nat.
Proof.
  destruct (price_delta_route sample_db best_deals) as [best|] eqn:Hb;
    [|vm_compute in Hb; discriminate].
  destruct (price_delta_route sample_db worst_deals) as [worst|] eqn:Hw;
    [|vm_compute in Hw; discriminate].
  exists best, worst. split; [reflexivity|]. split; [reflexivity|].
  split; [|split].
  - vm_compute in Hb. injection Hb as <-. reflexivity.
  - vm_compute in Hw. injection Hw as <-. reflexivity.
  - exact (proj1 (home_page_lists sample_db best worst Hb Hw)).
Defined.

(** ** Running a sequence of upserts twice *)

Lemma upsert_In {A} (conflict : A -> bool) (update : A -> A) (new : A) (rows : list A)
    (a : A) :
  In a (upsert conflict update new rows) ->
  (In a rows /\ conflict a = false)
  \/ (exists b, In b rows /\ conflict b = true /\ a = update b)
  \/ (a = new /\ forall b, In b rows -> conflict b = false).
Proof.
  unfold upsert. destruct (existsb conflict rows) eqn:He.
  - intros H. apply in_map_iff in H as (b & <- & Hb).
    destruct (conflict b) eqn:Hc; [right; left; eauto | left; auto].
  - pose proof (proj1 (existsb_false_forall _ _) He) as Hall.
    intros H. apply in_app_or in H as [H|[<-|[]]]; [left | right; right]; auto.
Qed.

Lemma touch_yes {A} (s : Step.t A) (a : A) :
  Step.conflict s a = true -> touch s a = Step.update s a.
Proof. unfold touch. now intros ->. Qed.

Lemma touch_no {A} (s : Step.t A) (a : A) : Step.conflict s a = false -> touch s a = a.
Proof. unfold touch. now intros ->. Qed.

Lemma touch_all_cons {A} (s : Step.t A) (rest : list (Step.t A)) (a : A) :
  touch_all (s :: rest) a = touch_all rest (touch s a).
Proof. reflexivity. Qed.

Lemma run_steps_cons {A} (s : Step.t A) (rest : list (Step.t A)) (rows : list A) :
  run_steps (s :: rest) rows = run_steps rest (run_step s rows).
Proof. reflexivity. Qed.

Section Upserts.
Context {A : Type} (good : Step.t A -> Prop).

(** The steps of one statement: an update does not change what a row
    conflicts with, the later of two updates of a row wins, and the
    proposed row conflicts with its own step, which leaves it as it
    is. *)
Hypothesis keeps_conflicts :
  forall s s', good s -> good s' ->
    forall a, Step.conflict s' (Step.update s a) = Step.conflict s' a.
Hypothesis last_wins :
  forall s s', good s -> good s' ->
    forall a, Step.conflict s a = true -> Step.conflict s' a = true ->
              Step.update s' (Step.update s a) = Step.update s' a.
Hypothesis new_settled :
  forall s, good s ->
    Step.conflict s (Step.new s) = true /\ Step.update s (Step.new s) = Step.new s.

Lemma touch_conflict (s s' : Step.t A) (a : A) :
  good s -> good s' -> Step.conflict s' (touch s a) = Step.conflict s' a.
Proof.
  intros Hs Hs'. unfold touch. destruct (Step.conflict s a); [|reflexivity].
  now apply keeps_conflicts.
Qed.

Lemma touch_all_untouched (steps : list (Step.t A)) (a : A) :
  (forall s, In s steps -> Step.conflict s a = false) -> touch_all steps a = a.
Proof.
  induction steps as [|s rest IH]; intros H; [reflexivity|].
  rewrite touch_all_cons, touch_no by (apply H; now left).
  apply IH. intros s' Hs'. apply H. now right.
Qed.

Lemma touch_all_absorbs (steps : list (Step.t A)) (s0 : Step.t A) (a : A) :
  good s0 -> Forall good steps -> Step.conflict s0 a = true ->
  (exists s, In s steps /\ Step.conflict s a = true) ->
  touch_all steps (Step.update s0 a) = touch_all steps a.
Proof.
  intros H0 Hg Hc0. revert a Hc0. induction Hg as [|s rest Hs Hrest IH]; intros a Hc0 (s' & Hin & Hc).
  - destruct Hin.
  - rewrite !touch_all_cons.
    destruct (Step.conflict s a) eqn:Hsa.
    + rewrite (touch_yes s a Hsa), touch_yes by (now rewrite keeps_conflicts).
      now rewrite (last_wins s0 s H0 Hs a Hc0 Hsa).
    + rewrite (touch_no s a Hsa), touch_no by (now rewrite keeps_conflicts).
      destruct Hin as [->|Hin]; [congruence|]. apply IH; eauto.
Qed.

Lemma run_step_untouched (s : Step.t A) (rows : list A) (a : A) :
  good s -> In a (run_step s rows) -> Step.conflict s a = false -> In a rows.
Proof.
  intros Hs Hin Hc. apply upsert_In in Hin as [(Hin & _)|[(b & Hb & Hcb & ->)|(-> & _)]].
  - exact Hin.
  - rewrite (keeps_conflicts s s Hs Hs) in Hc. congruence.
  - destruct (new_settled s Hs). congruence.
Qed.

Lemma run_steps_untouched (steps : list (Step.t A)) (rows : list A) (a : A) :
  Forall good steps -> In a (run_steps steps rows) ->
  (forall s, In s steps -> Step.conflict s a = false) -> In a rows.
Proof.
  intros Hg. revert rows. induction Hg as [|s rest Hs Hrest IH]; intros rows Hin Hc.
  - exact Hin.
  - rewrite run_steps_cons in Hin. apply IH in Hin; [|intros s' Hs'; apply Hc; now right].
    apply (run_step_untouched s); auto. apply Hc. now left.
Qed.

Lemma run_step_settled (s : Step.t A) (rows : list A) (a : A) :
  good s -> In a (run_step s rows) -> Step.conflict s a = true -> Step.update s a = a.
Proof.
  intros Hs Hin Hc. apply upsert_In in Hin as [(_ & Hf)|[(b & Hb & Hcb & ->)|(-> & _)]].
  - congruence.
  - now apply last_wins.
  - now apply new_settled.
Qed.

(** After a run, the updates of the run leave every row as it is. *)
Lemma run_steps_settled (steps : list (Step.t A)) (rows : list A) (a : A) :
  Forall good steps -> In a (run_steps steps rows) -> touch_all steps a = a.
Proof.
  intros Hg. revert rows. induction Hg as [|s rest Hs Hrest IH]; intros rows Hin.
  - reflexivity.
  - rewrite run_steps_cons in Hin. rewrite touch_all_cons.
    pose proof (IH _ Hin) as Ha.
    destruct (Step.conflict s a) eqn:Hsa; [|now rewrite touch_no].
    rewrite (touch_yes s a Hsa).
    destruct (existsb (fun s' => Step.conflict s' a) rest) eqn:He.
    + apply existsb_exists in He.
      now rewrite (touch_all_absorbs rest s a Hs Hrest Hsa He).
    + pose proof (proj1 (existsb_false_forall _ _) He) as Hno.
      rewrite touch_all_untouched.
      * apply (run_step_settled s rows); auto.
        apply (run_steps_untouched rest); auto.
      * intros s' Hs'. rewrite keeps_conflicts; auto.
        exact (proj1 (List.Forall_forall _ _) Hrest s' Hs').
Qed.

Lemma run_step_conflict (s s' : Step.t A) (rows : list A) :
  good s -> good s' ->
  (exists a, In a rows /\ Step.conflict s' a = true) ->
  exists a, In a (run_step s rows) /\ Step.conflict s' a = true.
Proof.
  intros Hs Hs' (a & Ha & Hc). unfold run_step, upsert.
  destruct (existsb _ rows).
  - exists (touch s a). split; [|now rewrite touch_conflict].
    apply in_map_iff. exists a. auto.
  - exists a. split; [apply in_or_app; now left | exact Hc].
Qed.

Lemma run_steps_conflict (steps : list (Step.t A)) (s' : Step.t A) (rows : list A) :
  Forall good steps -> good s' ->
  (exists a, In a rows /\ Step.conflict s' a = true) ->
  exists a, In a (run_steps steps rows) /\ Step.conflict s' a = true.
Proof.
  intros Hg Hs'. revert rows. induction Hg as [|s rest Hs Hrest IH]; intros rows H.
  - exact H.
  - rewrite run_steps_cons. apply IH. now apply run_step_conflict.
Qed.

(** After a run, every step of the run finds a conflicting row. *)
Lemma run_steps_found (steps : list (Step.t A)) (rows : list A) (s : Step.t A) :
  Forall good steps -> In s steps ->
  exists a, In a (run_steps steps rows) /\ Step.conflict s a = true.
Proof.
  intros Hg. revert rows. induction Hg as [|s0 rest Hs0 Hrest IH]; intros rows Hin.
  - destruct Hin.
  - rewrite run_steps_cons. destruct Hin as [->|Hin]; [|now apply IH].
    apply run_steps_conflict; auto.
    unfold run_step, upsert. destruct (existsb _ rows) eqn:He.
    + apply existsb_exists in He as (a & Ha & Hc). exists (touch s a).
      split; [apply in_map_iff; eauto|]. now rewrite touch_conflict.
    + exists (Step.new s). split; [apply in_or_app; right; now left|].
      now apply new_settled.
Qed.

(** Steps that all find a conflicting row only update. *)
Lemma run_steps_updates (steps : list (Step.t A)) (rows : list A) :
  Forall good steps ->
  (forall s, In s steps -> exists a, In a rows /\ Step.conflict s a = true) ->
  run_steps steps rows = map (touch_all steps) rows.
Proof.
  intros Hg. revert rows. induction Hg as [|s rest Hs Hrest IH]; intros rows H.
  - cbn. now rewrite map_id.
  - rewrite run_steps_cons.
    assert (E : run_step s rows = map (touch s) rows).
    { apply upsert_conflict, existsb_exists. apply H. now left. }
    rewrite E, IH, map_map; [reflexivity|].
    intros s' Hs'. destruct (H s' (or_intror Hs')) as (a & Ha & Hc).
    exists (touch s a). split; [now apply in_map|].
    rewrite touch_conflict; auto. exact (proj1 (List.Forall_forall _ _) Hrest s' Hs').
Qed.

Lemma touch_all_same_effect (steps steps' : list (Step.t A)) (a : A) :
  Forall2 same_effect steps steps' -> touch_all steps' a = touch_all steps a.
Proof.
  intros H. revert a. induction H as [|s s' rest rest' Hs _ IH]; intros a; [reflexivity|].
  rewrite !touch_all_cons, IH. f_equal. unfold touch. destruct (Hs a) as (-> & ->). reflexivity.
Qed.

(** Running a sequence of steps again, on what its first run left,
    changes nothing; the rows proposed the second time may be others. *)
Lemma run_steps_twice (steps steps' : list (Step.t A)) (rows : list A) :
  Forall good steps -> Forall good steps' -> Forall2 same_effect steps steps' ->
  run_steps steps' (run_steps steps rows) = run_steps steps rows.
Proof.
  intros Hg Hg' He.
  rewrite run_steps_updates; [|exact Hg'|].
  - apply map_id_on. intros a Ha.
    rewrite (touch_all_same_effect _ _ a He). now apply (run_steps_settled steps rows).
  - intros s' Hs'.
    destruct (Forall2_right_In _ _ _ _ He Hs') as (s & Hs & Hss).
    destruct (run_steps_found steps rows s Hg Hs) as (a & Ha & Hc).
    exists a. split; [exact Ha|]. destruct (Hss a) as (-> & _). exact Hc.
Qed.

End Upserts.

(** ** Listing ingestion over a whole file *)

Lemma seedListings_cons (record : ListingRecord.t) (rest : list ListingRecord.t) (d : DB) :
  seedListings (record :: rest) d = seedListings rest (seedListingsRecord record d).
Proof. reflexivity. Qed.

Lemma seedListings_steps (records : list ListingRecord.t) (d : DB) :
  listings (seedListings records d) = run_steps (listing_steps records d) (listings d).
Proof.
  revert d. induction records as [|record rest IH]; intros d; [reflexivity|].
  rewrite seedListings_cons, IH. reflexivity.
Qed.

(** [seedListings] writes [listings] and its sequence, nothing else, and
    draws one id per record. *)
Lemma seedListings_catalog (records : list ListingRecord.t) (d : DB) :
  makers (seedListings records d) = makers d
  /\ models (seedListings records d) = models d
  /\ sales (seedListings records d) = sales d
  /\ prices (seedListings records d) = prices d
  /\ makers_id_seq (seedListings records d) = makers_id_seq d
  /\ models_id_seq (seedListings records d) = models_id_seq d
  /\ listings_id_seq (seedListings records d)
     = (listings_id_seq d + Z.of_nat (length records))%Z.
Proof.
  revert d. induction records as [|record rest IH]; intros d.
  - cbn. repeat split. lia.
  - rewrite seedListings_cons.
    destruct (IH (seedListingsRecord record d)) as (-> & -> & -> & -> & -> & -> & ->).
    cbn [seedListingsRecord with_listings makers models sales prices makers_id_seq
         models_id_seq listings_id_seq length].
    repeat split. lia.
Qed.

(** The matcher reads the catalog only. *)
Lemma match_model_catalog (d d' : DB) (mm : MakeModel) :
  makers d' = makers d -> models d' = models d -> match_model d' mm = match_model d mm.
Proof.
  intros E1 E2. unfold match_model, find_maker, find_model. now rewrite E1, E2.
Qed.

Lemma listing_steps_same_effect (records : list ListingRecord.t) (d d' : DB) :
  makers d' = makers d -> models d' = models d ->
  Forall2 same_effect (listing_steps records d) (listing_steps records d').
Proof.
  revert d d'. induction records as [|record rest IH]; intros d d' E1 E2; [constructor|].
  cbn [listing_steps]. constructor.
  - intros a. split; [reflexivity|].
    cbn [listing_step Step.update]. unfold on_conflict_url, new_listing. cbn.
    now rewrite (match_model_catalog d d' _ E1 E2).
  - apply IH; cbn; assumption.
Qed.

Lemma listing_steps_good (records : list ListingRecord.t) (d : DB) :
  Forall (fun record => truthy (ListingRecord.url record) = true) records ->
  Forall listing_good_step (listing_steps records d).
Proof.
  intros H. revert d. induction H as [|record rest Hr _ IH]; intros d; [constructor|].
  cbn [listing_steps]. constructor; [|apply IH].
  destruct (ListingRecord.url record) as [u|] eqn:E; [|discriminate].
  exists (new_listing d record), u. split; [reflexivity|].
  cbn. unfold or_null. now rewrite E, Hr.
Qed.

Lemma listing_keeps_conflicts (s s' : Step.t Listing.t) :
  listing_good_step s -> listing_good_step s' ->
  forall a, Step.conflict s' (Step.update s a) = Step.conflict s' a.
Proof. intros (e & u & -> & _) (e' & u' & -> & _) a. reflexivity. Qed.

Lemma listing_last_wins (s s' : Step.t Listing.t) :
  listing_good_step s -> listing_good_step s' ->
  forall a, Step.conflict s a = true -> Step.conflict s' a = true ->
            Step.update s' (Step.update s a) = Step.update s' a.
Proof. intros (e & u & -> & _) (e' & u' & -> & _) a _ _. reflexivity. Qed.

Lemma listing_new_settled (s : Step.t Listing.t) :
  listing_good_step s ->
  Step.conflict s (Step.new s) = true /\ Step.update s (Step.new s) = Step.new s.
Proof.
  intros (e & u & -> & E). cbn. unfold same_url. rewrite E. split.
  - apply String.eqb_refl.
  - now destruct e.
Qed.

(** X7.  Re-running [seedListings] on the same file is harmless when
    every record has a url: the second run leaves every row of
    [listings] exactly as the first run left it, and adds none.  Only
    the sequence moves on, by one value per record. *)
Theorem seedListings_idempotent (records : list ListingRecord.t) (d : DB) :
  Forall (fun record => truthy (ListingRecord.url record) = true) records ->
  let d1 := seedListings records d in
  let d2 := seedListings records d1 in
  listings d2 = listings d1
  /\ listings_id_seq d2 = (listings_id_seq d1 + Z.of_nat (length records))%Z.
Proof.
  intros Hurl d1 d2. split; [|apply seedListings_catalog].
  unfold d2, d1. rewrite (seedListings_steps records (seedListings records d)).
  rewrite (seedListings_steps records d).
  destruct (seedListings_catalog records d) as (E1 & E2 & _).
  apply (run_steps_twice listing_good_step
           listing_keeps_conflicts listing_last_wins listing_new_settled).
  - now apply listing_steps_good.
  - now apply listing_steps_good.
  - now apply listing_steps_same_effect.
Qed.

Lemma seedListings_idempotent_witness :
  let d1 := seedListings sample_listings empty_db in
  let d2 := seedListings sample_listings d1 in
  listings d2 = listings d1
  /\ map Listing.id (listings d1) = [1; 2]%Z
  /\ map Listing.price_eur (listings d1) = [Some 17000%Q; Some 25000%Q]
  /\ listings_id_seq d1 = 4%Z /\ listings_id_seq d2 = 7%Z.
Proof.
  intros d1 d2. split; [|repeat split; vm_compute; reflexivity].
  apply (seedListings_idempotent sample_listings empty_db).
  repeat constructor.
Defined.

(** X8.  A record without a url never meets a conflict.  A file of such
    records is appended to [listings] whole, one row per record, by
    every run; the rows that were there stay as they are. *)
Theorem seedListings_without_url (records : list ListingRecord.t) (d : DB) :
  Forall (fun record => truthy (ListingRecord.url record) = false) records ->
  exists added,
    listings (seedListings records d) = listings d ++ added
    /\ length added = length records
    /\ Forall (fun l => Listing.url l = None) added.
Proof.
  intros H. revert d. induction H as [|record rest Hr _ IH]; intros d.
  - exists []. cbn. now rewrite app_nil_r.
  - rewrite seedListings_cons.
    destruct (IH (seedListingsRecord record d)) as (added & E & Hlen & Hall).
    assert (Hu : Listing.url (new_listing d record) = None).
    { cbn. unfold or_null. now rewrite Hr. }
    assert (E1 : listings (seedListingsRecord record d)
                 = listings d ++ [new_listing d record]).
    { cbn [seedListingsRecord with_listings listings]. apply upsert_fresh.
      apply existsb_false_forall. intros l _. unfold same_url. now rewrite Hu. }
    exists (new_listing d record :: added). split; [|split].
    + rewrite E, E1, <- app_assoc. reflexivity.
    + cbn. now rewrite Hlen.
    + now constructor.
Qed.

Lemma seedListings_without_url_witness :
  let file := [no_url_listing "Skoda Octavia" 18000] in
  map Listing.id (listings (seedListings file (seedListings file empty_db))) = [1; 2]%Z.
Proof.
  intros file.
  destruct (seedListings_without_url file (seedListings file empty_db))
    as (added & E & Hlen & _).
  - repeat constructor.
  - rewrite E. destruct added as [|l [|? ?]]; try discriminate.
    vm_compute in E. injection E as <-. reflexivity.
Defined.

(** *** What a run never touches *)

Lemma seedListingsRecord_kept (record : ListingRecord.t) (d : DB) :
  exists added,
    map kept_columns (listings (seedListingsRecord record d))
    = map kept_columns (listings d) ++ added
    /\ (length added <= 1)%nat.
Proof.
  cbn [seedListingsRecord with_listings listings]. unfold upsert.
  destruct (existsb _ (listings d)).
  - exists []. rewrite app_nil_r. split; [|cbn; lia].
    apply map_update_inv. reflexivity.
  - eexists [_]. rewrite map_app. split; [reflexivity | cbn; lia].
Qed.

(** X9.  [seedListings] only ever writes [listings] and draws from its
    sequence, one value per record whether the record is inserted or
    not.  The rows that were stored stay where they are and keep their
    id, url, currency, location, description, images, specs,
    extracted_make and extracted_model; at most one row per record is
    added behind them. *)
Theorem seedListings_frame (records : list ListingRecord.t) (d : DB) :
  (makers (seedListings records d) = makers d
   /\ models (seedListings records d) = models d
   /\ sales (seedListings records d) = sales d
   /\ prices (seedListings records d) = prices d
   /\ makers_id_seq (seedListings records d) = makers_id_seq d
   /\ models_id_seq (seedListings records d) = models_id_seq d)
  /\ listings_id_seq (seedListings records d)
     = (listings_id_seq d + Z.of_nat (length records))%Z
  /\ exists added,
       map kept_columns (listings (seedListings records d))
       = map kept_columns (listings d) ++ added
       /\ (length added <= length records)%nat.
Proof.
  destruct (seedListings_catalog records d) as (E1 & E2 & E3 & E4 & E5 & E6 & E7).
  split; [auto 10|]. split; [exact E7|]. clear.
  revert d. induction records as [|record rest IH]; intros d.
  - exists []. cbn. now rewrite app_nil_r.
  - rewrite seedListings_cons.
    destruct (IH (seedListingsRecord record d)) as (added & E & Hlen).
    destruct (seedListingsRecord_kept record d) as (added1 & E1 & Hlen1).
    exists (added1 ++ added). split.
    + rewrite E, E1, app_assoc. reflexivity.
    + rewrite length_app. cbn. lia.
Qed.

(** *** The constraints of [listings] *)

Lemma match_model_sound (d : DB) (mm : MakeModel) (i : Z) :
  match_model d mm = Some i ->
  exists mk mo maker m,
    make mm = Some mk /\ model mm = Some mo /\ mk <> "" /\ mo <> ""
    /\ In maker (makers d) /\ Text.ilike (txt mk) (txt (Maker.name maker)) = true
    /\ In m (models d) /\ Model.id m = i /\ Model.maker_id m = Maker.id maker
    /\ Text.ilike (model_pattern mo) (txt (Model.name m)) = true.
Proof.
  unfold match_model, find_maker, find_model.
  destruct (make mm) as [mk|]; [|discriminate].
  destruct (model mm) as [mo|]; [|discriminate].
  destruct (truthy (Some mk)) eqn:T1; [|discriminate].
  destruct (truthy (Some mo)) eqn:T2; [|discriminate]. cbn [andb].
  destruct (find _ (makers d)) as [maker|] eqn:Hf; [|discriminate]. cbn [option_map].
  destruct (find _ (models d)) as [m|] eqn:Hg; [|discriminate]. cbn [option_map].
  intros [= <-].
  apply find_some in Hf as (Hmaker & Hlike).
  apply find_some in Hg as (Hm & Hc). apply andb_true_iff in Hc as (Hid & Hlike').
  apply Z.eqb_eq in Hid.
  exists mk, mo, maker, m. repeat split; try assumption.
  - intros ->. discriminate.
  - intros ->. discriminate.
Qed.

Lemma stored_urls_app (rows : list Listing.t) (l : Listing.t) :
  flat_map (fun l => match Listing.url l with Some u => [u] | None => [] end) (rows ++ [l])
  = flat_map (fun l => match Listing.url l with Some u => [u] | None => [] end) rows
    ++ match Listing.url l with Some u => [u] | None => [] end.
Proof. rewrite flat_map_app. cbn. now rewrite app_nil_r. Qed.

Lemma stored_urls_update (excluded : Listing.t) (rows : list Listing.t) :
  flat_map (fun l => match Listing.url l with Some u => [u] | None => [] end)
    (map (fun a => if same_url (Listing.url excluded) a
                   then on_conflict_url excluded a else a) rows)
  = flat_map (fun l => match Listing.url l with Some u => [u] | None => [] end) rows.
Proof.
  induction rows as [|a r IH]; cbn [map flat_map]; [reflexivity|].
  rewrite IH. f_equal. now destruct (same_url _ a).
Qed.

Lemma seedListingsRecord_ok (record : ListingRecord.t) (d : DB) :
  listings_ok d -> listings_ok (seedListingsRecord record d).
Proof.
  intros [Hid Hseq Hurl Hfk].
  set (e := new_listing d record).
  assert (Hmodel : forall i, Listing.model_id e = Some i -> In i (map Model.id (models d))).
  { intros i Hi. cbn in Hi. apply match_model_sound in Hi
      as (_ & _ & _ & m & _ & _ & _ & _ & _ & _ & Hm & <- & _).
    now apply in_map. }
  destruct (existsb (same_url (Listing.url e)) (listings d)) eqn:He.
  - assert (E : listings (seedListingsRecord record d)
                = map (fun a => if same_url (Listing.url e) a
                                then on_conflict_url e a else a) (listings d)).
    { cbn [seedListingsRecord with_listings listings]. now apply upsert_conflict. }
    split.
    + rewrite E, map_update_inv; [exact Hid | reflexivity].
    + rewrite E. intros l Hl. apply in_map_iff in Hl as (a & <- & Ha).
      cbn [seedListingsRecord with_listings listings_id_seq].
      specialize (Hseq a Ha). destruct (same_url _ a); cbn; lia.
    + unfold stored_urls. rewrite E, stored_urls_update. exact Hurl.
    + rewrite E. intros l i Hl Hi. apply in_map_iff in Hl as (a & <- & Ha).
      cbn [seedListingsRecord with_listings models].
      destruct (same_url _ a); [now apply Hmodel | eapply Hfk; eauto].
  - assert (E : listings (seedListingsRecord record d) = listings d ++ [e]).
    { cbn [seedListingsRecord with_listings listings]. now apply upsert_fresh. }
    pose proof (proj1 (existsb_false_forall _ _) He) as Hfresh.
    split.
    + rewrite E, map_app. cbn [map].
      apply NoDup_ListNoDup, NoDup_app. split; [now apply NoDup_ListNoDup|]. split.
      * intros i Hin Hi. apply list_elem_of_In in Hi. destruct Hi as [<-|[]].
        apply list_elem_of_In, in_map_iff in Hin as (a & Ea & Ha).
        specialize (Hseq a Ha). cbn in Ea. lia.
      * apply NoDup_ListNoDup. repeat constructor. intros [].
    + rewrite E. intros l Hl. cbn [seedListingsRecord with_listings listings_id_seq].
      apply in_app_or in Hl as [Hl|[<-|[]]]; [specialize (Hseq l Hl); lia | cbn; lia].
    + unfold stored_urls. rewrite E, stored_urls_app.
      destruct (Listing.url e) as [u|] eqn:Eu; [|now rewrite app_nil_r].
      apply NoDup_ListNoDup, NoDup_app. split; [now apply NoDup_ListNoDup|]. split.
      * intros u' Hin Hu. apply list_elem_of_In in Hu. destruct Hu as [<-|[]].
        apply list_elem_of_In, in_flat_map in Hin as (a & Ha & Hua).
        specialize (Hfresh a Ha). unfold same_url in Hfresh.
        destruct (Listing.url a) as [v|]; [|destruct Hua].
        destruct Hua as [->|[]]. now rewrite String.eqb_refl in Hfresh.
      * apply NoDup_ListNoDup. repeat constructor. intros [].
    + rewrite E. intros l i Hl Hi. cbn [seedListingsRecord with_listings models].
      apply in_app_or in Hl as [Hl|[<-|[]]]; [eapply Hfk; eauto | now apply Hmodel].
Qed.

(** X10.  [seedListings] respects the constraints of [listings].  If,
    before a run, ids are unique and below the next value of the
    sequence, no url is stored twice and every [model_id] is the id of a
    model row, the same holds after the run: an id drawn for a record
    that met a conflict is never reused, and the matcher only returns
    ids of stored models. *)
Theorem seedListings_keeps_constraints (records : list ListingRecord.t) (d : DB) :
  listings_ok d -> listings_ok (seedListings records d).
Proof.
  revert d. induction records as [|record rest IH]; intros d H; [exact H|].
  rewrite seedListings_cons. apply IH. now apply seedListingsRecord_ok.
Qed.

Lemma seedListings_keeps_constraints_witness : listings_ok sample_db.
Proof.
  apply (seedListings_keeps_constraints _ (db (seedCatalog [] sample_prices (start empty_db)))).
  split; cbn.
  - constructor.
  - intros l [].
  - constructor.
  - intros l i [].
Defined.

(** ** The constraints of the catalog tables are kept *)

Section KeyedUpsert.
Context {A K : Type} (key : A -> K) (conflict : A -> bool) (update : A -> A) (new : A).
Hypothesis conflict_key : forall a, conflict a = true <-> key a = key new.
Hypothesis update_key : forall a, key (update a) = key a.

Lemma upsert_keys (rows : list A) :
  map key (upsert conflict update new rows)
  = map key rows ++ (if existsb conflict rows then [] else [key new]).
Proof.
  unfold upsert. destruct (existsb conflict rows).
  - rewrite app_nil_r. now apply map_update_inv.
  - now rewrite map_app.
Qed.

Lemma upsert_keys_NoDup (rows : list A) :
  List.NoDup (map key rows) -> List.NoDup (map key (upsert conflict update new rows)).
Proof.
  intros H. rewrite upsert_keys. destruct (existsb conflict rows) eqn:He.
  - now rewrite app_nil_r.
  - pose proof (proj1 (existsb_false_forall _ _) He) as Hfresh.
    apply NoDup_ListNoDup, NoDup_app. split; [now apply NoDup_ListNoDup|]. split.
    + intros k Hin Hk. apply list_elem_of_In in Hk. destruct Hk as [<-|[]].
      apply list_elem_of_In, in_map_iff in Hin as (a & Ea & Ha).
      apply conflict_key in Ea. rewrite (Hfresh a Ha) in Ea. discriminate.
    + apply NoDup_ListNoDup. repeat constructor. intros [].
Qed.

Lemma upsert_keys_incl (rows : list A) (k : K) :
  In k (map key rows) -> In k (map key (upsert conflict update new rows)).
Proof. intros H. rewrite upsert_keys. apply in_or_app. now left. Qed.

End KeyedUpsert.

Lemma sale_conflict_key (modelId year units : Z) (r : Sale.t) :
  (Sale.model_id r =? modelId)%Z && (Sale.year r =? year)%Z = true
  <-> sale_key r
      = sale_key {| Sale.model_id := modelId; Sale.year := year; Sale.units := units |}.
Proof.
  unfold sale_key. cbn. rewrite andb_true_iff, !Z.eqb_eq. split; [intros (-> & ->)|intros [= -> ->]]; auto.
Qed.

Lemma price_conflict_key (modelId year : Z) (e1 e2 : option Q) (r : Price.t) :
  (Price.model_id r =? modelId)%Z && (Price.year r =? year)%Z = true
  <-> price_key r
      = price_key {| Price.model_id := modelId; Price.year := year;
                     Price.entry_price := e1; Price.entry_price_eur := e2 |}.
Proof.
  unfold price_key. cbn. rewrite andb_true_iff, !Z.eqb_eq. split; [intros (-> & ->)|intros [= -> ->]]; auto.
Qed.

Lemma insert_sale_ok (modelId year units : Z) (d : DB) :
  catalog_ok d -> In modelId (map Model.id (models d)) ->
  catalog_ok (insert_sale modelId year units d).
Proof.
  intros [H1 H2 H3 H4 H5 H6 H7 H8 H9 H10 H11] Hm.
  split; try assumption; cbn [insert_sale with_sales sales models].
  - apply (upsert_keys_NoDup sale_key); [apply sale_conflict_key | reflexivity | exact H8].
  - intros r Hr. apply upsert_In in Hr as [(Hr & _)|[(b & Hb & _ & ->)|(-> & _)]].
    + now apply H9.
    + cbn. now apply H9.
    + exact Hm.
Qed.

Lemma insert_price_ok (modelId year : Z) (e1 e2 : option Q) (d : DB) :
  catalog_ok d -> In modelId (map Model.id (models d)) ->
  catalog_ok (insert_price modelId year e1 e2 d).
Proof.
  intros [H1 H2 H3 H4 H5 H6 H7 H8 H9 H10 H11] Hm.
  split; try assumption; cbn [insert_price with_prices prices models].
  - apply (upsert_keys_NoDup price_key); [apply price_conflict_key | reflexivity | exact H10].
  - intros r Hr. apply upsert_In in Hr as [(Hr & _)|[(b & Hb & _ & ->)|(-> & _)]].
    + now apply H11.
    + cbn. now apply H11.
    + exact Hm.
Qed.

Lemma NoDup_snoc_fresh {A} (l : list A) (x : A) :
  List.NoDup l -> ~ In x l -> List.NoDup (l ++ [x]).
Proof.
  intros H Hx. apply NoDup_ListNoDup, NoDup_app. split; [now apply NoDup_ListNoDup|]. split.
  - intros y Hin Hy. apply list_elem_of_In in Hy. destruct Hy as [<-|[]].
    now apply list_elem_of_In in Hin.
  - apply NoDup_ListNoDup. repeat constructor. intros [].
Qed.

Lemma insert_maker_ok (name : string) (d : DB) :
  catalog_ok d ->
  catalog_ok (snd (insert_maker name d))
  /\ incl (makers d) (makers (snd (insert_maker name d)))
  /\ exists m, In m (makers (snd (insert_maker name d)))
               /\ Maker.id m = fst (insert_maker name d) /\ Maker.name m = name.
Proof.
  intros [H1 H2 H3 H4 H5 H6 H7 H8 H9 H10 H11].
  destruct (insert_maker_cases name d H3) as [(m & Hm & Hn & ->)|(Hfresh & ->)];
    cbn [fst snd].
  - split; [|split; [apply incl_refl | eauto]].
    split; try assumption; cbn [with_makers makers makers_id_seq].
    intros m' Hm'. specialize (H2 m' Hm'). lia.
  - split; [|split; [apply incl_appl, incl_refl|]].
    + split; try assumption; cbn [with_makers makers makers_id_seq models].
      * rewrite map_app. apply NoDup_snoc_fresh; [exact H1|]. cbn.
        intros Hin. apply in_map_iff in Hin as (m & Em & Hm). specialize (H2 m Hm). lia.
      * intros m Hm. apply in_app_or in Hm as [Hm|[<-|[]]]; [specialize (H2 m Hm); lia | cbn; lia].
      * rewrite map_app. apply NoDup_snoc_fresh; [exact H3|]. cbn.
        intros Hin. apply in_map_iff in Hin as (m & Em & Hm). exact (Hfresh m Hm Em).
      * intros m Hm. rewrite map_app. apply in_or_app. left. now apply H7.
    + eexists. split; [apply in_or_app; right; now left|]. split; reflexivity.
Qed.

Lemma insert_model_ok (makerId : Z) (name genmodelId : string) (d : DB) :
  catalog_ok d -> In makerId (map Maker.id (makers d)) ->
  catalog_ok (snd (insert_model makerId name genmodelId d))
  /\ incl (model_rows d) (model_rows (snd (insert_model makerId name genmodelId d)))
  /\ In (fst (insert_model makerId name genmodelId d), makerId, genmodelId)
        (model_rows (snd (insert_model makerId name genmodelId d))).
Proof.
  intros [H1 H2 H3 H4 H5 H6 H7 H8 H9 H10 H11] Hmk.
  set (conflict := fun m : Model.t =>
                     (Model.maker_id m =? makerId)%Z
                     && String.eqb (Model.genmodel_id m) genmodelId).
  set (update := fun m : Model.t =>
                   {| Model.id := Model.id m; Model.maker_id := Model.maker_id m;
                      Model.name := name; Model.genmodel_id := Model.genmodel_id m |}).
  assert (Hconf : forall m, conflict m = true <->
                            Model.maker_id m = makerId /\ Model.genmodel_id m = genmodelId).
  { intros m. unfold conflict. rewrite andb_true_iff, Z.eqb_eq, String.eqb_eq. tauto. }
  pose proof (insert_model_shape makerId name genmodelId d) as Hshape.
  unfold insert_model in *. cbn [fst snd] in *. fold conflict update in Hshape |- *.
  destruct (existsb conflict (models d)) eqn:He.
  - assert (E : upsert conflict update
                  {| Model.id := models_id_seq d; Model.maker_id := makerId;
                     Model.name := name; Model.genmodel_id := genmodelId |} (models d)
                = map (fun m => if conflict m then update m else m) (models d))
      by (now apply upsert_conflict).
    rewrite E in *.
    assert (Hview : forall {B} (f : Model.t -> B), (forall m, f (update m) = f m) ->
              map f (map (fun m => if conflict m then update m else m) (models d))
              = map f (models d)).
    { intros B f Hf. now apply map_update_inv. }
    destruct Hshape as [(m & Hm & Hmid & Hgid & Hfst & Hrows)|(Hfresh & _)].
    + split; [|split].
      * split; try assumption; cbn [with_models makers models models_id_seq sales prices].
        -- rewrite Hview by reflexivity. exact H4.
        -- intros m' Hm'. apply in_map_iff in Hm' as (m0 & <- & Hm0).
           specialize (H5 m0 Hm0). destruct (conflict m0); cbn; lia.
        -- rewrite Hview by reflexivity. exact H6.
        -- intros m' Hm'. apply in_map_iff in Hm' as (m0 & <- & Hm0).
           specialize (H7 m0 Hm0). now destruct (conflict m0).
        -- intros r Hr. rewrite Hview by reflexivity. now apply H9.
        -- intros r Hr. rewrite Hview by reflexivity. now apply H11.
      * rewrite Hrows. apply incl_refl.
      * rewrite Hrows, Hfst. apply model_rows_In. eauto.
    + apply existsb_exists in He as (m & Hm & Hc). apply Hconf in Hc.
      destruct (Hfresh m Hm Hc).
  - assert (E : upsert conflict update
                  {| Model.id := models_id_seq d; Model.maker_id := makerId;
                     Model.name := name; Model.genmodel_id := genmodelId |} (models d)
                = models d ++ [{| Model.id := models_id_seq d; Model.maker_id := makerId;
                                  Model.name := name; Model.genmodel_id := genmodelId |}])
      by (now apply upsert_fresh).
    rewrite E in *.
    pose proof (proj1 (existsb_false_forall _ _) He) as Hfresh.
    rewrite (proj2 (find_none_iff _ _) Hfresh).
    split; [|split].
    + split; try assumption; cbn [with_models makers models models_id_seq sales prices].
      * rewrite map_app. apply NoDup_snoc_fresh; [exact H4|]. cbn.
        intros Hin. apply in_map_iff in Hin as (m & Em & Hm). specialize (H5 m Hm). lia.
      * intros m Hm. apply in_app_or in Hm as [Hm|[<-|[]]]; [specialize (H5 m Hm); lia | cbn; lia].
      * rewrite map_app. apply NoDup_snoc_fresh; [exact H6|]. cbn.
        intros Hin. apply in_map_iff in Hin as (m & Em & Hm).
        assert (Hc : conflict m = true) by (apply Hconf; now injection Em).
        rewrite (Hfresh m Hm) in Hc. discriminate.
      * intros m Hm. apply in_app_or in Hm as [Hm|[<-|[]]]; [now apply H7 | exact Hmk].
      * intros r Hr. rewrite map_app. apply in_or_app. left. now apply H9.
      * intros r Hr. rewrite map_app. apply in_or_app. left. now apply H11.
    + unfold model_rows. cbn [with_models models]. rewrite map_app. apply incl_appl, incl_refl.
    + unfold model_rows. cbn [with_models models]. rewrite map_app.
      apply in_or_app. right. now left.
Qed.

Lemma getMakerId_ok (makerName : string) (s : Seeder) :
  catalog_ok (db s) -> caches_ok s ->
  catalog_ok (db (snd (getMakerId makerName s)))
  /\ caches_ok (snd (getMakerId makerName s))
  /\ In (fst (getMakerId makerName s))
        (map Maker.id (makers (db (snd (getMakerId makerName s))))).
Proof.
  intros Hcat [Hmk Hmo]. unfold getMakerId. cbv zeta.
  destruct (makerCache s !! toUpperCase (trim makerName)) as [id|] eqn:Ec; cbn [fst snd].
  - split; [exact Hcat|]. split; [now split|].
    destruct (Hmk _ _ Ec) as (m & Hm & <- & _). now apply in_map.
  - destruct (insert_maker_ok (trim makerName) (db s) Hcat) as (Hcat' & Hincl & m & Hm & Hid & Hn).
    pose proof (insert_maker_models (trim makerName) (db s)) as Hmodels.
    destruct (insert_maker (trim makerName) (db s)) as [id d'] eqn:E.
    cbn [fst snd db makerCache modelCache] in *.
    split; [exact Hcat'|]. split; [|rewrite <- Hid; now apply in_map].
    split; cbn [db makerCache modelCache].
    + intros key i Hi.
      destruct (decide (key = toUpperCase (trim makerName))) as [->|Hne].
      * rewrite lookup_insert_eq in Hi. injection Hi as <-.
        exists m. rewrite Hn. auto.
      * rewrite lookup_insert_ne in Hi by congruence.
        destruct (Hmk _ _ Hi) as (m' & Hm' & H1 & H2). exists m'. auto.
    + intros makerId genmodelId i Hi. unfold model_rows. rewrite Hmodels.
      now apply Hmo.
Qed.

Lemma getModelId_ok (makerId : Z) (modelName genmodelId : string) (s : Seeder) :
  catalog_ok (db s) -> caches_ok s -> In makerId (map Maker.id (makers (db s))) ->
  catalog_ok (db (snd (getModelId makerId modelName genmodelId s)))
  /\ caches_ok (snd (getModelId makerId modelName genmodelId s))
  /\ In (fst (getModelId makerId modelName genmodelId s))
        (map Model.id (models (db (snd (getModelId makerId modelName genmodelId s))))).
Proof.
  intros Hcat [Hmk Hmo] Hin. unfold getModelId. cbv zeta.
  assert (Hids : forall d i mid gid, In (i, mid, gid) (model_rows d) ->
                                     In i (map Model.id (models d))).
  { intros d i mid gid H. apply model_rows_In in H as (m & Hm & <- & _). now apply in_map. }
  destruct (modelCache s !! (makerId, genmodelId)) as [id|] eqn:Ec; cbn [fst snd].
  - split; [exact Hcat|]. split; [now split|]. eapply Hids, Hmo, Ec.
  - destruct (insert_model_ok makerId (trim modelName) (trim genmodelId) (db s) Hcat Hin)
      as (Hcat' & Hincl & Hrow).
    pose proof (insert_model_makers makerId (trim modelName) (trim genmodelId) (db s))
      as Hmakers.
    destruct (insert_model makerId (trim modelName) (trim genmodelId) (db s))
      as [id d'] eqn:E.
    cbn [fst snd db makerCache modelCache] in *.
    split; [exact Hcat'|]. split; [|eapply Hids, Hrow].
    split; cbn [db makerCache modelCache].
    + intros key i Hi. rewrite Hmakers. now apply Hmk.
    + intros mid gid i Hi.
      destruct (decide ((mid, gid) = (makerId, genmodelId))) as [[= -> ->]|Hne].
      * rewrite lookup_insert_eq in Hi. injection Hi as <-. exact Hrow.
      * rewrite lookup_insert_ne in Hi by congruence. apply Hincl. now apply Hmo.
Qed.

Lemma on_db_ok (f : DB -> DB) (s : Seeder) :
  catalog_ok (f (db s)) -> makers (f (db s)) = makers (db s) ->
  models (f (db s)) = models (db s) -> caches_ok s ->
  caches_ok (on_db f s).
Proof.
  intros _ E1 E2 [Hmk Hmo]. split; cbn [on_db db makerCache modelCache].
  - rewrite E1. exact Hmk.
  - unfold model_rows. rewrite E2. exact Hmo.
Qed.

Lemma sales_loop_ok (modelId : Z) (units : Z -> option Z) (years : list Z) (s : Seeder) :
  catalog_ok (db s) -> caches_ok s -> In modelId (map Model.id (models (db s))) ->
  let s' := fold_left (fun s year => on_db (insert_sale modelId year (default 0%Z (units year))) s)
              years s in
  catalog_ok (db s') /\ caches_ok s'.
Proof.
  revert s. induction years as [|year rest IH]; intros s Hcat Hc Hm; [now split|].
  cbn [fold_left]. apply IH.
  - now apply insert_sale_ok.
  - apply on_db_ok; auto. now apply insert_sale_ok.
  - exact Hm.
Qed.

Lemma seedSalesRecord_ok (record : SalesRecord.t) (s : Seeder) :
  catalog_ok (db s) -> caches_ok s ->
  catalog_ok (db (seedSalesRecord record s)) /\ caches_ok (seedSalesRecord record s).
Proof.
  intros Hcat Hc. rewrite seedSalesRecord_eq. cbv zeta.
  destruct (getMakerId_ok (SalesRecord.Maker record) s Hcat Hc) as (Hcat1 & Hc1 & Hmk).
  destruct (getModelId_ok _ (SalesRecord.Genmodel record) (SalesRecord.Genmodel_ID record)
              _ Hcat1 Hc1 Hmk) as (Hcat2 & Hc2 & Hmo).
  now apply sales_loop_ok.
Qed.

Lemma seedPricesRecord_ok (record : PriceRecord.t) (s : Seeder) :
  catalog_ok (db s) -> caches_ok s ->
  catalog_ok (db (seedPricesRecord record s)) /\ caches_ok (seedPricesRecord record s).
Proof.
  intros Hcat Hc. rewrite seedPricesRecord_eq.
  destruct (price_record_names record) as [[[makerName modelName] genmodelId]|];
    [|now split].
  cbv zeta.
  destruct (getMakerId_ok makerName s Hcat Hc) as (Hcat1 & Hc1 & Hmk).
  destruct (getModelId_ok _ modelName genmodelId _ Hcat1 Hc1 Hmk) as (Hcat2 & Hc2 & Hmo).
  destruct (PriceRecord.Year record) as [year|]; [|now split].
  destruct (year =? 0)%Z; [now split|].
  split; [now apply insert_price_ok|].
  apply on_db_ok; auto. now apply insert_price_ok.
Qed.

Lemma fold_ok {X} (step : X -> Seeder -> Seeder) (xs : list X) (s : Seeder) :
  (forall x s, catalog_ok (db s) -> caches_ok s ->
               catalog_ok (db (step x s)) /\ caches_ok (step x s)) ->
  catalog_ok (db s) -> caches_ok s ->
  catalog_ok (db (fold_left (fun s x => step x s) xs s))
  /\ caches_ok (fold_left (fun s x => step x s) xs s).
Proof.
  intros H. revert s. induction xs as [|x rest IH]; intros s Hcat Hc; [now split|].
  cbn [fold_left]. destruct (H x s Hcat Hc). now apply IH.
Qed.

Lemma start_caches_ok (d : DB) : caches_ok (start d).
Proof. split; cbn; intros; discriminate. Qed.

(** X11.  Catalog ingestion respects what [initSchema] declares.  In a
    process whose caches hold ids of stored rows (a process that has
    just started, for one), if the primary keys, the [UNIQUE]
    constraints and the foreign keys of [makers], [models], [sales] and
    [prices] hold before [seedSales] and [seedPrices] run, they hold
    afterwards: no id is issued twice, although a sequence moves on when
    an insert meets a conflict, and a model, a sale or a price is only
    written under the id of a stored maker or model. *)
Theorem seedCatalog_keeps_constraints (sales_file : list SalesRecord.t)
    (price_file : list PriceRecord.t) (s : Seeder) :
  catalog_ok (db s) -> caches_ok s ->
  catalog_ok (db (seedCatalog sales_file price_file s))
  /\ caches_ok (seedCatalog sales_file price_file s).
Proof.
  intros Hcat Hc. unfold seedCatalog, seedPrices, seedSales.
  destruct (fold_ok (fun record s => seedSalesRecord record s) sales_file s
              seedSalesRecord_ok Hcat Hc) as (Hcat1 & Hc1).
  exact (fold_ok (fun record s => seedPricesRecord record s) price_file _
           seedPricesRecord_ok Hcat1 Hc1).
Qed.

Lemma empty_db_ok : catalog_ok empty_db.
Proof. split; cbn; try constructor; intros ? []. Qed.

Lemma seedCatalog_keeps_constraints_witness :
  catalog_ok (db (seedCatalog [sales_record "Ford" "Focus" "29_1"] sample_prices
                    (start empty_db))).
Proof.
  apply (seedCatalog_keeps_constraints _ _ (start empty_db)).
  - exact empty_db_ok.
  - apply start_caches_ok.
Defined.

(** ** What a record leaves in [sales] and [prices] *)

Lemma insert_sale_rows (modelId year units : Z) (d : DB) (r : Sale.t) :
  In r (sales (insert_sale modelId year units d)) <->
  (In r (sales d) /\ sale_key r <> (modelId, year))
  \/ r = {| Sale.model_id := modelId; Sale.year := year; Sale.units := units |}.
Proof.
  cbn [insert_sale with_sales sales].
  set (conflict := fun r : Sale.t => (Sale.model_id r =? modelId)%Z && (Sale.year r =? year)%Z).
  set (new := {| Sale.model_id := modelId; Sale.year := year; Sale.units := units |}).
  assert (Hc : forall a, conflict a = true <-> sale_key a = (modelId, year)).
  { intros a. apply (sale_conflict_key modelId year units). }
  assert (Hn : forall a, conflict a = false <-> sale_key a <> (modelId, year)).
  { intros a. rewrite <- Hc. destruct (conflict a); split; congruence. }
  assert (Hu : forall a, conflict a = true ->
                 {| Sale.model_id := Sale.model_id a; Sale.year := Sale.year a;
                    Sale.units := units |} = new).
  { intros a Ha. apply Hc in Ha. unfold sale_key in Ha. injection Ha as -> ->. reflexivity. }
  split.
  - intros H. apply upsert_In in H as [(H & Hf)|[(b & Hb & Hcb & ->)|(-> & _)]].
    + left. split; [exact H | now apply Hn].
    + right. now apply Hu.
    + now right.
  - unfold upsert. destruct (existsb conflict (sales d)) eqn:He.
    + intros [(H & Hk)| ->].
      * apply in_map_iff. exists r. apply Hn in Hk. rewrite Hk. auto.
      * apply existsb_exists in He as (b & Hb & Hcb).
        apply in_map_iff. exists b. rewrite Hcb. split; [now apply Hu | exact Hb].
    + intros [(H & _)| ->]; apply in_or_app; [now left | right; now left].
Qed.

Lemma sales_loop_rows (modelId : Z) (units : Z -> option Z) (years : list Z) (s : Seeder)
    (r : Sale.t) :
  In r (sales (db (fold_left
                     (fun s year => on_db (insert_sale modelId year (default 0%Z (units year))) s)
                     years s)))
  <-> (In r (sales (db s)) /\ ~ (Sale.model_id r = modelId /\ In (Sale.year r) years))
      \/ (Sale.model_id r = modelId /\ In (Sale.year r) years
          /\ Sale.units r = default 0%Z (units (Sale.year r))).
Proof.
  revert s. induction years as [|year rest IH]; intros s.
  - cbn. tauto.
  - cbn [fold_left]. rewrite IH. cbn [on_db db]. rewrite insert_sale_rows.
    unfold sale_key. cbn [In]. split.
    + intros [([(H & Hk)| ->] & Hrest)|(H1 & H2 & H3)].
      * left. split; [exact H|]. intros (E1 & [E2|E2]); [|tauto].
        apply Hk. congruence.
      * right. cbn. auto.
      * right. auto.
    + intros [(H & Hno)|(H1 & H2 & H3)].
      * left. split; [|tauto]. left. split; [exact H|].
        intros [= E1 E2]. apply Hno. auto.
      * destruct (in_dec Z.eq_dec (Sale.year r) rest) as [Hin|Hout]; [right; auto|].
        destruct H2 as [H2|H2]; [|contradiction].
        left. split; [|tauto]. right. destruct r as [m y u]. cbn in *. congruence.
Qed.

Lemma sales_years_range (year : Z) : In year sales_years <-> (2001 <= year <= 2020)%Z.
Proof.
  unfold sales_years. rewrite in_map_iff. split.
  - intros (n & <- & Hn). apply in_seq in Hn. lia.
  - intros H. exists (Z.to_nat year). split; [lia|]. apply in_seq. lia.
Qed.

(** X12.  What [seedSales] leaves in [sales] for one record.  The rows
    of the record's model for the years 2001 to 2020 are rewritten, each
    year with the units of the record and with 0 where the record has no
    number; every other row, of another model or of a year outside that
    range, stays; and nothing else is added. *)
Theorem seedSalesRecord_rows (record : SalesRecord.t) (s : Seeder) (r : Sale.t) :
  let modelId :=
    record_model_id (SalesRecord.Maker record) (SalesRecord.Genmodel record)
      (SalesRecord.Genmodel_ID record) s in
  In r (sales (db (seedSalesRecord record s)))
  <-> (In r (sales (db s))
       /\ ~ (Sale.model_id r = modelId /\ (2001 <= Sale.year r <= 2020)%Z))
      \/ (Sale.model_id r = modelId /\ (2001 <= Sale.year r <= 2020)%Z
          /\ Sale.units r = default 0%Z (SalesRecord.units record (Sale.year r))).
Proof.
  intros modelId. rewrite seedSalesRecord_eq. cbv zeta.
  rewrite sales_loop_rows, sales_years_range. fold modelId.
  assert (E : sales (db (snd (getModelId (fst (getMakerId (SalesRecord.Maker record) s))
                                (SalesRecord.Genmodel record)
                                (SalesRecord.Genmodel_ID record)
                                (snd (getMakerId (SalesRecord.Maker record) s)))))
              = sales (db s)).
  { unfold getModelId, getMakerId. cbv zeta.
    destruct (makerCache s !! _); cbn [fst snd];
      destruct (modelCache _ !! _); cbn [fst snd db]; reflexivity. }
  rewrite E. unfold modelId, record_model_id. reflexivity.
Qed.

Lemma insert_price_rows (modelId year : Z) (e1 e2 : option Q) (d : DB) (r : Price.t) :
  In r (prices (insert_price modelId year e1 e2 d)) <->
  (In r (prices d) /\ price_key r <> (modelId, year))
  \/ r = {| Price.model_id := modelId; Price.year := year;
            Price.entry_price := e1; Price.entry_price_eur := e2 |}.
Proof.
  cbn [insert_price with_prices prices].
  set (conflict := fun r : Price.t =>
                     (Price.model_id r =? modelId)%Z && (Price.year r =? year)%Z).
  set (new := {| Price.model_id := modelId; Price.year := year;
                 Price.entry_price := e1; Price.entry_price_eur := e2 |}).
  assert (Hc : forall a, conflict a = true <-> price_key a = (modelId, year)).
  { intros a. apply (price_conflict_key modelId year e1 e2). }
  assert (Hn : forall a, conflict a = false <-> price_key a <> (modelId, year)).
  { intros a. rewrite <- Hc. destruct (conflict a); split; congruence. }
  assert (Hu : forall a, conflict a = true ->
                 {| Price.model_id := Price.model_id a; Price.year := Price.year a;
                    Price.entry_price := e1; Price.entry_price_eur := e2 |} = new).
  { intros a Ha. apply Hc in Ha. unfold price_key in Ha. injection Ha as -> ->. reflexivity. }
  split.
  - intros H. apply upsert_In in H as [(H & Hf)|[(b & Hb & Hcb & ->)|(-> & _)]].
    + left. split; [exact H | now apply Hn].
    + right. now apply Hu.
    + now right.
  - unfold upsert. destruct (existsb conflict (prices d)) eqn:He.
    + intros [(H & Hk)| ->].
      * apply in_map_iff. exists r. apply Hn in Hk. rewrite Hk. auto.
      * apply existsb_exists in He as (b & Hb & Hcb).
        apply in_map_iff. exists b. rewrite Hcb. split; [now apply Hu | exact Hb].
    + intros [(H & _)| ->]; apply in_or_app; [now left | right; now left].
Qed.

Lemma catalog_steps_prices (makerName modelName genmodelId : string) (s : Seeder) :
  prices (db (snd (getModelId (fst (getMakerId makerName s)) modelName genmodelId
                     (snd (getMakerId makerName s)))))
  = prices (db s).
Proof.
  unfold getModelId, getMakerId. cbv zeta.
  destruct (makerCache s !! _); cbn [fst snd];
    destruct (modelCache _ !! _); cbn [fst snd db]; reflexivity.
Qed.

(** X13.  What [seedPrices] does with one record.  A record that lacks
    a maker name, a model name or a genmodel id is skipped without a
    trace.  A record with the three names but without a year, or with
    the year 0, leaves [prices] as it is.  Any other record leaves, for
    its model and year, the one row that holds its two prices, and
    every row of another model or year as it was. *)
Theorem seedPricesRecord_rows (record : PriceRecord.t) (s : Seeder) :
  (price_record_names record = None -> seedPricesRecord record s = s)
  /\ (PriceRecord.Year record = None \/ PriceRecord.Year record = Some 0%Z ->
      prices (db (seedPricesRecord record s)) = prices (db s))
  /\ (forall makerName modelName genmodelId year,
        price_record_names record = Some (makerName, modelName, genmodelId) ->
        PriceRecord.Year record = Some year -> year <> 0%Z ->
        forall r,
          In r (prices (db (seedPricesRecord record s)))
          <-> (In r (prices (db s))
               /\ price_key r <> (record_model_id makerName modelName genmodelId s, year))
              \/ r = {| Price.model_id := record_model_id makerName modelName genmodelId s;
                        Price.year := year;
                        Price.entry_price := PriceRecord.Entry_price record;
                        Price.entry_price_eur := PriceRecord.Entry_price_eur record |}).
Proof.
  split; [|split].
  - intros E. now rewrite seedPricesRecord_eq, E.
  - intros Hy. rewrite seedPricesRecord_eq.
    destruct (price_record_names record) as [[[makerName modelName] genmodelId]|];
      [|reflexivity].
    cbv zeta. destruct Hy as [->| ->]; cbn; apply catalog_steps_prices.
  - intros makerName modelName genmodelId year E Ey Hnz r.
    rewrite seedPricesRecord_eq, E, Ey. cbv zeta.
    destruct (Z.eqb_spec year 0) as [|_]; [contradiction|].
    cbn [on_db db]. rewrite insert_price_rows, catalog_steps_prices. reflexivity.
Qed.

(** *** Names, upper and lower case *)

Lemma to_lower_upper (c : ascii) : Text.to_lower (Text.to_upper c) = Text.to_lower c.
Proof. destruct c as [[] [] [] [] [] [] [] []]; reflexivity. Qed.

Lemma to_upper_lower (c : ascii) : Text.to_upper (Text.to_lower c) = Text.to_upper c.
Proof. destruct c as [[] [] [] [] [] [] [] []]; reflexivity. Qed.

Lemma upper_lower_eq (a b : Text.text) :
  Text.upper a = Text.upper b <-> Text.lower a = Text.lower b.
Proof.
  split; intros H.
  - assert (E : forall t, Text.lower (Text.upper t) = Text.lower t).
    { intros t. unfold Text.lower, Text.upper. rewrite map_map.
      apply map_ext, to_lower_upper. }
    rewrite <- (E a), <- (E b), H. reflexivity.
  - assert (E : forall t, Text.upper (Text.lower t) = Text.upper t).
    { intros t. unfold Text.lower, Text.upper. rewrite map_map.
      apply map_ext, to_upper_lower. }
    rewrite <- (E a), <- (E b), H. reflexivity.
Qed.

Lemma toUpperCase_lower (x y : string) :
  toUpperCase x = toUpperCase y <-> Text.lower (txt x) = Text.lower (txt y).
Proof.
  rewrite <- upper_lower_eq. unfold toUpperCase. split; intros H.
  - apply (f_equal txt) in H. now rewrite !txt_str in H.
  - now rewrite H.
Qed.

(** X14.  Ingestion and lookup agree.  In a process that started on a
    database that satisfies its constraints and has no maker yet, after
    [seedSales] and [seedPrices] have run, the maker query of the
    listing matcher, asked for a name without [%], [_] and backslash,
    finds every ingested maker whose trimmed name equals that name up to
    letter case, and returns the very id [getMakerId] has cached for
    it. *)
Theorem find_maker_finds_ingested (sales_file : list SalesRecord.t)
    (price_file : list PriceRecord.t) (d : DB) (n make : string) :
  catalog_ok d -> makers d = [] ->
  In n (ingested_maker_names sales_file price_file) ->
  wildcard_free (txt make) ->
  Text.lower (txt make) = Text.lower (txt (trim n)) ->
  let s := seedCatalog sales_file price_file (start d) in
  exists m,
    In m (makers (db s))
    /\ find_maker (db s) make = Some (Maker.id m)
    /\ getMakerId n s = (Maker.id m, s)
    /\ Text.lower (txt (Maker.name m)) = Text.lower (txt make).
Proof.
  intros Hcat Hempty Hn Hw Hlow s.
  pose proof (maker_inv_seedCatalog sales_file price_file (start d) []
                (maker_inv_start d Hempty)) as Hinv.
  cbn [app] in Hinv. fold s in Hinv.
  destruct (seedCatalog_keeps_constraints sales_file price_file (start d) Hcat
              (start_caches_ok d)) as (_ & Hc).
  fold s in Hc.
  destruct (inv_done _ _ Hinv n Hn) as (id & Hid).
  destruct (cached_maker _ Hc _ _ Hid) as (m & Hm & <- & Hkey).
  unfold maker_key in Hkey.
  assert (Hm_low : Text.lower (txt (Maker.name m)) = Text.lower (txt make)).
  { rewrite Hlow. now apply toUpperCase_lower. }
  exists m. split; [exact Hm|]. split; [|split; [|exact Hm_low]].
  - unfold find_maker.
    destruct (find _ (makers (db s))) as [m1|] eqn:Hf.
    + apply find_some in Hf as (Hm1 & Hlike). cbn [option_map]. do 2 f_equal.
      apply (ilike_exact _ _ Hw) in Hlike.
      apply (NoDup_map_In_eq (fun m => toUpperCase (Maker.name m)) (makers (db s)));
        [exact (inv_unique _ _ Hinv) | exact Hm1 | exact Hm|].
      apply toUpperCase_lower. congruence.
    + apply find_none with (x := m) in Hf; [|exact Hm].
      assert (Text.ilike (txt make) (txt (Maker.name m)) = true)
        by (now apply ilike_exact).
      congruence.
  - unfold getMakerId. cbv zeta. unfold maker_key in Hid. now rewrite Hid.
Qed.

Lemma find_maker_finds_ingested_witness :
  let s := seedCatalog [sales_record " Ford " "Focus" "29_1"] sample_prices (start empty_db) in
  exists m,
    In m (makers (db s))
    /\ find_maker (db s) "FORD" = Some (Maker.id m)
    /\ getMakerId " Ford " s = (Maker.id m, s)
    /\ Text.lower (txt (Maker.name m)) = Text.lower (txt "FORD").
Proof.
  apply (find_maker_finds_ingested [sales_record " Ford " "Focus" "29_1"] sample_prices
           empty_db " Ford " "FORD").
  - exact empty_db_ok.
  - reflexivity.
  - cbn. tauto.
  - reflexivity.
  - vm_compute. reflexivity.
Defined.

(** ** Starting the pipeline again *)

(** *** The statements of a run as steps on their tables *)

Lemma model_keeps_conflicts (s s' : Step.t Model.t) :
  model_good_step s -> model_good_step s' ->
  forall a, Step.conflict s' (Step.update s a) = Step.conflict s' a.
Proof. intros (? & ? & ? & ? & ->) (? & ? & ? & ? & ->) a. reflexivity. Qed.

Lemma model_last_wins (s s' : Step.t Model.t) :
  model_good_step s -> model_good_step s' ->
  forall a, Step.conflict s a = true -> Step.conflict s' a = true ->
            Step.update s' (Step.update s a) = Step.update s' a.
Proof. intros (? & ? & ? & ? & ->) (? & ? & ? & ? & ->) a _ _. reflexivity. Qed.

Lemma model_new_settled (s : Step.t Model.t) :
  model_good_step s ->
  Step.conflict s (Step.new s) = true /\ Step.update s (Step.new s) = Step.new s.
Proof.
  intros (fresh & makerId & name & genmodelId & ->). cbn.
  now rewrite Z.eqb_refl, String.eqb_refl.
Qed.

Lemma sale_keeps_conflicts (s s' : Step.t Sale.t) :
  sale_good_step s -> sale_good_step s' ->
  forall a, Step.conflict s' (Step.update s a) = Step.conflict s' a.
Proof. intros (? & ? & ? & ->) (? & ? & ? & ->) a. reflexivity. Qed.

Lemma sale_last_wins (s s' : Step.t Sale.t) :
  sale_good_step s -> sale_good_step s' ->
  forall a, Step.conflict s a = true -> Step.conflict s' a = true ->
            Step.update s' (Step.update s a) = Step.update s' a.
Proof. intros (? & ? & ? & ->) (? & ? & ? & ->) a _ _. reflexivity. Qed.

Lemma sale_new_settled (s : Step.t Sale.t) :
  sale_good_step s ->
  Step.conflict s (Step.new s) = true /\ Step.update s (Step.new s) = Step.new s.
Proof. intros (modelId & year & units & ->). cbn. now rewrite !Z.eqb_refl. Qed.

Lemma price_keeps_conflicts (s s' : Step.t Price.t) :
  price_good_step s -> price_good_step s' ->
  forall a, Step.conflict s' (Step.update s a) = Step.conflict s' a.
Proof. intros (? & ? & ? & ? & ->) (? & ? & ? & ? & ->) a. reflexivity. Qed.

Lemma price_last_wins (s s' : Step.t Price.t) :
  price_good_step s -> price_good_step s' ->
  forall a, Step.conflict s a = true -> Step.conflict s' a = true ->
            Step.update s' (Step.update s a) = Step.update s' a.
Proof. intros (? & ? & ? & ? & ->) (? & ? & ? & ? & ->) a _ _. reflexivity. Qed.

Lemma price_new_settled (s : Step.t Price.t) :
  price_good_step s ->
  Step.conflict s (Step.new s) = true /\ Step.update s (Step.new s) = Step.new s.
Proof. intros (modelId & year & e1 & e2 & ->). cbn. now rewrite !Z.eqb_refl. Qed.

Lemma model_steps_good (fresh : Z) (log : list write) :
  Forall model_good_step (model_steps fresh log).
Proof.
  revert fresh. induction log as [|[makerId name genmodelId| |] rest IH]; intros fresh;
    cbn [model_steps]; auto.
  constructor; [|apply IH]. now exists fresh, makerId, name, genmodelId.
Qed.

Lemma sale_steps_good (log : list write) : Forall sale_good_step (sale_steps log).
Proof.
  induction log as [|[|modelId year units|] rest IH]; cbn [sale_steps]; auto.
  constructor; [|exact IH]. now exists modelId, year, units.
Qed.

Lemma price_steps_good (log : list write) : Forall price_good_step (price_steps log).
Proof.
  induction log as [|[| |modelId year e1 e2] rest IH]; cbn [price_steps]; auto.
  constructor; [|exact IH]. now exists modelId, year, e1, e2.
Qed.

Lemma model_steps_same_effect (fresh fresh' : Z) (log : list write) :
  Forall2 same_effect (model_steps fresh log) (model_steps fresh' log).
Proof.
  revert fresh fresh'. induction log as [|[makerId name genmodelId| |] rest IH];
    intros fresh fresh'; cbn [model_steps]; auto.
  constructor; [|apply IH]. intros a. split; reflexivity.
Qed.

Lemma same_effect_refl {A} (steps : list (Step.t A)) : Forall2 same_effect steps steps.
Proof.
  induction steps as [|s rest IH]; [constructor|].
  constructor; [intros a; split; reflexivity | exact IH].
Qed.

Lemma replay_cons (w : write) (log : list write) (d : DB) :
  replay (w :: log) d = replay log (apply_write w d).
Proof. reflexivity. Qed.

Lemma replay_app (log1 log2 : list write) (d : DB) :
  replay (log1 ++ log2) d = replay log2 (replay log1 d).
Proof. apply fold_left_app. Qed.

(** The tables after a sequence of statements. *)
Lemma replay_tables (log : list write) (d : DB) :
  models (replay log d) = run_steps (model_steps (models_id_seq d) log) (models d)
  /\ sales (replay log d) = run_steps (sale_steps log) (sales d)
  /\ prices (replay log d) = run_steps (price_steps log) (prices d).
Proof.
  revert d. induction log as [|w rest IH]; intros d; [now cbn|].
  rewrite replay_cons. destruct (IH (apply_write w d)) as (-> & -> & ->).
  destruct w; cbn; auto.
Qed.

(** *** What a run writes is what its statements write *)

Lemma same_written_refl (d : DB) : same_written d d.
Proof. repeat split. Qed.

Lemma same_written_trans (d1 d2 d3 : DB) :
  same_written d1 d2 -> same_written d2 d3 -> same_written d1 d3.
Proof. intros (A1 & A2 & A3 & A4) (B1 & B2 & B3 & B4). repeat split; congruence. Qed.

Lemma apply_write_same_written (w : write) (d d' : DB) :
  same_written d d' -> same_written (apply_write w d) (apply_write w d').
Proof.
  intros (E1 & E2 & E3 & E4). destruct w; cbn; unfold same_written; cbn;
    rewrite ?E1, ?E2, ?E3, ?E4; auto.
Qed.

Lemma replay_same_written (log : list write) (d d' : DB) :
  same_written d d' -> same_written (replay log d) (replay log d').
Proof.
  revert d d'. induction log as [|w rest IH]; intros d d' H; [exact H|].
  rewrite !replay_cons. now apply IH, apply_write_same_written.
Qed.

Lemma getMakerId_written (makerName : string) (s : Seeder) :
  same_written (db s) (db (snd (getMakerId makerName s))).
Proof.
  unfold getMakerId. cbv zeta. destruct (makerCache s !! _); cbn; repeat split.
Qed.

Lemma getModelId_written (makerId : Z) (modelName genmodelId : string) (s : Seeder) :
  same_written (replay (getModelId_log makerId modelName genmodelId s) (db s))
    (db (snd (getModelId makerId modelName genmodelId s))).
Proof.
  unfold getModelId, getModelId_log. cbv zeta.
  destruct (modelCache s !! _); cbn; repeat split.
Qed.

Lemma sales_loop_written (modelId : Z) (units : Z -> option Z) (years : list Z) (s : Seeder) :
  db (fold_left (fun s year => on_db (insert_sale modelId year (default 0%Z (units year))) s)
        years s)
  = replay (map (fun year => WriteSale modelId year (default 0%Z (units year))) years) (db s).
Proof.
  revert s. induction years as [|year rest IH]; intros s; [reflexivity|].
  cbn [fold_left map]. rewrite IH. reflexivity.
Qed.

Lemma seedSalesRecord_log_eq (record : SalesRecord.t) (s : Seeder) :
  seedSalesRecord_log record s
  = let s1 := snd (getMakerId (SalesRecord.Maker record) s) in
    let makerId := fst (getMakerId (SalesRecord.Maker record) s) in
    let modelId := fst (getModelId makerId (SalesRecord.Genmodel record)
                          (SalesRecord.Genmodel_ID record) s1) in
    getModelId_log makerId (SalesRecord.Genmodel record) (SalesRecord.Genmodel_ID record) s1
    ++ sales_loop_log modelId (SalesRecord.units record).
Proof.
  unfold seedSalesRecord_log.
  destruct (getMakerId (SalesRecord.Maker record) s) as [makerId s1]. cbn [fst snd].
  destruct (getModelId makerId _ _ s1) as [modelId s2]. reflexivity.
Qed.

Lemma seedPricesRecord_log_eq (record : PriceRecord.t) (s : Seeder) :
  seedPricesRecord_log record s
  = match price_record_names record with
    | Some (makerName, modelName, genmodelId) =>
        let s1 := snd (getMakerId makerName s) in
        let makerId := fst (getMakerId makerName s) in
        let modelId := fst (getModelId makerId modelName genmodelId s1) in
        getModelId_log makerId modelName genmodelId s1 ++ price_row_log record modelId
    | None => []
    end.
Proof.
  unfold seedPricesRecord_log.
  destruct (price_record_names record) as [[[makerName modelName] genmodelId]|];
    [|reflexivity].
  destruct (getMakerId makerName s) as [makerId s1]. cbn [fst snd].
  destruct (getModelId makerId _ _ s1) as [modelId s2]. reflexivity.
Qed.

Lemma seedSalesRecord_written (record : SalesRecord.t) (s : Seeder) :
  same_written (replay (seedSalesRecord_log record s) (db s)) (db (seedSalesRecord record s)).
Proof.
  rewrite seedSalesRecord_log_eq, seedSalesRecord_eq. cbv zeta.
  rewrite replay_app, sales_loop_written. apply replay_same_written.
  eapply same_written_trans; [|apply getModelId_written].
  apply replay_same_written, getMakerId_written.
Qed.

Lemma seedPricesRecord_written (record : PriceRecord.t) (s : Seeder) :
  same_written (replay (seedPricesRecord_log record s) (db s))
    (db (seedPricesRecord record s)).
Proof.
  rewrite seedPricesRecord_log_eq, seedPricesRecord_eq.
  destruct (price_record_names record) as [[[makerName modelName] genmodelId]|];
    [|apply same_written_refl].
  cbv zeta. rewrite replay_app.
  assert (H : same_written
                (replay (getModelId_log (fst (getMakerId makerName s)) modelName genmodelId
                           (snd (getMakerId makerName s))) (db s))
                (db (snd (getModelId (fst (getMakerId makerName s)) modelName genmodelId
                            (snd (getMakerId makerName s)))))).
  { eapply same_written_trans; [|apply getModelId_written].
    apply replay_same_written, getMakerId_written. }
  unfold price_row_log. destruct (PriceRecord.Year record) as [year|]; [|exact H].
  destruct (year =? 0)%Z; [exact H|].
  exact (apply_write_same_written (WritePrice _ _ _ _) _ _ H).
Qed.

Lemma fold_written {X} (step : X -> Seeder -> Seeder) (log : X -> Seeder -> list write)
    (xs : list X) (s : Seeder) :
  (forall x s, same_written (replay (log x s) (db s)) (db (step x s))) ->
  same_written (replay (fold_log step log xs s) (db s))
    (db (fold_left (fun s x => step x s) xs s)).
Proof.
  intros H. revert s. induction xs as [|x rest IH]; intros s; [apply same_written_refl|].
  cbn [fold_log fold_left]. rewrite replay_app.
  eapply same_written_trans; [|apply IH]. apply replay_same_written, H.
Qed.

Lemma seedCatalog_written (sales_file : list SalesRecord.t) (price_file : list PriceRecord.t)
    (s : Seeder) :
  same_written (replay (seedCatalog_log sales_file price_file s) (db s))
    (db (seedCatalog sales_file price_file s)).
Proof.
  unfold seedCatalog_log, seedCatalog. rewrite replay_app.
  eapply same_written_trans;
    [|exact (fold_written (fun record s => seedPricesRecord record s) seedPricesRecord_log
               price_file _ seedPricesRecord_written)].
  apply replay_same_written.
  exact (fold_written (fun record s => seedSalesRecord record s) seedSalesRecord_log
           sales_file s seedSalesRecord_written).
Qed.

(** *** A second run sends the statements of the first *)

Lemma replays_const {B} (h : Seeder -> Seeder) (b : B) :
  replays (fun s => (tt, h s)) -> replays (fun s => (b, h s)).
Proof.
  intros [H1 H2 H3]. split; cbn [fst snd] in *; auto.
  intros s S Hc Hu He. destruct (H3 s S Hc Hu He) as (_ & H). auto.
Qed.

Lemma replays_map {A B} (f : Seeder -> A * Seeder) (g : A -> B) :
  replays f -> replays (fun s => (g (fst (f s)), snd (f s))).
Proof.
  intros [H1 H2 H3]. split; cbn [fst snd]; auto.
  intros s S Hc Hu He. destruct (H3 s S Hc Hu He) as (-> & H). auto.
Qed.

Lemma getModelId_logged_replays (makerId : Z) (modelName genmodelId : string) :
  replays (fun s => ((fst (getModelId makerId modelName genmodelId s),
                      getModelId_log makerId modelName genmodelId s),
                     snd (getModelId makerId modelName genmodelId s))).
Proof.
  destruct (getModelId_replays makerId modelName genmodelId) as [H1 H2 H3].
  split; cbn [fst snd]; auto.
  intros s S Hc Hu He. destruct (H3 s S Hc Hu He) as (-> & H).
  split; [|exact H]. f_equal. unfold getModelId_log. now rewrite (proj2 Hc).
Qed.

Lemma seedSalesRecord_logged_replays (record : SalesRecord.t) :
  replays (fun s => (seedSalesRecord_log record s, seedSalesRecord record s)).
Proof.
  eapply replays_ext;
    [|exact (replays_bind _ _
               (getMakerId_replays (SalesRecord.Maker record))
               (fun makerId =>
                  replays_bind _ _
                    (getModelId_logged_replays makerId (SalesRecord.Genmodel record)
                       (SalesRecord.Genmodel_ID record))
                    (fun ml =>
                       replays_const _
                         (snd ml ++ sales_loop_log (fst ml) (SalesRecord.units record))
                         (replays_fold
                            (fun year s =>
                               on_db (insert_sale (fst ml) year
                                        (default 0%Z (SalesRecord.units record year))) s)
                            sales_years
                            (fun year => on_db_sale_replays (fst ml) year _)))))].
  intros s. cbv beta. cbn [fst snd].
  now rewrite seedSalesRecord_eq, seedSalesRecord_log_eq.
Qed.

Lemma seedPricesRecord_logged_replays (record : PriceRecord.t) :
  replays (fun s => (seedPricesRecord_log record s, seedPricesRecord record s)).
Proof.
  destruct (price_record_names record) as [[[makerName modelName] genmodelId]|] eqn:E.
  - eapply replays_ext;
      [|exact (replays_bind _ _
                 (getMakerId_replays makerName)
                 (fun makerId =>
                    replays_bind _ _
                      (getModelId_logged_replays makerId modelName genmodelId)
                      (fun ml =>
                         replays_const _ (snd ml ++ price_row_log record (fst ml))
                           (price_row_replays record (fst ml)))))].
    intros s. cbv beta. cbn [fst snd].
    rewrite seedPricesRecord_eq, seedPricesRecord_log_eq, E. reflexivity.
  - eapply replays_ext; [|exact (replays_const (fun s => s) [] skip_replays)].
    intros s. cbv beta. now rewrite seedPricesRecord_eq, seedPricesRecord_log_eq, E.
Qed.

Lemma fold_logged_replays {X} (step : X -> Seeder -> Seeder)
    (log : X -> Seeder -> list write) (xs : list X) :
  (forall x, replays (fun s => (log x s, step x s))) ->
  replays (fun s => (fold_log step log xs s, fold_left (fun s x => step x s) xs s)).
Proof.
  intros H. induction xs as [|x rest IH]; cbn [fold_log fold_left].
  - exact (replays_const (fun s => s) [] skip_replays).
  - exact (replays_bind (fun s => (log x s, step x s))
             (fun l s => (l ++ fold_log step log rest s,
                          fold_left (fun s x => step x s) rest s))
             (H x)
             (fun l => replays_map
                         (fun s => (fold_log step log rest s,
                                    fold_left (fun s x => step x s) rest s))
                         (app l) IH)).
Qed.

Lemma seedCatalog_logged_replays (sales_file : list SalesRecord.t)
    (price_file : list PriceRecord.t) :
  replays (fun s => (seedCatalog_log sales_file price_file s,
                     seedCatalog sales_file price_file s)).
Proof.
  exact (replays_bind
           (fun s => (seedSales_log sales_file s, seedSales sales_file s))
           (fun l s => (l ++ seedPrices_log price_file s, seedPrices price_file s))
           (fold_logged_replays _ _ sales_file seedSalesRecord_logged_replays)
           (fun l => replays_map
                       (fun s => (seedPrices_log price_file s, seedPrices price_file s))
                       (app l)
                       (fold_logged_replays _ _ price_file seedPricesRecord_logged_replays))).
Qed.

Lemma catalog_rerun (sales_file : list SalesRecord.t) (price_file : list PriceRecord.t)
    (d D : DB) :
  unique_keys d ->
  let c1 := db (seedCatalog sales_file price_file (start d)) in
  makers D = makers c1 -> models D = models c1 ->
  sales D = sales c1 -> prices D = prices c1 ->
  let c2 := db (seedCatalog sales_file price_file (start D)) in
  makers c2 = makers c1 /\ models c2 = models c1
  /\ sales c2 = sales c1 /\ prices c2 = prices c1.
Proof.
  intros Hu c1 E1 E2 E3 E4 c2.
  pose proof (seedCatalog_logged_replays sales_file price_file) as HF.
  pose proof (replay_unique _ HF (start d) Hu) as Hu1. cbn [fst snd] in Hu1. fold c1 in Hu1.
  assert (HuD : unique_keys D).
  { destruct Hu1 as (A & B). split; [now rewrite E1 | now rewrite E2]. }
  destruct (replay_same _ HF (start d) (start D)) as (Elog & (Emk & _) & _).
  - split; reflexivity.
  - exact HuD.
  - cbn [fst snd start db]. fold c1. split.
    + rewrite E1. apply incl_refl.
    + unfold model_rows. rewrite E2. apply incl_refl.
  - cbn [fst snd start db] in Elog, Emk. fold c2 in Emk.
    set (log := seedCatalog_log sales_file price_file (start d)) in *.
    destruct (seedCatalog_written sales_file price_file (start d)) as (M1 & _ & S1 & P1).
    destruct (seedCatalog_written sales_file price_file (start D)) as (M2 & _ & S2 & P2).
    cbn [start db] in M1, S1, P1, M2, S2, P2. fold log in M1, S1, P1.
    rewrite Elog in M2, S2, P2. fold c1 in M1, S1, P1. fold c2 in M2, S2, P2.
    destruct (replay_tables log d) as (TM1 & TS1 & TP1).
    destruct (replay_tables log D) as (TM2 & TS2 & TP2).
    split; [congruence|]. split; [|split].
    + rewrite M2, TM2, E2, M1, TM1.
      apply (run_steps_twice model_good_step
               model_keeps_conflicts model_last_wins model_new_settled);
        [apply model_steps_good | apply model_steps_good | apply model_steps_same_effect].
    + rewrite S2, TS2, E3, S1, TS1.
      apply (run_steps_twice sale_good_step
               sale_keeps_conflicts sale_last_wins sale_new_settled);
        [apply sale_steps_good | apply sale_steps_good | apply same_effect_refl].
    + rewrite P2, TP2, E4, P1, TP1.
      apply (run_steps_twice price_good_step
               price_keeps_conflicts price_last_wins price_new_settled);
        [apply price_steps_good | apply price_steps_good | apply same_effect_refl].
Qed.

(** Catalog ingestion leaves [listings] alone. *)
Lemma getMakerId_listings (makerName : string) (s : Seeder) :
  listings (db (snd (getMakerId makerName s))) = listings (db s)
  /\ listings_id_seq (db (snd (getMakerId makerName s))) = listings_id_seq (db s).
Proof. unfold getMakerId. cbv zeta. destruct (makerCache s !! _); cbn; auto. Qed.

Lemma getModelId_listings (makerId : Z) (modelName genmodelId : string) (s : Seeder) :
  listings (db (snd (getModelId makerId modelName genmodelId s))) = listings (db s)
  /\ listings_id_seq (db (snd (getModelId makerId modelName genmodelId s)))
     = listings_id_seq (db s).
Proof. unfold getModelId. cbv zeta. destruct (modelCache s !! _); cbn; auto. Qed.

Lemma fold_listings {X} (step : X -> Seeder -> Seeder) (xs : list X) (s : Seeder) :
  (forall x s, listings (db (step x s)) = listings (db s)
               /\ listings_id_seq (db (step x s)) = listings_id_seq (db s)) ->
  listings (db (fold_left (fun s x => step x s) xs s)) = listings (db s)
  /\ listings_id_seq (db (fold_left (fun s x => step x s) xs s)) = listings_id_seq (db s).
Proof.
  intros H. revert s. induction xs as [|x rest IH]; intros s; [auto|].
  cbn [fold_left]. destruct (IH (step x s)) as (-> & ->). apply H.
Qed.

Lemma sales_loop_listings (modelId : Z) (units : Z -> option Z) (years : list Z)
    (s : Seeder) :
  listings (db (fold_left
                  (fun s year => on_db (insert_sale modelId year (default 0%Z (units year))) s)
                  years s))
  = listings (db s)
  /\ listings_id_seq
       (db (fold_left
              (fun s year => on_db (insert_sale modelId year (default 0%Z (units year))) s)
              years s))
     = listings_id_seq (db s).
Proof.
  revert s. induction years as [|year rest IH]; intros s; [auto|].
  cbn [fold_left]. destruct (IH (on_db (insert_sale modelId year (default 0%Z (units year))) s))
    as (-> & ->).
  cbn. auto.
Qed.

Lemma seedSalesRecord_listings (record : SalesRecord.t) (s : Seeder) :
  listings (db (seedSalesRecord record s)) = listings (db s)
  /\ listings_id_seq (db (seedSalesRecord record s)) = listings_id_seq (db s).
Proof.
  rewrite seedSalesRecord_eq. cbv zeta.
  match goal with
  | |- context [fold_left _ sales_years ?s2] =>
      destruct (sales_loop_listings
                  (fst (getModelId (fst (getMakerId (SalesRecord.Maker record) s))
                          (SalesRecord.Genmodel record) (SalesRecord.Genmodel_ID record)
                          (snd (getMakerId (SalesRecord.Maker record) s))))
                  (SalesRecord.units record) sales_years s2) as (-> & ->)
  end.
  destruct (getModelId_listings
              (fst (getMakerId (SalesRecord.Maker record) s))
              (SalesRecord.Genmodel record) (SalesRecord.Genmodel_ID record)
              (snd (getMakerId (SalesRecord.Maker record) s))) as (-> & ->).
  apply getMakerId_listings.
Qed.

Lemma seedPricesRecord_listings (record : PriceRecord.t) (s : Seeder) :
  listings (db (seedPricesRecord record s)) = listings (db s)
  /\ listings_id_seq (db (seedPricesRecord record s)) = listings_id_seq (db s).
Proof.
  rewrite seedPricesRecord_eq.
  destruct (price_record_names record) as [[[makerName modelName] genmodelId]|]; [|auto].
  cbv zeta.
  assert (H : listings (db (snd (getModelId (fst (getMakerId makerName s)) modelName
                                   genmodelId (snd (getMakerId makerName s)))))
              = listings (db s)
              /\ listings_id_seq (db (snd (getModelId (fst (getMakerId makerName s))
                                             modelName genmodelId
                                             (snd (getMakerId makerName s)))))
                 = listings_id_seq (db s)).
  { destruct (getModelId_listings (fst (getMakerId makerName s)) modelName genmodelId
                (snd (getMakerId makerName s))) as (-> & ->).
    apply getMakerId_listings. }
  destruct (PriceRecord.Year record) as [year|]; [|exact H].
  destruct (year =? 0)%Z; [exact H|]. cbn. exact H.
Qed.

Lemma seedCatalog_listings (sales_file : list SalesRecord.t) (price_file : list PriceRecord.t)
    (s : Seeder) :
  listings (db (seedCatalog sales_file price_file s)) = listings (db s)
  /\ listings_id_seq (db (seedCatalog sales_file price_file s)) = listings_id_seq (db s).
Proof.
  unfold seedCatalog, seedPrices, seedSales.
  destruct (fold_listings (fun record s => seedPricesRecord record s) price_file
              (fold_left (fun s record => seedSalesRecord record s) sales_file s)
              seedPricesRecord_listings) as (-> & ->).
  exact (fold_listings (fun record s => seedSalesRecord record s) sales_file s
           seedSalesRecord_listings).
Qed.



(** ** The extractor at the edges *)

Lemma split_space_id (s : Text.text) :
  forallb (fun c => negb (Text.is_space c)) s = true -> Text.split_space s = [s].
Proof.
  induction s as [|c r IH]; [reflexivity|]. cbn [forallb].
  intros H. apply andb_true_iff in H as (Hc & Hr). apply negb_true_iff in Hc.
  destruct (split_space_cons c r Hc) as (t & ts & Er & ->).
  rewrite (IH Hr) in Er. now injection Er as <- <-.
Qed.

Lemma split_space_two (s : Text.text) :
  forallb (fun c => negb (Text.is_space c)) s = false ->
  (2 <= length (Text.split_space s))%nat.
Proof.
  induction s as [|c r IH]; [discriminate|]. cbn [forallb]. intros H.
  destruct (Text.is_space c) eqn:Hc.
  - destruct r as [|c' r'].
    + cbn [Text.split_space]. rewrite Hc. cbn. lia.
    + rewrite (split_space_space _ _ _ Hc). destruct (Text.is_space c') eqn:Hc'.
      * apply IH. cbn [forallb]. now rewrite Hc'.
      * pose proof (split_space_nonempty (c' :: r')) as Hne.
        destruct (Text.split_space (c' :: r')); [congruence | cbn; lia].
  - cbn [negb andb] in H.
    destruct (split_space_cons c r Hc) as (t & ts & Er & ->).
    specialize (IH H). rewrite Er in IH. exact IH.
Qed.

Lemma trim_trim (s : Text.text) : Text.trim (Text.trim s) = Text.trim s.
Proof.
  destruct (trim_shape s) as [->|(c & r & -> & Hc & Hn)]; [reflexivity|].
  now apply trim_id.
Qed.

Lemma txt_append (a b : string) : txt (a ++ b)%string = (txt a ++ txt b)%list.
Proof.
  unfold txt. induction a as [|c a IH]; [reflexivity|].
  change (c :: list_ascii_of_string (a ++ b)%string
          = c :: (list_ascii_of_string a ++ list_ascii_of_string b)%list).
  now rewrite IH.
Qed.

Lemma str_nil (t : Text.text) : str t = "" -> t = [].
Proof. destruct t; [reflexivity | discriminate]. Qed.


(** ** What a listings file leaves for a url *)

Lemma seedListings_app (before after : list ListingRecord.t) (d : DB) :
  seedListings (before ++ after) d = seedListings after (seedListings before d).
Proof. apply fold_left_app. Qed.

Lemma same_url_true (u : option string) (l : Listing.t) :
  same_url u l = true <-> exists v, u = Some v /\ Listing.url l = Some v.
Proof.
  unfold same_url. destruct u as [a|], (Listing.url l) as [b|]; split;
    try discriminate; try (intros (v & H1 & H2); discriminate).
  - intros H. apply String.eqb_eq in H. subst. eauto.
  - intros (v & [= ->] & [= ->]). apply String.eqb_refl.
Qed.

Lemma seedListingsRecord_other_url (record : ListingRecord.t) (u : string) (d : DB)
    (l : Listing.t) :
  ListingRecord.url record <> Some u -> Listing.url l = Some u ->
  In l (listings (seedListingsRecord record d)) <-> In l (listings d).
Proof.
  intros Hne Hu.
  assert (Hurl : Listing.url (new_listing d record) <> Some u).
  { cbn. intros H. apply or_null_Some in H. contradiction. }
  assert (Hc : same_url (Listing.url (new_listing d record)) l = false).
  { destruct (same_url _ l) eqn:E; [|reflexivity].
    apply same_url_true in E as (v & E1 & E2). congruence. }
  cbn [seedListingsRecord with_listings listings]. split.
  - intros H. apply upsert_In in H as [(H & _)|[(b & Hb & Hcb & ->)|(-> & _)]].
    + exact H.
    + apply same_url_true in Hcb as (v & E1 & E2). cbn in Hu. congruence.
    + contradiction.
  - intros H. unfold upsert. destruct (existsb _ (listings d)).
    + apply in_map_iff. exists l. now rewrite Hc.
    + apply in_or_app. now left.
Qed.

Lemma seedListings_other_urls (records : list ListingRecord.t) (u : string) (d : DB)
    (l : Listing.t) :
  Forall (fun record => ListingRecord.url record <> Some u) records ->
  Listing.url l = Some u ->
  In l (listings (seedListings records d)) <-> In l (listings d).
Proof.
  intros H Hu. revert d. induction H as [|record rest Hr _ IH]; intros d; [reflexivity|].
  rewrite seedListings_cons, IH. now apply (seedListingsRecord_other_url record u).
Qed.

(** X17.  The last record of a url decides.  After [seedListings] has
    read a file, the row of a url (there is one, when the url is not
    empty) holds the title, price_eur, mileage_km and year of the last
    record of the file with that url, and as model_id what the matcher
    finds for the title of that record. *)
Theorem seedListings_stores_last (before after : list ListingRecord.t)
    (record : ListingRecord.t) (u : string) (d : DB) :
  ListingRecord.url record = Some u -> u <> "" ->
  Forall (fun later => ListingRecord.url later <> Some u) after ->
  let d' := seedListings (before ++ record :: after) d in
  (exists l, In l (listings d') /\ Listing.url l = Some u)
  /\ forall l, In l (listings d') -> Listing.url l = Some u ->
       Listing.title l = or_null (ListingRecord.title record)
       /\ Listing.price_eur l = ListingRecord.price_eur record
       /\ Listing.mileage_km l = ListingRecord.mileage_km record
       /\ Listing.year l = ListingRecord.year record
       /\ Listing.model_id l = match_model d (extractMakeModel (ListingRecord.title record)).
Proof.
  intros Hu Hne Hafter d'. unfold d'.
  rewrite seedListings_app, seedListings_cons.
  set (d0 := seedListings before d).
  set (e := new_listing d0 record).
  assert (He : Listing.url e = Some u).
  { cbn. unfold or_null. rewrite Hu, (truthy_Some _ Hne). reflexivity. }
  assert (Hmatch : Listing.model_id e
                   = match_model d (extractMakeModel (ListingRecord.title record))).
  { cbn. destruct (seedListings_catalog before d) as (E1 & E2 & _).
    now apply match_model_catalog. }
  assert (Hrows : forall l, In l (listings (seedListingsRecord record d0)) ->
                            Listing.url l = Some u ->
                            Listing.title l = Listing.title e
                            /\ Listing.price_eur l = Listing.price_eur e
                            /\ Listing.mileage_km l = Listing.mileage_km e
                            /\ Listing.year l = Listing.year e
                            /\ Listing.model_id l = Listing.model_id e).
  { intros l Hl Hlu. cbn [seedListingsRecord with_listings listings] in Hl. fold e in Hl.
    apply upsert_In in Hl as [(_ & Hc)|[(b & _ & _ & ->)|(-> & _)]].
    - assert (same_url (Listing.url e) l = true); [|congruence].
      apply same_url_true. eauto.
    - cbn. auto.
    - auto. }
  split.
  - assert (Hex : exists l, In l (listings (seedListingsRecord record d0))
                            /\ Listing.url l = Some u).
    { cbn [seedListingsRecord with_listings listings]. fold e. unfold upsert.
      destruct (existsb _ (listings d0)) eqn:Hx.
      - apply existsb_exists in Hx as (b & Hb & Hc).
        apply same_url_true in Hc as (v & E1 & E2).
        exists (on_conflict_url e b). split.
        + apply in_map_iff. exists b. split; [|exact Hb].
          assert (same_url (Listing.url e) b = true) as -> by (apply same_url_true; eauto).
          reflexivity.
        + cbn. congruence.
      - exists e. split; [apply in_or_app; right; now left | exact He]. }
    destruct Hex as (l & Hl & Hlu). exists l. split; [|exact Hlu].
    exact (proj2 (seedListings_other_urls after u _ l Hafter Hlu) Hl).
  - intros l Hl Hlu. apply (proj1 (seedListings_other_urls after u _ l Hafter Hlu)) in Hl.
    destruct (Hrows l Hl Hlu) as (-> & -> & -> & -> & ->).
    rewrite Hmatch. cbn. auto.
Qed.

Lemma seedListings_stores_last_witness :
  (exists l, In l (listings (seedListings sample_listings empty_db))
             /\ Listing.url l = Some "https://cars.example/a")
  /\ List.Forall
       (fun l => Listing.url l = Some "https://cars.example/a" ->
                 Listing.title l = Some "Skoda Octavia 1.6 tdi"
                 /\ Listing.price_eur l = Some 17000%Q)
       (listings (seedListings sample_listings empty_db)).
Proof.
  destruct (seedListings_stores_last
              [sample_listing "https://cars.example/a" "Skoda Octavia Combi 2.0 TSI" 18000;
               sample_listing "https://cars.example/b" "Skoda Octavia RS" 25000]
              []
              (sample_listing "https://cars.example/a" "Skoda Octavia 1.6 tdi" 17000)
              "https://cars.example/a" empty_db)
    as (Hex & H).
  - reflexivity.
  - discriminate.
  - constructor.
  - split; [exact Hex|]. apply List.Forall_forall. intros l Hl Hu.
    destruct (H l Hl Hu) as (E1 & E2 & _). split; assumption.
Defined.

(** ** The Listings page and the route *)

Lemma route_at_page (d : DB) (r : Request.t) (resp : Response) (limit offset : Z) :
  price_delta_route d r = Ok resp -> (0 <= limit)%Z -> (0 <= offset)%Z ->
  exists full : list PriceMatch.t,
    total resp = Z.of_nat (length full)
    /\ price_delta_route d (with_page r limit offset)
       = Ok {| data := firstn (Z.to_nat limit) (skipn (Z.to_nat offset) full);
               total := total resp;
               response_limit := limit; response_offset := offset |}.
Proof.
  intros H Hl Ho.
  destruct (route_Ok _ _ _ H) as (full & Hfull & _ & _ & _ & Htot & _).
  exists full. split; [exact Htot|].
  unfold price_delta_route in H |- *.
  apply bind_Ok in H as (rows & _ & H). apply bind_Ok in H as (n & Hn & H).
  injection H as <-. cbn [total].
  unfold query. rewrite ordered_matches_page, countQuery_page, Hfull, Hn. cbn.
  rewrite (limit_offset_Ok _ _ _ Hl Ho). reflexivity.
Qed.

Lemma sort_param_decoded (column : string) (desc : bool) :
  (desc = false -> sortOrder column = false) ->
  sortColumn (sort_param column desc) = column
  /\ sortOrder (sort_param column desc) = desc.
Proof.
  destruct desc; intros H.
  - split; reflexivity.
  - specialize (H eq_refl). change (sort_param column false) with column.
    split; [|exact H].
    destruct column as [|c rest]; [reflexivity|].
    cbn in H |- *. destruct (Ascii.ascii_dec c "-") as [->|Hc]; [discriminate|].
    destruct c as [[] [] [] [] [] [] [] []]; try reflexivity. now destruct Hc.
Qed.

(** X18.  The sort key of the Listings page arrives as chosen.  The
    page writes the key as the column name with a leading "-" for a
    descending order; the route reads the column and the direction
    back, for every name that does not itself begin with "-".  Each of
    the seven headers of the page is a name the route knows: after a
    click the route sorts by that column of its list, never by the
    default, and the statement parses. *)
Theorem listings_page_sort_key (column : string) (sortConfig : string * bool) :
  In column listings_columns ->
  let clicked := handleSort column sortConfig in
  let sortBy := sort_param (fst clicked) (snd clicked) in
  fst clicked = column
  /\ snd clicked = (if String.eqb (fst sortConfig) column then negb (snd sortConfig) else false)
  /\ sortColumn sortBy = column
  /\ sortOrder sortBy = snd clicked
  /\ exists c, In (column, c) own_columns /\ orderBy sortBy = Ok c.
Proof.
  intros Hin clicked sortBy.
  assert (Hfst : fst clicked = column).
  { unfold clicked, handleSort. now destruct (String.eqb _ _). }
  assert (Hminus : sortOrder column = false).
  { cbn in Hin. repeat destruct Hin as [<-|Hin]; try reflexivity. contradiction. }
  destruct (sort_param_decoded (fst clicked) (snd clicked)) as (Hc & Ho).
  { intros _. now rewrite Hfst. }
  fold sortBy in Hc, Ho. rewrite Hfst in Hc.
  split; [exact Hfst|]. split.
  { unfold clicked, handleSort. now destruct (String.eqb _ _). }
  split; [exact Hc|]. split; [exact Ho|].
  unfold orderBy. rewrite Hc.
  cbn in Hin. repeat destruct Hin as [<-|Hin]; try contradiction;
    (eexists; split; [|reflexivity]); cbn; tauto.
Qed.

Lemma listings_page_sort_key_witness :
  orderBy (sort_param "mileage_km" true) = Ok Column.mileage_km
  /\ sortOrder (sort_param "mileage_km" true) = true.
Proof.
  destruct (listings_page_sort_key "mileage_km" ("mileage_km", false))
    as (_ & _ & _ & Ho & c & Hc & Hs).
  - cbn. tauto.
  - split; [|exact Ho].
    cbn in Hc. repeat destruct Hc as [[= <-]|Hc]; try contradiction. exact Hs.
Defined.

(** X19.  The button "Next" of the Listings page.  When the route has
    answered page [page] of a request of the page, it answers the next
    page of the same request too, with the same total, and the button is
    disabled exactly when that next page has no row. *)
Theorem listings_page_next_button (d : DB) (maker model : option string)
    (minPrice maxPrice : option Q) (limit page : Z) (column : string) (desc : bool)
    (resp : Response) :
  (0 < limit)%Z -> (0 <= page)%Z ->
  price_delta_route d (listings_request maker model minPrice maxPrice limit page column desc)
  = Ok resp ->
  exists next : Response,
    price_delta_route d
      (listings_request maker model minPrice maxPrice limit (page + 1) column desc)
    = Ok next
    /\ total next = total resp
    /\ (next_disabled page limit (total resp) = true <-> data next = []).
Proof.
  intros Hl Hp H.
  destruct (route_at_page _ _ _ limit ((page + 1) * limit) H) as (full & Htot & Hnext);
    [lia..|].
  eexists. split; [exact Hnext|]. cbn [total data]. split; [reflexivity|].
  unfold next_disabled. rewrite Htot, Z.leb_le.
  set (k := Z.to_nat ((page + 1) * limit)).
  assert (Hk : ((page + 1) * limit)%Z = Z.of_nat k) by (unfold k; lia).
  rewrite Hk. split.
  - intros Hle. rewrite skipn_all2 by lia. now rewrite firstn_nil.
  - intros He. destruct (Nat.le_gt_cases (length full) k) as [Hc|Hc]; [lia|].
    exfalso. apply (f_equal (@length _)) in He.
    rewrite length_firstn, length_skipn in He. cbn in He. lia.
Qed.

Lemma listings_page_next_button_witness :
  exists next : Response,
    price_delta_route sample_db
      (listings_request None None None None 2 (0 + 1) "price_delta_percent" true)
    = Ok next
    /\ total next = total sample_response
    /\ (next_disabled 0 2 (total sample_response) = true <-> data next = []).
Proof.
  apply (listings_page_next_button sample_db None None None None 2 0
           "price_delta_percent" true sample_response).
  - lia.
  - lia.
  - vm_compute. reflexivity.
Defined.

(** ** The test endpoint and the route *)

Lemma filter_none {A} (f : A -> bool) (rows : list A) :
  (forall x, In x rows -> f x = false) -> List.filter f rows = [].
Proof.
  induction rows as [|x r IH]; cbn; intros H; [reflexivity|].
  rewrite (H x (or_introl eq_refl)). apply IH. intros y Hy. apply H. now right.
Qed.

Lemma filter_key_unique {B} (key : B -> Z) (k : Z) (rows : list B) :
  List.NoDup (map key rows) ->
  (length (List.filter (fun b => (key b =? k)%Z) rows) <= 1)%nat.
Proof.
  induction rows as [|b r IH]; cbn; intros H; [lia|].
  inversion H as [|? ? Hb Hr]; subst.
  destruct (Z.eqb_spec (key b) k) as [<-|_]; [|now apply IH].
  rewrite filter_none; [cbn; lia|].
  intros x Hx. destruct (Z.eqb_spec (key x) (key b)) as [E|_]; [|reflexivity].
  destruct Hb. rewrite <- E. now apply in_map.
Qed.

Lemma left_join_at_most_one {A B} (on : A -> B -> bool) (left : list A) (right : list B) :
  (forall a, (length (List.filter (on a) right) <= 1)%nat) ->
  Sql.left_join on left right = map (fun a => (a, head (List.filter (on a) right))) left.
Proof.
  intros H. induction left as [|a l IH]; [reflexivity|].
  change (Sql.left_join on (a :: l) right)
    with (match List.filter (on a) right with
          | [] => [(a, None)]
          | bs => map (fun b => (a, Some b)) bs
          end ++ Sql.left_join on l right).
  rewrite IH. specialize (H a). cbn [map].
  destruct (List.filter (on a) right) as [|b [|b' bs]]; cbn in H |- *; [reflexivity..|lia].
Qed.

Lemma models_join_one (d : DB) (l : Listing.t) :
  List.NoDup (map Model.id (models d)) ->
  (length (List.filter (fun m : Model.t =>
                          match Listing.model_id l with
                          | Some i => (Model.id m =? i)%Z
                          | None => false
                          end) (models d)) <= 1)%nat.
Proof.
  intros H. destruct (Listing.model_id l) as [i|].
  - now apply filter_key_unique.
  - rewrite filter_none; [cbn; lia | reflexivity].
Qed.

Lemma makers_join_one (d : DB) (x : Listing.t * option Model.t) :
  List.NoDup (map Maker.id (makers d)) ->
  (length (List.filter (fun mk : Maker.t =>
                          match snd x with
                          | Some m => (Maker.id mk =? Model.maker_id m)%Z
                          | None => false
                          end) (makers d)) <= 1)%nat.
Proof.
  intros H. destruct (snd x) as [m|].
  - now apply filter_key_unique.
  - rewrite filter_none; [cbn; lia | reflexivity].
Qed.

(** Under the primary keys of [models] and [makers], the [FROM] clause
    of the route has one row for each listing, in the order of the
    table, and the test endpoint reads the same rows. *)
Lemma from_clause_listings (d : DB) :
  List.NoDup (map Model.id (models d)) -> List.NoDup (map Maker.id (makers d)) ->
  map Joined.l (from_clause d) = listings d
  /\ test_from d = map (fun j => (Joined.l j, Joined.m j, Joined.p j)) (from_clause d).
Proof.
  intros Hm Hmk. unfold from_clause, test_from.
  rewrite (left_join_at_most_one _ _ (makers d)) by (intros x; now apply makers_join_one).
  rewrite (left_join_at_most_one _ _ (models d)) by (intros l; now apply models_join_one).
  rewrite !map_map. cbn. split; [apply map_id | reflexivity].
Qed.

Lemma distinct_on_NoDup_id (ids : list Z) :
  List.NoDup ids -> Sql.distinct_on (fun k => k) ids = ids.
Proof.
  induction 1 as [|k r Hk Hr IH]; cbn; [reflexivity|].
  rewrite IH. f_equal. apply filter_all. intros x Hx.
  apply negb_true_iff, Z.eqb_neq. congruence.
Qed.

Lemma omap_length_le {A B} (f : A -> option B) (rows : list A) :
  (length (omap f rows) <= length rows)%nat.
Proof.
  induction rows as [|x r IH]; cbn; [lia|]. destruct (f x); cbn; lia.
Qed.

Lemma distinct_on_length_le {A} (key : A -> Z) (rows : list A) :
  (length (Sql.distinct_on key rows) <= length rows)%nat.
Proof.
  induction rows as [|x r IH]; cbn; [lia|].
  apply le_n_S. etransitivity; [apply List.filter_length_le | exact IH].
Qed.

(** X20.  The test endpoint agrees with the route.  Under the primary
    keys of the three tables, [total_listings] is the number of rows of
    [listings], and [with_price_comparison] is the [total] the route
    answers to a request without filters. *)
Theorem price_delta_test_counts (d : DB) (sortBy : string) (limit offset : Z)
    (resp : Response) :
  List.NoDup (map Listing.id (listings d)) ->
  List.NoDup (map Model.id (models d)) ->
  List.NoDup (map Maker.id (makers d)) ->
  price_delta_route d (plain_request sortBy limit offset) = Ok resp ->
  total_listings (price_delta_test d) = Z.of_nat (length (listings d))
  /\ with_price_comparison (price_delta_test d) = total resp
  /\ (matched_models (price_delta_test d) <= total_listings (price_delta_test d))%Z.
Proof.
  intros Hl Hm Hmk H.
  destruct (from_clause_listings d Hm Hmk) as (Hrows & Htest).
  assert (Hids : map (fun j => Listing.id (Joined.l j)) (from_clause d)
                 = map Listing.id (listings d)).
  { rewrite <- Hrows, map_map. reflexivity. }
  split; [|split].
  - cbn. rewrite Htest, length_map, <- Hrows, length_map. reflexivity.
  - unfold price_delta_route in H.
    apply bind_Ok in H as (rows & _ & H). apply bind_Ok in H as (n & Hn & H).
    injection H as <-. cbn [total].
    apply countQuery_Ok in Hn as (kept & Hk & ->).
    apply filterM_Ok in Hk as (_ & ->).
    rewrite distinct_on_NoDup_id
      by (apply NoDup_map_filter; rewrite Hids; exact Hl).
    cbn [with_price_comparison price_delta_test]. rewrite Htest.
    rewrite <- (map_filter_comm (fun j => (Joined.l j, Joined.m j, Joined.p j))
                  (fun x : Listing.t * option Model.t * option Price.t =>
                     bool_decide (is_Some (snd x ≫= Price.entry_price_eur))
                     && bool_decide (is_Some (Listing.price_eur (fst (fst x)))))).
    rewrite !length_map. do 2 f_equal. apply List.filter_ext. intros j. cbn.
    unfold reference_price.
    destruct (bool_decide (is_Some (Joined.p j ≫= Price.entry_price_eur)));
      [|reflexivity].
    destruct (bool_decide (is_Some (Listing.price_eur (Joined.l j)))); reflexivity.
  - cbn [matched_models total_listings price_delta_test].
    apply inj_le. etransitivity; [apply distinct_on_length_le | apply omap_length_le].
Qed.

Lemma price_delta_test_counts_witness :
  total_listings (price_delta_test sample_db) = 3%Z
  /\ with_price_comparison (price_delta_test sample_db) = total sample_response.
Proof.
  destruct (price_delta_test_counts sample_db "-price_delta_percent" 2 0 sample_response)
    as (H1 & H2 & _).
  - vm_compute. repeat constructor; cbn; intuition discriminate.
  - vm_compute. repeat constructor; cbn; intuition discriminate.
  - vm_compute. repeat constructor; cbn; intuition discriminate.
  - vm_compute. reflexivity.
  - split; [exact H1 | exact H2].
Defined.
